(** * AGLStats: the cache-aside resolvers and the deck-strength scorer

    A shallow embedding of [src/main.go].

    Conventions of the embedding.
    - Go's [int] is the 64-bit two's-complement integer: a [Z] together with
      [wrap_int], which is applied wherever the source adds two [int]s.
    - Go's [float64] has two readings.  The scorer is embedded in IEEE 754
      binary64 arithmetic ([float64], the Standard Library's [SpecFloat] at
      precision 53), in which the value that [calculateStrength] returns is
      settled: there every operation rounds, and [int(f)] truncates what has
      been rounded.  Where a statement does not depend on rounding (which
      entries are summed, bounds, monotonicity, independence of the order of
      a map), win rates are read as exact canonical rationals ([Qc]), with
      the constants [0.8], [0.4] and [100.0] as [4/5], [2/5] and [100].
    - A Go [map[string]T] is a [gmap string T]; a lookup with the comma-ok
      form is the [option] returned by [!!].
    - Code with effects runs in the monad [M]: a function of the [World]
      (requests made, pauses taken, contents of the database) that returns
      or panics; a Go result pair [(T, error)] is a pair whose second
      component is an [option].
    - Fields of different structs that share a name carry a prefix
      ([entry_Name], [perf_Name], [cs_cardName]).
    - [fmt.Println]/[fmt.Printf] output is not modelled. *)

From Stdlib Require Import ZArith QArith Qcanon Ascii String.
From Stdlib Require Floats.SpecFloat.
From stdpp Require Import base numbers list sorting gmap strings pretty.

Local Open Scope Z_scope.

(** ** Machine integers *)

Definition int_min : Z := - 2 ^ 63.
Definition int_max : Z := 2 ^ 63 - 1.

(** The value of an [int] expression whose mathematical value is [z]. *)
Definition wrap_int (z : Z) : Z := (z + 2 ^ 63) `mod` 2 ^ 64 - 2 ^ 63.

Definition int_add (a b : Z) : Z := wrap_int (a + b).

Definition is_int (z : Z) : Prop := int_min ≤ z ≤ int_max.

(** ** Numbers standing for [float64] *)

(** [int(f)] in the exact reading: the integer part of the rational [f],
    rounding toward zero. *)
Definition float_to_int (f : Qc) : Z := Qnum (this f) `quot` Zpos (Qden (this f)).

(** [math.Round]: the nearest integer, halves away from zero. *)
Definition math_Round (f : Qc) : Z :=
  let n := Qnum (this f) in
  let d := Zpos (Qden (this f)) in
  if decide (0 ≤ n) then (2 * n + d) `div` (2 * d) else - ((2 * - n + d) `div` (2 * d)).

Definition Qc_frac (n : Z) (d : positive) : Qc := Q2Qc (n # d).

(** ** Data model *)

(** The fields of the Scryfall record that the program reads. *)
Record ScryfallCard := {
  Name : string;
  ManaCost : string;
  Cmc : Qc;
  TypeLine : string;
  ColorIdentity : list string;
  Set_ : string;
  Rarity : string;
  PricesUsd : string
}.

Record DeckSlot := {
  amount : Z;
  cardName : string;
  card : option ScryfallCard
}.

Record PlayerPool := {
  player : string;
  record : string;
  uri : string;
  isAlive : bool;
  team : string;
  cards : list DeckSlot;
  facts : gmap string Z
}.

Record CardStrength := {
  cs_cardName : string;
  strength : Qc
}.

(** ** Constants *)

Definition seventeenLandsDrawnThreshold : Z := 100.
Definition webRetires : nat := 3.
Definition webRetryMs : Z := 500.
Definition scryfallPauseMs : Z := 75.
Definition deckStrengthCardsToConsider : nat := 60.

Definition mtg2CDecks : list string :=
  ["WU"; "WB"; "WR"; "WG"; "UB"; "UR"; "UG"; "BR"; "BG"; "RG"]%string.
Definition mtg3CDecks : list string :=
  ["WUB"; "WUR"; "WUG"; "BRW"; "GWB"; "WRG"; "UBR"; "UBG"; "RGU"; "BRG"]%string.
Definition seventeenLands3CSets : gset string := {[ "SNC"%string ]}.
Definition currentSet : string := "HBG".

(** ** The strength scorer *)

(** [getDecks]: the 2-colour decks, followed by the 3-colour ones for a set
    listed in [seventeenLands3CSets]. *)
Definition getDecks (setCode : string) : list string :=
  let mtgDecks := [] ++ mtg2CDecks in
  if decide (setCode ∈ seventeenLands3CSets) then mtgDecks ++ mtg3CDecks
  else mtgDecks.

(** [sort.Slice(s, less)]: a rearrangement of [s] in which no element is
    [less] than one that precedes it.  The library's algorithm is not stable;
    [sort_Slice_strengths_unique] below shows that the sequence of sort keys,
    which is all the scorer reads, does not depend on the algorithm. *)
Definition sort_Slice {A} (less : A → A → Prop) `{!RelDecision less}
    (s : list A) : list A :=
  merge_sort (λ a b, ¬ less b a) s.

(** The comparison closures of [calculateStrength]. *)
Definition less_cardStrength (a b : CardStrength) : Prop :=
  (strength b < strength a)%Qc.
Definition less_float (a b : Qc) : Prop := (b < a)%Qc.

Global Instance less_cardStrength_dec : RelDecision less_cardStrength.
Proof. intros a b. unfold less_cardStrength. apply _. Defined.
Global Instance less_float_dec : RelDecision less_float.
Proof. intros a b. unfold less_float. apply _. Defined.

(** The inner loop [for i := 0; i < c.amount; i++]: one entry per copy,
    appended to [cardStrengths]; [hit] is the result of the map lookup made
    before the loop. *)
Fixpoint appendCopies (iterations : nat) (name : string) (hit : option Qc)
    (cardStrengths : list CardStrength) : list CardStrength :=
  match iterations with
  | O => cardStrengths
  | S n =>
      let entry :=
        match hit with
        | Some s => {| cs_cardName := name; strength := s |}
        | None => {| cs_cardName := name; strength := 0%Qc |}
        end in
      appendCopies n name hit (cardStrengths ++ [entry])
  end.

(** One iteration of [for _, c := range pool.cards]. *)
Definition addSlotStrengths (strengthMap : gmap string Qc)
    (cardStrengths : list CardStrength) (c : DeckSlot) : list CardStrength :=
  appendCopies (Z.to_nat (amount c)) (cardName c) (strengthMap !! cardName c)
    cardStrengths.

(** The body of the loop over deck ids: the raw strength of one deck. *)
Definition deckStrength (pool : PlayerPool) (strengthMap : gmap string Qc) : Qc :=
  let cardStrengths := foldl (addSlotStrengths strengthMap) [] (cards pool) in
  let cardStrengths := sort_Slice less_cardStrength cardStrengths in
  let maxIndex :=
    if decide (length cardStrengths < deckStrengthCardsToConsider)%nat
    then length cardStrengths else deckStrengthCardsToConsider in
  foldl (λ acc cs, (acc + strength cs)%Qc) 0%Qc (take maxIndex cardStrengths).

(** The map [deckStrengths] after the loop over [getDecks(currentSet)]; a deck
    id that is absent from [cardStrengthByDeck] reads as the nil map. *)
Definition deckStrengths (setCode : string) (pool : PlayerPool)
    (cardStrengthByDeck : gmap string (gmap string Qc)) : gmap string Qc :=
  foldl (λ acc deckId,
           <[deckId := deckStrength pool (default ∅ (cardStrengthByDeck !! deckId))]> acc)
        ∅ (getDecks setCode).

(** The tail of [calculateStrength] in the exact reading, given the values
    of [deckStrengths] in the order in which the range loop visits them: [v]
    starts as [n] zeros, the values are appended, [v] is sorted descending
    and its first three elements are combined.  [None] is the run-time panic
    of an index out of range.  The integer that the code returns is that of
    [topThreeStrength64] below, which rounds as the code does. *)
Definition topThreeStrength (n : nat) (visited : list Qc) : option Z :=
  let v := replicate n 0%Qc ++ visited in
  let v := sort_Slice less_float v in
  v0 ← v !! 0%nat;
  v1 ← v !! 1%nat;
  v2 ← v !! 2%nat;
  let strength := ((v0 + v1 * Qc_frac 4 5 + v2 * Qc_frac 2 5) * Qc_of_Z 100)%Qc in
  Some (float_to_int strength).

Definition calculateStrengthFor (setCode : string) (pool : PlayerPool)
    (cardStrengthByDeck : gmap string (gmap string Qc)) : option Z :=
  let ds := deckStrengths setCode pool cardStrengthByDeck in
  topThreeStrength (size ds) ((map_to_list ds).*2).

Definition calculateStrength (pool : PlayerPool)
    (cardStrengthByDeck : gmap string (gmap string Qc)) : option Z :=
  calculateStrengthFor currentSet pool cardStrengthByDeck.

(** ** The strength scorer in [float64] arithmetic *)

(** IEEE 754 binary64: precision 53, exponents below 1024, every operation
    rounded to the nearest value, ties to even. *)
Definition float64 : Type := SpecFloat.spec_float.

Definition f64_add : float64 → float64 → float64 := SpecFloat.SFadd 53 1024.
Definition f64_mul : float64 → float64 → float64 := SpecFloat.SFmul 53 1024.
Definition f64_div : float64 → float64 → float64 := SpecFloat.SFdiv 53 1024.

(** [x > y] *)
Definition f64_gt (x y : float64) : bool := SpecFloat.SFltb y x.

(** [float64(z)] *)
Definition f64_of_int (z : Z) : float64 := SpecFloat.binary_normalize 53 1024 z 0 false.

(** The [float64] that a decimal numeral of value [n/d] denotes, in the
    source or in a JSON payload: the nearest one. *)
Definition f64_decimal (n d : Z) : float64 := f64_div (f64_of_int n) (f64_of_int d).

Definition f64_zero : float64 := SpecFloat.S754_zero false.

(** The constants [0.8], [0.4] and [100.0] of [calculateStrength]. *)
Definition f64_0_8 : float64 := f64_decimal 8 10.
Definition f64_0_4 : float64 := f64_decimal 4 10.
Definition f64_100 : float64 := f64_of_int 100.

(** A [float64] that is neither NaN nor negative (nor the negative zero). *)
Definition f64_nonneg (x : float64) : bool :=
  match x with
  | SpecFloat.S754_zero false | SpecFloat.S754_infinity false
  | SpecFloat.S754_finite false _ _ => true
  | _ => false
  end.

(** The result of a conversion [int(x)]: the language leaves the value to
    the implementation when [x] is not in the range of [int]. *)
Inductive IntConversion :=
  | IntValue (z : Z)
  | ImplementationDependent.

(** The integer part of the finite float with sign [s], mantissa [m] and
    exponent [e], rounding toward zero. *)
Definition f64_truncate (s : bool) (m : positive) (e : Z) : Z :=
  let n := if bool_decide (0 ≤ e) then Z.pos m * 2 ^ e else Z.pos m `div` 2 ^ (- e) in
  if s then - n else n.

(** [int(x)] *)
Definition int_of_float64 (x : float64) : IntConversion :=
  match x with
  | SpecFloat.S754_zero _ => IntValue 0
  | SpecFloat.S754_finite s m e =>
      let z := f64_truncate s m e in
      if bool_decide (int_min ≤ z ≤ int_max) then IntValue z
      else ImplementationDependent
  | _ => ImplementationDependent
  end.

(** An element of [cardStrengths]. *)
Record CardStrength64 := {
  cs64_cardName : string;
  cs64_strength : float64
}.

(** What the language leaves open in [calculateStrength]: the arrangement
    that [sort.Slice] gives to each of the two slices, and the order in which
    the range loop visits the map [deckStrengths]. *)
Record Runtime := {
  sort_Slice_cardStrengths : list CardStrength64 → list CardStrength64;
  sort_Slice_floats : list float64 → list float64;
  range_values : gmap string float64 → list float64
}.

(** [sort.Slice(s, less)] leaves [s'] in place of [s]: a rearrangement of [s]
    in which no element is [less] than one that precedes it. *)
Definition sorted_as {A} (less : A → A → bool) (s s' : list A) : Prop :=
  s' ≡ₚ s ∧ StronglySorted (λ a b, less b a = false) s'.

(** The comparison closures of [calculateStrength]. *)
Definition less_cardStrength64 (a b : CardStrength64) : bool :=
  f64_gt (cs64_strength a) (cs64_strength b).
Definition less_float64 (a b : float64) : bool := f64_gt a b.

(** The inner loop [for i := 0; i < c.amount; i++]. *)
Fixpoint appendCopies64 (iterations : nat) (name : string) (hit : option float64)
    (cardStrengths : list CardStrength64) : list CardStrength64 :=
  match iterations with
  | O => cardStrengths
  | S n =>
      let entry :=
        match hit with
        | Some s => {| cs64_cardName := name; cs64_strength := s |}
        | None => {| cs64_cardName := name; cs64_strength := f64_zero |}
        end in
      appendCopies64 n name hit (cardStrengths ++ [entry])
  end.

(** One iteration of [for _, c := range pool.cards]. *)
Definition addSlotStrengths64 (strengthMap : gmap string float64)
    (cardStrengths : list CardStrength64) (c : DeckSlot) : list CardStrength64 :=
  appendCopies64 (Z.to_nat (amount c)) (cardName c) (strengthMap !! cardName c)
    cardStrengths.

(** The body of the loop over deck ids: the raw strength of one deck, added
    up in the order of the sorted slice. *)
Definition deckStrength64 (rt : Runtime) (pool : PlayerPool)
    (strengthMap : gmap string float64) : float64 :=
  let cardStrengths := foldl (addSlotStrengths64 strengthMap) [] (cards pool) in
  let cardStrengths := sort_Slice_cardStrengths rt cardStrengths in
  let maxIndex :=
    if decide (length cardStrengths < deckStrengthCardsToConsider)%nat
    then length cardStrengths else deckStrengthCardsToConsider in
  foldl (λ acc cs, f64_add acc (cs64_strength cs)) f64_zero
        (take maxIndex cardStrengths).

(** The map [deckStrengths] after the loop over [getDecks(currentSet)]. *)
Definition deckStrengths64 (rt : Runtime) (setCode : string) (pool : PlayerPool)
    (cardStrengthByDeck : gmap string (gmap string float64)) : gmap string float64 :=
  foldl (λ acc deckId,
           <[deckId := deckStrength64 rt pool (default ∅ (cardStrengthByDeck !! deckId))]>
             acc)
        ∅ (getDecks setCode).

(** [(v0 + (v1 * 0.8) + (v2 * 0.4)) * 100.0], every operation rounded on its
    own, as the compiler for amd64 evaluates it (the language allows an
    implementation to fuse a multiplication with the addition that
    follows). *)
Definition weighted64 (v0 v1 v2 : float64) : float64 :=
  f64_mul (f64_add (f64_add v0 (f64_mul v1 f64_0_8)) (f64_mul v2 f64_0_4)) f64_100.

(** The tail of [calculateStrength], given the values of [deckStrengths] in
    the order in which the range loop visits them.  [None] is the run-time
    panic of an index out of range. *)
Definition topThreeStrength64 (rt : Runtime) (n : nat) (visited : list float64)
    : option IntConversion :=
  let v := replicate n f64_zero ++ visited in
  let v := sort_Slice_floats rt v in
  v0 ← v !! 0%nat;
  v1 ← v !! 1%nat;
  v2 ← v !! 2%nat;
  let strength := weighted64 v0 v1 v2 in
  Some (int_of_float64 strength).

Definition calculateStrength64 (rt : Runtime) (pool : PlayerPool)
    (cardStrengthByDeck : gmap string (gmap string float64)) : option IntConversion :=
  let ds := deckStrengths64 rt currentSet pool cardStrengthByDeck in
  topThreeStrength64 rt (size ds) (range_values rt ds).

(** ** The pool resolver: flattening *)

(** An element of [SealedDeck.Deck] or [SealedDeck.Sideboard]. *)
Record PoolEntry := {
  entry_Name : string;
  entry_Count : Z
}.

Record SealedDeck := {
  PoolID : string;
  Sideboard : list PoolEntry;
  Deck : list PoolEntry
}.

(** The body of the range loop of [flatten]. *)
Definition flatten_step (flattenedCards : gmap string DeckSlot) (c : PoolEntry)
    : gmap string DeckSlot :=
  match flattenedCards !! entry_Name c with
  | Some value =>
      <[entry_Name c :=
          {| amount := int_add (amount value) (entry_Count c);
             cardName := entry_Name c; card := None |}]> flattenedCards
  | None =>
      <[entry_Name c :=
          {| amount := entry_Count c; cardName := entry_Name c; card := None |}]>
        flattenedCards
  end.

Definition flatten (deck : SealedDeck) : gmap string DeckSlot :=
  let allCards := Deck deck ++ Sideboard deck in
  foldl flatten_step ∅ allCards.

(** ** The performance resolver: prevalence filter and cache key *)

(** The fields of a [CardPerformance] element that the program reads. *)
Record CardPerformanceEntry := {
  EverDrawnGameCount : Z;
  EverDrawnWinRate : Qc;
  perf_Name : string;
  perf_Rarity : string
}.

Definition getCardPrevalenceThreshold (rarity : string) : Z :=
  if decide (rarity = "uncommon"%string) then seventeenLandsDrawnThreshold `quot` 2
  else if decide (rarity = "rare"%string) then seventeenLandsDrawnThreshold `quot` 4
  else if decide (rarity = "mythic"%string) then seventeenLandsDrawnThreshold `quot` 6
  else seventeenLandsDrawnThreshold.

(** The body of the loop [for _, cardData := range cp] of
    [loadCardPerformanceData]. *)
Definition gihByCard_step (gihByCard : gmap string Qc) (cardData : CardPerformanceEntry)
    : gmap string Qc :=
  if decide (EverDrawnGameCount cardData > getCardPrevalenceThreshold (perf_Rarity cardData))
  then <[perf_Name cardData := EverDrawnWinRate cardData]> gihByCard
  else <[perf_Name cardData := 0%Qc]> gihByCard.

(** The map [gihByCard] that [loadCardPerformanceData] stores for one deck. *)
Definition gihByCard (cp : list CardPerformanceEntry) : gmap string Qc :=
  foldl gihByCard_step ∅ cp.

(** A reading of [time.Now()], as the calendar date it falls on. *)
Record Time := {
  Year : Z;
  Month : Z;
  Day : Z
}.

(** The start of [getCardPerformanceData]: the database key.  The source
    reads the clock three times, once per component of the date. *)
Definition dateKey (setCode : string) (now1 now2 now3 : Time) : string :=
  if decide (setCode = currentSet)
  then "_" +:+ pretty (Year now1) +:+ "_" +:+ pretty (Month now2)
           +:+ "_" +:+ pretty (Day now3)
  else "".

Definition dbKey (setCode deckId : string) (now1 now2 now3 : Time) : string :=
  "17lands_" +:+ setCode +:+ "_" +:+ deckId +:+ dateKey setCode now1 now2 now3.

(** ** Strings *)

Definition strings_HasPrefix (s prefix : string) : bool := String.prefix prefix s.

Definition in_cutset (c : ascii) (cutset : string) : bool :=
  bool_decide (c ∈ list_ascii_of_string cutset).

Fixpoint trimLeft (s : list ascii) (cutset : string) : list ascii :=
  match s with
  | [] => []
  | c :: s' => if in_cutset c cutset then trimLeft s' cutset else s
  end.

Definition trimRight (s : list ascii) (cutset : string) : list ascii :=
  reverse (trimLeft (reverse s) cutset).

(** [strings.Trim] for a cutset of ASCII characters: every leading and every
    trailing byte of [s] that occurs in [cutset] is removed. *)
Definition strings_Trim (s cutset : string) : string :=
  string_of_list_ascii (trimLeft (trimRight (list_ascii_of_string s) cutset) cutset).

(** ** Effects: the web, the clock pauses and the database *)

Inductive HttpReply :=
  | TransportFailure (err : string)
      (** [http.Get] returns a non-nil error *)
  | Reply (StatusCode : Z) (body : string) (readErr : option string).
      (** a response; [readErr] is the error of reading its body, if any *)

(** What the program cannot decide: how the network answers the next request
    (given the requests made so far), whether the database refuses a write,
    and the two library functions applied to card names and payloads. *)
Record Env := {
  http_Get : list string → string → HttpReply;
  txn_Set : string → string → option string;
  url_QueryEscape : string → string;
  json_Unmarshal_card : string → ScryfallCard
}.

Record World := {
  requests : list string;          (** URIs given to [http.Get], oldest first *)
  sleeps : list Z;                 (** [time.Sleep] arguments in ms, oldest first *)
  store : gmap string string;      (** contents of the badger database *)
  writes : list (string * string)  (** committed [txn.Set] calls, oldest first *)
}.

Definition requested (uri : string) (w : World) : World :=
  {| requests := requests w ++ [uri]; sleeps := sleeps w;
     store := store w; writes := writes w |}.
Definition slept (ms : Z) (w : World) : World :=
  {| requests := requests w; sleeps := sleeps w ++ [ms];
     store := store w; writes := writes w |}.
Definition stored (key value : string) (w : World) : World :=
  {| requests := requests w; sleeps := sleeps w;
     store := <[key := value]> (store w);
     writes := writes w ++ [(key, value)] |}.

(** A run either returns or panics ([checkError]). *)
Inductive Run (A : Type) :=
  | Done (a : A) (w : World)
  | Panicked (msg : string) (w : World).
Arguments Done {A} a w.
Arguments Panicked {A} msg w.

Definition M (A : Type) : Type := World → Run A.

Definition ret {A} (a : A) : M A := λ w, Done a w.
Definition bind {A B} (m : M A) (k : A → M B) : M B :=
  λ w, match m w with
       | Done a w' => k a w'
       | Panicked msg w' => Panicked msg w'
       end.
Definition panic {A} (msg : string) : M A := λ w, Panicked msg w.

Global Instance M_ret : MRet M := @ret.
Global Instance M_bind : MBind M := λ A B k m, bind m k.

(** Go's [error]: [None] is [nil], [Some msg] an error whose [Error()] is [msg]. *)
Abbreviation error := (option string).

Definition checkError (err : error) : M unit :=
  match err with
  | Some msg => panic msg
  | None => ret tt
  end.

Definition time_Sleep (ms : Z) : M unit :=
  λ w, Done tt (slept ms w).

Definition new_ScryfallCard : ScryfallCard :=
  {| Name := ""; ManaCost := ""; Cmc := 0%Qc; TypeLine := ""; ColorIdentity := [];
     Set_ := ""; Rarity := ""; PricesUsd := "" |}.

Definition scryfallCardTemplate (exact : string) : string :=
  "https://api.scryfall.com/cards/named?exact=" +:+ exact.
Definition scryfallSetClauseTemplate (set : string) : string := "&set=" +:+ set.

(** The first lines of [getCard]: the name under which the card is looked up
    and stored. *)
Definition getCard_cardName (cardName : string) : string :=
  if strings_HasPrefix cardName "A-" then strings_Trim cardName "A-" else cardName.

Section Effects.
Context (env : Env).

Definition net_http_Get (uri : string) : M HttpReply :=
  λ w, Done (http_Get env (requests w) uri) (requested uri w).

Definition dbGet (key : string) : M (string * error) :=
  λ w, match store w !! key with
       | Some val => Done (val, None) w
       | None => Done (""%string, Some "Key not found"%string) w
       end.

Definition dbSet (key value : string) : M error :=
  λ w, match txn_Set env key value with
       | Some err => Done (Some err) w
       | None => Done None (stored key value w)
       end.

Definition statusError (StatusCode : Z) (uri : string) : string :=
  "An error with code " +:+ pretty StatusCode
    +:+ " was throw trying to get a response from: " +:+ uri.

Definition innerGetWebResponseString (uri : string) : M (string * error) :=
  resp ← net_http_Get uri;
  match resp with
  | TransportFailure err => panic err
  | Reply StatusCode body readErr =>
      if decide (StatusCode ≠ 200) then
        ret (""%string, Some (statusError StatusCode uri))
      else
        checkError readErr;;
        ret (body, None)
  end.

(** The loop of [getWebResponseString] with [remaining] iterations to go;
    [err] is the named result, which keeps the error of the last attempt. *)
Fixpoint getWebResponseString_loop (remaining : nat) (uri : string) (err : error)
    : M (string * error) :=
  match remaining with
  | O => ret (""%string, err)
  | S n =>
      '(r, err) ← innerGetWebResponseString uri;
      match err with
      | None => ret (r, err)
      | Some _ =>
          time_Sleep webRetryMs;;
          getWebResponseString_loop n uri err
      end
  end.

Definition getWebResponseString (uri : string) : M (string * error) :=
  getWebResponseString_loop webRetires uri None.

Definition baseUri (cardName : string) : string :=
  scryfallCardTemplate (url_QueryEscape env cardName).
Definition setUri (cardName : string) : string :=
  baseUri cardName +:+ scryfallSetClauseTemplate (url_QueryEscape env currentSet).

Definition scryfallGet (cardName : string) : M (string * error) :=
  '(rawJson, err) ← getWebResponseString (setUri cardName);
  '(rawJson, err) ←
     match err with
     | Some _ => getWebResponseString (baseUri cardName)
     | None => ret (rawJson, err)
     end;
  time_Sleep scryfallPauseMs;;
  ret (rawJson, err).

Definition getCard (cardName : string) : M (ScryfallCard * error) :=
  let card := new_ScryfallCard in
  let cardName := getCard_cardName cardName in
  '(cardJson, err) ← dbGet cardName;
  match err with
  | Some _ =>
      '(cardJson, err) ← scryfallGet cardName;
      match err with
      | Some _ =>
          ret (card, Some ("Could not find card in db or in scryfall: " +:+ cardName))
      | None =>
          err ← dbSet cardName cardJson;
          checkError err;;
          ret (json_Unmarshal_card env cardJson, None)
      end
  | None => ret (json_Unmarshal_card env cardJson, None)
  end.
End Effects.

(** ** The specification's wording, for comparison with the code *)

(** Insertion into, and sorting of, a descending list of numbers. *)
Fixpoint insertDescending (x : Qc) (l : list Qc) : list Qc :=
  match l with
  | [] => [x]
  | y :: l' => if decide (y ≤ x)%Qc then x :: l else y :: insertDescending x l'
  end.

Definition sortDescending (l : list Qc) : list Qc := foldr insertDescending [] l.

Abbreviation descending := (StronglySorted (flip Qcle)).

Definition sumList (l : list Qc) : Qc := foldr Qcplus 0%Qc l.

(** Step 1 of the scorer: one win rate per physical copy, 0 for a name that
    the archetype's map does not have. *)
Definition unitEntries (pool : PlayerPool) (winRates : gmap string Qc) : list Qc :=
  c ← cards pool;
  replicate (Z.to_nat (amount c)) (default 0%Qc (winRates !! cardName c)).

(** Steps 2 and 3: sort descending, sum the top [min(60, total-entries)]. *)
Definition rawStrength (pool : PlayerPool) (winRates : gmap string Qc) : Qc :=
  let entries := sortDescending (unitEntries pool winRates) in
  sumList (take (60 `min` length entries)%nat entries).

(** The win-rate map that the scorer reads for a deck id. *)
Definition winRatesOf (cardStrengthByDeck : gmap string (gmap string Qc))
    (deckId : string) : gmap string Qc :=
  default ∅ (cardStrengthByDeck !! deckId).

(** The raw strengths of the archetypes of a set, in the order of [getDecks]. *)
Definition rawStrengths (setCode : string) (pool : PlayerPool)
    (cardStrengthByDeck : gmap string (gmap string Qc)) : list Qc :=
  (λ deckId, rawStrength pool (winRatesOf cardStrengthByDeck deckId))
    <$> getDecks setCode.

(** Insertion into, and sorting of, a descending list of [float64]s. *)
Fixpoint insertDescending64 (x : float64) (l : list float64) : list float64 :=
  match l with
  | [] => [x]
  | y :: l' => if f64_gt y x then y :: insertDescending64 x l' else x :: l
  end.

Definition sortDescending64 (l : list float64) : list float64 :=
  foldr insertDescending64 [] l.

Abbreviation nonnegs := (Forall (λ x, f64_nonneg x = true)).
Abbreviation descending64 := (StronglySorted (λ a b, f64_gt b a = false)).

(** The rank of a [float64] that is not negative among its like: zero, then
    the finite ones by exponent and mantissa, then infinity. *)
Definition f64_key (x : float64) : Z * Z * Z :=
  match x with
  | SpecFloat.S754_finite _ m e => (1, e, Z.pos m)
  | SpecFloat.S754_infinity _ => (2, 0, 0)
  | _ => (0, 0, 0)
  end.

Definition key_lt (a b : Z * Z * Z) : Prop :=
  a.1.1 < b.1.1 ∨ (a.1.1 = b.1.1 ∧ (a.1.2 < b.1.2 ∨ (a.1.2 = b.1.2 ∧ a.2 < b.2))).

(** The same for the elements of [cardStrengths], by strength. *)
Fixpoint insertCardStrength64 (x : CardStrength64) (l : list CardStrength64)
    : list CardStrength64 :=
  match l with
  | [] => [x]
  | y :: l' => if less_cardStrength64 y x then y :: insertCardStrength64 x l' else x :: l
  end.

Definition sortCardStrengths64 (l : list CardStrength64) : list CardStrength64 :=
  foldr insertCardStrength64 [] l.

(** The raw strengths of the archetypes of a set as the code computes them,
    in the order of [getDecks]. *)
Definition rawStrengths64 (rt : Runtime) (setCode : string) (pool : PlayerPool)
    (cardStrengthByDeck : gmap string (gmap string float64)) : list float64 :=
  (λ deckId, deckStrength64 rt pool (default ∅ (cardStrengthByDeck !! deckId)))
    <$> getDecks setCode.

(** The integer nearest to the finite float with sign [s], mantissa [m] and
    exponent [e], halves away from zero. *)
Definition f64_nearest (s : bool) (m : positive) (e : Z) : Z :=
  let n := if bool_decide (0 ≤ e) then Z.pos m * 2 ^ e
           else (2 * Z.pos m + 2 ^ (- e)) `div` (2 * 2 ^ (- e)) in
  if s then - n else n.

(** The final strength as the specification words it: the weighted sum of the
    three largest raw strengths, rounded to the nearest integer. *)
Definition strength_as_specified (raws : list float64) : option Z :=
  match sortDescending64 raws with
  | best :: second :: third :: _ =>
      match weighted64 best second third with
      | SpecFloat.S754_zero _ => Some 0
      | SpecFloat.S754_finite s m e => Some (f64_nearest s m e)
      | _ => None
      end
  | _ => None
  end.


(** The cache key as the specification words it. *)
Definition perfKey_as_specified (setCode deckId : string) (today : Time) : string :=
  "perf_" +:+ setCode +:+ "_" +:+ deckId
    +:+ (if decide (setCode = currentSet)
         then "_" +:+ pretty (Year today) +:+ "_" +:+ pretty (Month today)
                  +:+ "_" +:+ pretty (Day today)
         else "").

(** The occurrences of a name in a raw pool payload, and their total. *)
Definition countsOf (name : string) (entries : list PoolEntry) : list Z :=
  entry_Count <$> filter (λ e, entry_Name e = name) entries.

Definition sumZ (l : list Z) : Z := foldr Z.add 0 l.

(** The amount that repeated merging leaves for a name, from the counts of
    its occurrences in order: none without an occurrence, else the first
    count with the later ones added to it one by one. *)
Definition mergedAmount (counts : list Z) : option Z :=
  match counts with
  | [] => None
  | c :: cs => Some (foldl int_add c cs)
  end.

Definition slotOf (name : string) (counts : list Z) : option DeckSlot :=
  (λ a, {| amount := a; cardName := name; card := None |}) <$> mergedAmount counts.

(** A pool payload as the JSON decoder delivers it: every count is an [int]. *)
Definition wf_entries (entries : list PoolEntry) : Prop :=
  Forall (λ e, is_int (entry_Count e)) entries.

(** One more copy of the card [name] in a pool: either a slot of that name
    gains one copy, or a slot with a single copy of it is added. *)
Inductive AddsCopy (name : string) : list DeckSlot → list DeckSlot → Prop :=
  | AddsCopy_more l1 l2 c c' :
      cardName c = name → cardName c' = name → amount c' = amount c + 1 →
      AddsCopy name (l1 ++ c :: l2) (l1 ++ c' :: l2)
  | AddsCopy_new l1 l2 c :
      cardName c = name → amount c = 1 →
      AddsCopy name (l1 ++ l2) (l1 ++ c :: l2).

(** The value that the prevalence filter records for a performance record. *)
Definition filteredWinRate (cardData : CardPerformanceEntry) : Qc :=
  if decide (EverDrawnGameCount cardData > getCardPrevalenceThreshold (perf_Rarity cardData))
  then EverDrawnWinRate cardData else 0%Qc.

(** The world after [n] requests for [uri] and [s] retry pauses. *)
Definition afterAttempts (uri : string) (w : World) (n s : nat) : World :=
  {| requests := requests w ++ replicate n uri;
     sleeps := sleeps w ++ replicate s webRetryMs;
     store := store w; writes := writes w |}.

(** The reply to the [i]-th attempt of a lookup of [uri] that starts in [w]. *)
Definition attemptReply (env : Env) (uri : string) (w : World) (i : nat) : HttpReply :=
  http_Get env (requests w ++ replicate i uri) uri.

(** A reply with a status other than 200, and the error made from it. *)
Definition statusFailure (uri : string) (r : HttpReply) (err : string) : Prop :=
  ∃ code body readErr,
    r = Reply code body readErr ∧ code ≠ 200 ∧ err = statusError code uri.

(** A reply on which [innerGetWebResponseString] panics. *)
Definition fatalReply (r : HttpReply) (msg : string) : Prop :=
  r = TransportFailure msg ∨ ∃ body, r = Reply 200 body (Some msg).

(** The first [k] attempts are all answered with a status other than 200. *)
Definition statusFailures (env : Env) (uri : string) (w : World) (k : nat) : Prop :=
  ∀ i, (i < k)%nat → ∃ err, statusFailure uri (attemptReply env uri w i) err.

(** The possible results of a lookup of [uri] with at most [n] attempts that
    starts in [w] with the error variable set to [err0]. *)
Inductive LookupResult (env : Env) (uri : string) (w : World) (n : nat) (err0 : error)
    : Run (string * error) → Prop :=
  | lookup_success k body :
      (k < n)%nat → statusFailures env uri w k →
      attemptReply env uri w k = Reply 200 body None →
      LookupResult env uri w n err0 (Done (body, None) (afterAttempts uri w (S k) k))
  | lookup_exhausted err :
      statusFailures env uri w n →
      (n = 0%nat → err = err0) →
      (∀ m, n = S m → ∃ e, err = Some e ∧ statusFailure uri (attemptReply env uri w m) e) →
      LookupResult env uri w n err0 (Done (""%string, err) (afterAttempts uri w n n))
  | lookup_panic k msg :
      (k < n)%nat → statusFailures env uri w k →
      fatalReply (attemptReply env uri w k) msg →
      LookupResult env uri w n err0 (Panicked msg (afterAttempts uri w (S k) k)).

(** The end of [getCard] after a successful remote lookup that left the world
    [w]: the pause of [scryfallGet], then the write and the parse. *)
Definition afterFetch (env : Env) (key body : string) (w : World)
    : Run (ScryfallCard * error) :=
  match txn_Set env key body with
  | None => Done (json_Unmarshal_card env body, None)
                 (stored key body (slept scryfallPauseMs w))
  | Some err => Panicked err (slept scryfallPauseMs w)
  end.

(** ** Concrete inputs *)

Definition mkPool (cs : list DeckSlot) : PlayerPool :=
  {| player := ""; record := ""; uri := ""; isAlive := true; team := "";
     cards := cs; facts := ∅ |}.
Definition slot (n : Z) (name : string) : DeckSlot :=
  {| amount := n; cardName := name; card := None |}.

Definition ex_pool : PlayerPool := mkPool [slot 1 "Lightning Bolt"; slot 4 "Plains"].
Definition ex_pool_more : PlayerPool :=
  mkPool [slot 2 "Lightning Bolt"; slot 4 "Plains"].
Definition ex_winRates : gmap string Qc := {[ "Lightning Bolt"%string := Qc_frac 11 16 ]}.
Definition ex_maps : gmap string (gmap string Qc) := {[ "WR"%string := ex_winRates ]}.

(** A run-time that sorts by insertion and visits a map in the order of its
    keys. *)
Definition ex_runtime : Runtime :=
  {| sort_Slice_cardStrengths := sortCardStrengths64;
     sort_Slice_floats := sortDescending64;
     range_values := λ ds, (map_to_list ds).*2 |}.

(** Win rates of Lightning Bolt in the archetype WR: the decimal numerals
    [0.57] and [0.6875] of a payload. *)
Definition ex_maps64 (rate : float64) : gmap string (gmap string float64) :=
  {[ "WR"%string := {[ "Lightning Bolt"%string := rate ]} ]}.
Definition ex_rate_57 : float64 := f64_decimal 57 100.
Definition ex_rate_6875 : float64 := f64_decimal 6875 10000.

Definition ex_deck : SealedDeck :=
  {| PoolID := "x";
     Deck := [ {| entry_Name := "A"; entry_Count := 2 |};
               {| entry_Name := "B"; entry_Count := 1 |} ];
     Sideboard := [ {| entry_Name := "A"; entry_Count := 3 |} ] |}.
Definition ex_deck_reordered : SealedDeck :=
  {| PoolID := "x";
     Deck := [ {| entry_Name := "A"; entry_Count := 3 |} ];
     Sideboard := [ {| entry_Name := "B"; entry_Count := 1 |};
                    {| entry_Name := "A"; entry_Count := 2 |} ] |}.
Definition ex_deck_overflow : SealedDeck :=
  {| PoolID := "x";
     Deck := [ {| entry_Name := "A"; entry_Count := 9223372036854775807 |} ];
     Sideboard := [ {| entry_Name := "A"; entry_Count := 1 |} ] |}.

Definition ex_never_drawn : CardPerformanceEntry :=
  {| EverDrawnGameCount := 0; EverDrawnWinRate := 0%Qc;
     perf_Name := "Plains"; perf_Rarity := "common" |}.
Definition ex_at_threshold : CardPerformanceEntry :=
  {| EverDrawnGameCount := 50; EverDrawnWinRate := Qc_frac 3 5;
     perf_Name := "Shock"; perf_Rarity := "uncommon" |}.
Definition ex_above_threshold : CardPerformanceEntry :=
  {| EverDrawnGameCount := 51; EverDrawnWinRate := Qc_frac 3 5;
     perf_Name := "Shock"; perf_Rarity := "uncommon" |}.

Definition ex_day : Time := {| Year := 2022; Month := 7; Day := 9 |}.

Definition ex_card (payload : string) : ScryfallCard :=
  {| Name := payload; ManaCost := ""; Cmc := 0%Qc; TypeLine := ""; ColorIdentity := [];
     Set_ := ""; Rarity := ""; PricesUsd := "" |}.

(** A network that has the card only outside the current set: a request with
    a set clause is answered 404, any other request 200. *)
Definition ex_env_fallback : Env :=
  {| http_Get := λ _ uri,
       if bool_decide (uri = "https://api.scryfall.com/cards/named?exact=Shock&set=HBG"%string)
       then Reply 404 "" None else Reply 200 "{Shock}" None;
     txn_Set := λ _ _, None;
     url_QueryEscape := λ s, s;
     json_Unmarshal_card := ex_card |}.


(** A network that cannot be reached. *)
Definition ex_env_down : Env :=
  {| http_Get := λ _ _, TransportFailure "dial tcp: i/o timeout";
     txn_Set := λ _ _, None;
     url_QueryEscape := λ s, s;
     json_Unmarshal_card := ex_card |}.

Definition ex_world : World :=
  {| requests := []; sleeps := []; store := ∅; writes := [] |}.

(** The world after the first resolution of "Shock" on [ex_env_fallback]. *)
Definition ex_world_after : World :=
  {| requests := [ "https://api.scryfall.com/cards/named?exact=Shock&set=HBG";
                   "https://api.scryfall.com/cards/named?exact=Shock&set=HBG";
                   "https://api.scryfall.com/cards/named?exact=Shock&set=HBG";
                   "https://api.scryfall.com/cards/named?exact=Shock" ]%string;
     sleeps := [500; 500; 500; 75];
     store := {[ "Shock"%string := "{Shock}"%string ]};
     writes := [ ("Shock", "{Shock}") ]%string |}.

(** * Further functions of the program *)

(** ** Results of runs *)

(** The world in which a run ends, whether it returns or panics. *)
Definition worldOf {A} (r : Run A) : World :=
  match r with
  | Done _ w => w
  | Panicked _ w => w
  end.

(** A network on which no card can be found: every request is answered 404. *)
Definition ex_env_404 : Env :=
  {| http_Get := λ _ _, Reply 404 "" None;
     txn_Set := λ _ _, None;
     url_QueryEscape := λ s, s;
     json_Unmarshal_card := ex_card |}.

(** ** Strings, continued *)

(** [strings.LastIndex(s, substr)]: the index of the last instance of
    [substr] in [s], or -1; [i] is the index of the character at which the
    scan stands and [found] the last instance seen so far. *)
Fixpoint lastIndex_scan (i found : Z) (s substr : string) : Z :=
  match s with
  | EmptyString => if decide (substr = ""%string) then i else found
  | String _ s' =>
      lastIndex_scan (i + 1) (if String.prefix substr s then i else found) s' substr
  end.

Definition strings_LastIndex (s substr : string) : Z := lastIndex_scan 0 (-1) s substr.

Fixpoint string_drop (n : nat) (s : string) : string :=
  match n, s with
  | O, _ => s
  | S _, EmptyString => EmptyString
  | S n', String _ s' => string_drop n' s'
  end.

(** The slice expression [s[i:]]; [None] is the panic of an index out of
    range. *)
Definition slice_from (s : string) (i : Z) : option string :=
  if decide (0 ≤ i ≤ Z.of_nat (String.length s))
  then Some (string_drop (Z.to_nat i) s) else None.

(** [strings.Contains(s, substr)]. *)
Fixpoint strings_Contains (s substr : string) : bool :=
  String.prefix substr s
  || match s with
     | EmptyString => false
     | String _ s' => strings_Contains s' substr
     end.

(** [strings.Replace(s, old, new, -1)] for a non-empty [old]: the instances
    of [old] are replaced from left to right, without overlap; [skip] counts
    the characters of an instance that are still to be passed over. *)
Fixpoint replace_scan (skip : nat) (s old new : string) : string :=
  match s with
  | EmptyString => EmptyString
  | String c s' =>
      match skip with
      | S k => replace_scan k s' old new
      | O =>
          if String.prefix old s
          then new +:+ replace_scan (String.length old - 1) s' old new
          else String c (replace_scan 0 s' old new)
      end
  end.

Definition strings_Replace_all (s old new : string) : string := replace_scan 0 s old new.

(** ** Pools *)

Definition leagueEliminationLosses : Z := 11.
Definition sealedDeckPauseMs : Z := 100.
Definition sealedDeckApiUriTemplate (poolId : string) : string :=
  "https://sealeddeck.tech/api/pools/" +:+ poolId.

(** [makePool]; [None] is a panic of the slice expression. *)
Definition makePool (player team uri : string) (wins losses : Z) : option PlayerPool :=
  let isAlive := bool_decide (losses < leagueEliminationLosses) in
  let poolLink := uri in
  let lastSlash := strings_LastIndex poolLink "/" in
  poolId ← slice_from poolLink (lastSlash + 1);
  let poolUri := sealedDeckApiUriTemplate poolId in
  let record := pretty wins +:+ " | " +:+ pretty losses in
  Some {| player := player; team := team; uri := poolUri; isAlive := isAlive;
          record := record; cards := []; facts := ∅ |}.

(** ** Card predicates *)

(** An element of [ScryfallCard.CardFaces], of which the program reads the
    mana cost. *)
Record CardFace := {
  face_ManaCost : string
}.

(** [getManaCost] of a card whose [CardFaces] field is [CardFaces]; [None] is
    the panic of an index out of range. *)
Definition getManaCost (card : ScryfallCard) (CardFaces : list CardFace) : option string :=
  if decide (0 < String.length (ManaCost card))%nat then Some (ManaCost card)
  else if decide (0 < length CardFaces)%nat then
    face0 ← CardFaces !! 0%nat;
    if decide (0 < String.length (face_ManaCost face0))%nat
    then Some (face_ManaCost face0)
    else
      face1 ← CardFaces !! 1%nat;
      if decide (0 < String.length (face_ManaCost face1))%nat
      then Some (face_ManaCost face1)
      else Some ""%string
  else Some ""%string.

(** The bytes of the mis-encoded dash that [getTypeLineClean] looks for (the
    UTF-8 encoding of the three characters that an em dash becomes when its
    bytes are read as Windows-1252). *)
Definition funkyDash : string :=
  string_of_list_ascii (ascii_of_nat <$> [195; 162; 226; 130; 172; 226; 128; 157]%nat).

Definition getTypeLineClean (card : ScryfallCard) : string :=
  strings_Replace_all (TypeLine card) funkyDash "-".

(** The methods of [DeckSlot] read through the pointer [ds.card]; [None] is
    the panic of a nil pointer. *)
Definition isBasicLand (ds : DeckSlot) : option bool :=
  c ← card ds;
  Some (bool_decide (Name c = "Plains"%string) || bool_decide (Name c = "Island"%string)
        || bool_decide (Name c = "Swamp"%string) || bool_decide (Name c = "Mountain"%string)
        || bool_decide (Name c = "Forest"%string)
        || bool_decide (Name c = "Command Tower"%string)).

(** The loop of [isColour] over the colour identity. *)
Fixpoint rangeHasColour (identity : list string) (colour : string) : bool :=
  match identity with
  | [] => false
  | c :: rest => if decide (c = colour) then true else rangeHasColour rest colour
  end.

Definition isColour (ds : DeckSlot) (colour : string) (mono : bool) : option bool :=
  c ← card ds;
  if mono && bool_decide (1 < length (ColorIdentity c))%nat then Some false
  else Some (rangeHasColour (ColorIdentity c) colour).

Definition isCardType (ds : DeckSlot) (typePhrase : string) : option bool :=
  c ← card ds; Some (strings_Contains (getTypeLineClean c) typePhrase).

Definition isMultiColour (ds : DeckSlot) : option bool :=
  c ← card ds;
  if bool_decide (1 < length (ColorIdentity c))%nat
  then land ← isCardType ds "Land"; Some (negb land)
  else Some false.

Definition isColourless (ds : DeckSlot) : option bool :=
  c ← card ds; Some (bool_decide (length (ColorIdentity c) = 0%nat)).

Definition isInCuratedSet (cardName : string) (curatedCardNames : gmap string DeckSlot)
    : bool :=
  match curatedCardNames !! cardName with
  | Some _ => true
  | None => false
  end.

Definition ex_face (cost : string) : CardFace := {| face_ManaCost := cost |}.

Definition ex_card_typed (typeLine : string) (identity : list string) : ScryfallCard :=
  {| Name := "x"; ManaCost := ""; Cmc := 0%Qc; TypeLine := typeLine;
     ColorIdentity := identity; Set_ := "hbg"; Rarity := "common"; PricesUsd := "" |}.

Definition ex_slot_red : DeckSlot :=
  {| amount := 1; cardName := "Shock";
     card := Some (ex_card_typed "Instant" ["R"%string]) |}.

(** ** The master list of cards *)

(** The body of the range loop of [flattenDeckSlots]. *)
Definition flattenDeckSlots_step (allCards : gmap string DeckSlot) (c : DeckSlot)
    : gmap string DeckSlot :=
  match allCards !! cardName c with
  | Some value =>
      <[cardName c :=
          {| amount := int_add (amount value) (amount c);
             cardName := cardName c; card := card c |}]> allCards
  | None =>
      <[cardName c :=
          {| amount := amount c; cardName := cardName c; card := card c |}]> allCards
  end.

(** [flattenDeckSlots] updates the map it is given; the updated map is the
    result here. *)
Definition flattenDeckSlots (allCards : gmap string DeckSlot) (cards : list DeckSlot)
    : gmap string DeckSlot :=
  foldl flattenDeckSlots_step allCards cards.

(** The first loop of [processPools]: the master list of all the cards of a
    batch of pools. *)
Definition masterList (pools : list PlayerPool) : gmap string DeckSlot :=
  foldl (λ allCards pool, flattenDeckSlots allCards (cards pool)) ∅ pools.

(** The slots of a name among those of a list. *)
Definition slotsNamed (name : string) (cs : list DeckSlot) : list DeckSlot :=
  filter (λ c, cardName c = name) cs.

Definition ex_pool_bolt (n : Z) : PlayerPool := mkPool [slot n "Lightning Bolt"].

(** ** Win rates as the data model has them *)

(** Every win rate of an archetype's map lies between 0 and 1. *)
Definition unitRates (m : gmap string Qc) : Prop :=
  ∀ name x, m !! name = Some x → (0 ≤ x)%Qc ∧ (x ≤ 1)%Qc.

Definition ex_pool_reordered : PlayerPool :=
  mkPool [slot 4 "Plains"; slot 1 "Lightning Bolt"].

(** The win-rate maps of all archetypes are as the data model has them. *)
Definition unitRatesByDeck (byDeck : gmap string (gmap string Qc)) : Prop :=
  ∀ deckId m, byDeck !! deckId = Some m → unitRates m.

Definition ex_pool_with_island : PlayerPool :=
  mkPool [slot 1 "Lightning Bolt"; slot 7 "Island"; slot 4 "Plains"].

(** ** Populating pools *)

(** Library functions that the program applies to payloads and names. *)
Record Library := {
  json_Unmarshal_deck : string → SealedDeck;
  json_Unmarshal_perf : string → list CardPerformanceEntry;
  strings_ToUpper : string → string;
  strings_TrimSpace : string → string;
  strconv_ParseFloat : string → Qc
}.

Definition leagueIsMonoSet : bool := false.

(** A range loop whose body runs in [M]. *)
Fixpoint rangeM {A B} (body : A → B → M A) (a : A) (l : list B) : M A :=
  match l with
  | [] => mret a
  | x :: l' => a' ← body a x; rangeM body a' l'
  end.

Definition getCardsFromPool (env : Env) (lib : Library) (name uri : string)
    : M SealedDeck :=
  '(rawJson, err) ← getWebResponseString env uri;
  checkError err;;
  let sealedDeck := json_Unmarshal_deck lib rawJson in
  time_Sleep sealedDeckPauseMs;;
  mret sealedDeck.

(** The body of the range loop of [fetchCardData]; the state is the pool and
    the global [setsInPools]. *)
Definition fetchCardData_step (env : Env) (lib : Library)
    (st : PlayerPool * gmap string Z) (c : DeckSlot)
    : M (PlayerPool * gmap string Z) :=
  '(resultCard, err) ← getCard env (cardName c);
  checkError err;;
  let pool :=
    {| player := player st.1; record := record st.1; uri := uri st.1;
       isAlive := isAlive st.1; team := team st.1;
       cards := cards st.1
                  ++ [ {| amount := amount c; cardName := cardName c;
                          card := Some resultCard |} ];
       facts := facts st.1 |} in
  let setsInPools :=
    if leagueIsMonoSet then st.2
    else <[strings_ToUpper lib (Set_ resultCard) := 1]> st.2 in
  mret (pool, setsInPools).

(** [fetchCardData] when the range loop visits the flattened cards in the
    order [visited]. *)
Definition fetchCardData_in (env : Env) (lib : Library) (visited : list DeckSlot)
    (pool : PlayerPool) (setsInPools : gmap string Z)
    : M (PlayerPool * gmap string Z) :=
  rangeM (fetchCardData_step env lib) (pool, setsInPools) visited.

Definition fetchCardData (env : Env) (lib : Library) (pool : PlayerPool)
    (setsInPools : gmap string Z) (deck : SealedDeck)
    : M (PlayerPool * gmap string Z) :=
  let allCards := flatten deck in
  fetchCardData_in env lib ((map_to_list allCards).*2) pool setsInPools.

(** The body of the range loop of [populatePools]; the pools that have been
    populated are collected in order. *)
Definition populatePools_step (env : Env) (lib : Library)
    (st : list PlayerPool * gmap string Z) (pool : PlayerPool)
    : M (list PlayerPool * gmap string Z) :=
  deck ← getCardsFromPool env lib (player pool) (uri pool);
  '(pool', setsInPools) ← fetchCardData env lib pool st.2 deck;
  mret (st.1 ++ [pool'], setsInPools).

Definition populatePools (env : Env) (lib : Library) (pools : list PlayerPool)
    (setsInPools : gmap string Z) : M (list PlayerPool * gmap string Z) :=
  rangeM (populatePools_step env lib) ([], setsInPools) pools.

(** ** Performance data *)

Definition seventeenLandsPauseMs : Z := 1000.
Definition setPerformanceFormat : string := "PremierDraft".
Definition seventeenLandsTemplate (expansion format end_date colors : string) : string :=
  "https://www.17lands.com/card_ratings/data?expansion=" +:+ expansion
    +:+ "&format=" +:+ format +:+ "&start_date=2019-01-01&end_date=" +:+ end_date
    +:+ "&colors=" +:+ colors.


(** Three readings of the clock, for the year, the month and the day. *)
Definition Now3 : Type := Time * Time * Time.

Definition seventeenLandsUri (now : Now3) (setCode deckId : string) : string :=
  let todayString :=
    pretty (Year now.1.1) +:+ "-" +:+ pretty (Month now.1.2) +:+ "-"
      +:+ pretty (Day now.2) in
  seventeenLandsTemplate setCode setPerformanceFormat todayString deckId.

Definition seventeenLandsGet (env : Env) (now : Now3) (setCode deckId : string)
    : M (string * error) :=
  let uri := seventeenLandsUri now setCode deckId in
  '(rawJson, err) ← getWebResponseString env uri;
  time_Sleep seventeenLandsPauseMs;;
  mret (rawJson, err).

Definition perfKey (now : Now3) (setCode deckId : string) : string :=
  dbKey setCode deckId now.1.1 now.1.2 now.2.

(** [getCardPerformanceData]; [nowKey] are the clock readings made for the
    key and [nowUri] those made for the request, if there is one. *)
Definition getCardPerformanceData (env : Env) (lib : Library) (nowKey nowUri : Now3)
    (setCode deckId : string) (forceDataRefresh : bool)
    : M (list CardPerformanceEntry * error) :=
  let key := perfKey nowKey setCode deckId in
  '(rawJson, err) ← dbGet key;
  if bool_decide (err ≠ None)
     || bool_decide (strings_TrimSpace lib rawJson = ""%string)
     || forceDataRefresh
  then
    '(rawJson, err) ← seventeenLandsGet env nowUri setCode deckId;
    match err with
    | Some _ =>
        mret ([], Some ("Could not find card perf data in db or on 17lands.com: "
                          +:+ deckId))
    | None =>
        err ← dbSet env key rawJson;
        checkError err;;
        mret (json_Unmarshal_perf lib rawJson, None)
    end
  else mret (json_Unmarshal_perf lib rawJson, None).





(** What relates a flattened slot to the slot appended for it, in the world
    [w] and with the sets [sets] in which [fetchCardData] ends. *)
Definition fetchedSlot (env : Env) (lib : Library) (w : World) (sets : gmap string Z)
    (c new : DeckSlot) : Prop :=
  amount new = amount c ∧ cardName new = cardName c
  ∧ ∃ payload,
      store w !! getCard_cardName (cardName c) = Some payload
      ∧ card new = Some (json_Unmarshal_card env payload)
      ∧ sets !! strings_ToUpper lib (Set_ (json_Unmarshal_card env payload)) = Some 1.

Definition ex_lib : Library :=
  {| json_Unmarshal_deck := λ _, ex_deck;
     json_Unmarshal_perf := λ _, [ex_above_threshold];
     strings_ToUpper := λ s, s;
     strings_TrimSpace := λ s, s;
     strconv_ParseFloat := λ _, 0%Qc |}.

(** The condition under which [getCardPerformanceData] goes to the network:
    no entry under the key, a blank entry, or a forced refresh. *)
Definition needsRefresh (lib : Library) (w : World) (key : string) (force : bool) : Prop :=
  store w !! key = None
  ∨ (∃ payload, store w !! key = Some payload
                ∧ strings_TrimSpace lib payload = ""%string)
  ∨ force = true.

Definition ex_now : Now3 := (ex_day, ex_day, ex_day).
Definition ex_later : Now3 :=
  ({| Year := 2023; Month := 1; Day := 31 |}, {| Year := 2023; Month := 1; Day := 31 |},
   {| Year := 2023; Month := 1; Day := 31 |}).

(** A network that answers every request with the same performance payload. *)
Definition ex_env_perf : Env :=
  {| http_Get := λ _ _, Reply 200 "[perf]" None;
     txn_Set := λ _ _, None;
     url_QueryEscape := λ s, s;
     json_Unmarshal_card := ex_card |}.

(** A store that holds an old performance payload for DOM/WU. *)
Definition ex_world_perf : World :=
  {| requests := []; sleeps := []; store := {[ "17lands_DOM_WU"%string := "[old]"%string ]};
     writes := [] |}.












(** What the slots that [fetchCardData] appends for a deck are, whatever the
    order in which the flattened map was visited: one slot per name of the
    flattened deck, with its amount, and with the card that the store [st]
    holds under the normalized name, whose set is registered in [sets]. *)
Definition populatedFrom (env : Env) (lib : Library) (st : gmap string string)
    (sets : gmap string Z) (deck : SealedDeck) (new : list DeckSlot) : Prop :=
  NoDup (cardName <$> new)
  ∧ (∀ name, name ∈ cardName <$> new ↔ is_Some (flatten deck !! name))
  ∧ ∀ n, n ∈ new →
      amount <$> flatten deck !! cardName n = Some (amount n)
      ∧ ∃ payload,
          st !! getCard_cardName (cardName n) = Some payload
          ∧ card n = Some (json_Unmarshal_card env payload)
          ∧ sets !! strings_ToUpper lib (Set_ (json_Unmarshal_card env payload)) = Some 1.

(** The body that [getCardsFromPool] parses for [uri] when it starts in
    [w]: that of the first reply with status 200, after fewer than three
    replies with another status; [w1] is the world in which
    [getCardsFromPool] returns. *)
Definition deckFetched (env : Env) (uri : string) (w : World) (body : string)
    (w1 : World) : Prop :=
  ∃ k, (k < 3)%nat
       ∧ statusFailures env uri w k
       ∧ attemptReply env uri w k = Reply 200 body None
       ∧ w1 = slept sealedDeckPauseMs (afterAttempts uri w (S k) k).

(** The turn of one pool in the loop of [populatePools], which takes the
    world from [w] to [w2] and [setsInPools] from [sets] to [sets2]: the deck
    is fetched from the URI of the pool, and the pool gains the slots of that
    deck. *)
Definition poolTurn (env : Env) (lib : Library) (w : World) (sets : gmap string Z)
    (pool pool' : PlayerPool) (sets2 : gmap string Z) (w2 : World) : Prop :=
  ∃ body w1 new,
    deckFetched env (uri pool) w body w1
    ∧ store w1 ⊆ store w2
    ∧ cards pool' = cards pool ++ new
    ∧ populatedFrom env lib (store w2) sets2 (json_Unmarshal_deck lib body) new.

(** A run of [populatePools]: the turns of the pools, one after the other. *)
Inductive PopulateRun (env : Env) (lib : Library)
    : World → gmap string Z → list PlayerPool → list PlayerPool
      → gmap string Z → World → Prop :=
  | PopulateRun_nil w sets : PopulateRun env lib w sets [] [] sets w
  | PopulateRun_cons w sets pool pool' sets2 w2 pools pools' sets' w' :
      poolTurn env lib w sets pool pool' sets2 w2 →
      PopulateRun env lib w2 sets2 pools pools' sets' w' →
      PopulateRun env lib w sets (pool :: pools) (pool' :: pools') sets' w'.

(** A pool and what [populatePools] makes of it. *)
Definition populated (env : Env) (lib : Library) (st : gmap string string)
    (sets : gmap string Z) (pool pool' : PlayerPool) : Prop :=
  player pool' = player pool ∧ record pool' = record pool ∧ uri pool' = uri pool
  ∧ isAlive pool' = isAlive pool ∧ team pool' = team pool ∧ facts pool' = facts pool
  ∧ ∃ body new, cards pool' = cards pool ++ new
                ∧ populatedFrom env lib st sets (json_Unmarshal_deck lib body) new.

(** ** Fun facts *)

(** The curated lists [bombList], [dudList] and [topCommonList]. *)
Record FunFactLists := {
  bombList : gmap string DeckSlot;
  dudList : gmap string DeckSlot;
  topCommonList : gmap string DeckSlot
}.

Definition bombSealedDeckId : string := sealedDeckApiUriTemplate "PSYLhA4Tit".
Definition dudSealedDeckId : string := sealedDeckApiUriTemplate "Ga4qDQMx6I".
Definition topCommonDeckId : string := sealedDeckApiUriTemplate "fKAvpTdSeX".

Definition loadFunFactLists (env : Env) (lib : Library) : M FunFactLists :=
  bombs ← getCardsFromPool env lib "Bombs" bombSealedDeckId;
  duds ← getCardsFromPool env lib "Duds" dudSealedDeckId;
  topCommons ← getCardsFromPool env lib "TopCommons" topCommonDeckId;
  mret {| bombList := flatten bombs; dudList := flatten duds;
          topCommonList := flatten topCommons |}.

(** The local variables of [addFacts] that its loop updates. *)
Record Tally := {
  bombs : Z;
  duds : Z;
  topCommons : Z;
  whiteCard : Z;
  blueCard : Z;
  blackCard : Z;
  redCard : Z;
  greenCard : Z;
  goldCard : Z;
  colourless : Z;
  nonBasicLand : Z;
  playsets : Z;
  cmc : Qc;
  costUSD : Qc;
  uniqueCards : Z;
  commanders : Z
}.

Definition Tally_zero : Tally :=
  {| bombs := 0; duds := 0; topCommons := 0; whiteCard := 0; blueCard := 0;
     blackCard := 0; redCard := 0; greenCard := 0; goldCard := 0; colourless := 0;
     nonBasicLand := 0; playsets := 0; cmc := 0%Qc; costUSD := 0%Qc; uniqueCards := 0;
     commanders := 0 |}.

(** [a && b] on method calls that may panic: [b] is evaluated only when [a]
    is true. *)
Definition and_then (a b : option bool) : option bool :=
  a ≫= λ x : bool, if x then b else Some false.

(** [n += k] when [cond] holds. *)
Definition add_if (cond : bool) (n k : Z) : Z := if cond then int_add n k else n.

(** The body of the range loop of [addFacts]; [None] is the panic of a nil
    card.  [float64(card.amount)] is taken as the exact number. *)
Definition addFacts_step (lists : FunFactLists) (lib : Library) (t : Tally)
    (card_ : DeckSlot) : option Tally :=
  basic ← isBasicLand card_;
  if negb basic then
    isW ← isColour card_ "W" true;
    isU ← isColour card_ "U" true;
    isB ← isColour card_ "B" true;
    isR ← isColour card_ "R" true;
    isG ← isColour card_ "G" true;
    isGold ← isMultiColour card_;
    isColourlessSpell ← and_then (isColourless card_) (negb <$> isCardType card_ "Land");
    isNonBasicLand ← and_then (isCardType card_ "Land") (negb <$> isBasicLand card_);
    c ← card card_;
    let cardCost := strconv_ParseFloat lib (PricesUsd c) in
    isCommander ← isCardType card_ "Legendary Creature";
    Some {| uniqueCards := int_add (uniqueCards t) 1;
            bombs := add_if (isInCuratedSet (cardName card_) (bombList lists))
                       (bombs t) (amount card_);
            duds := add_if (isInCuratedSet (cardName card_) (dudList lists))
                      (duds t) (amount card_);
            topCommons := add_if (isInCuratedSet (cardName card_) (topCommonList lists))
                            (topCommons t) (amount card_);
            whiteCard := add_if isW (whiteCard t) (amount card_);
            blueCard := add_if isU (blueCard t) (amount card_);
            blackCard := add_if isB (blackCard t) (amount card_);
            redCard := add_if isR (redCard t) (amount card_);
            greenCard := add_if isG (greenCard t) (amount card_);
            goldCard := add_if isGold (goldCard t) (amount card_);
            colourless := add_if isColourlessSpell (colourless t) (amount card_);
            nonBasicLand := add_if isNonBasicLand (nonBasicLand t) (amount card_);
            playsets := add_if (bool_decide (amount card_ >= 4)) (playsets t) 1;
            costUSD := (costUSD t + Qc_of_Z (amount card_) * cardCost)%Qc;
            cmc := (cmc t + Qc_of_Z (amount card_) * Cmc c)%Qc;
            commanders := add_if isCommander (commanders t) 1 |}
  else Some t.

(** The range loop of [addFacts] over [pool.cards]. *)
Fixpoint addFacts_loop (lists : FunFactLists) (lib : Library) (t : Tally)
    (cs : list DeckSlot) : option Tally :=
  match cs with
  | [] => Some t
  | card_ :: rest => t' ← addFacts_step lists lib t card_; addFacts_loop lists lib t' rest
  end.

(** The assignments to [pool.facts] at the end of [addFacts].  The
    conversions [int(math.Round(...))] are those of a rounded value that is
    an [int]. *)
Definition setFacts (t : Tally) (strength : Z) (alive : bool) (facts : gmap string Z)
    : gmap string Z :=
  let facts := <["bombs"%string := bombs t]> facts in
  let facts := <["duds"%string := duds t]> facts in
  let facts := <["topcommons"%string := topCommons t]> facts in
  let facts := <["white"%string := whiteCard t]> facts in
  let facts := <["blue"%string := blueCard t]> facts in
  let facts := <["black"%string := blackCard t]> facts in
  let facts := <["red"%string := redCard t]> facts in
  let facts := <["green"%string := greenCard t]> facts in
  let facts := <["gold"%string := goldCard t]> facts in
  let facts := <["colourless"%string := colourless t]> facts in
  let facts := <["cmc"%string := math_Round (cmc t)]> facts in
  let facts := <["nonbasicland"%string := nonBasicLand t]> facts in
  let facts := <["commanders"%string := commanders t]> facts in
  let facts := <["playsets"%string := playsets t]> facts in
  let facts := <["uniqueCards"%string := uniqueCards t]> facts in
  let facts := <["costUSD"%string := math_Round (costUSD t)]> facts in
  let facts := <["strength"%string := 0]> facts in
  if alive then <["strength"%string := strength]> facts else facts.

(** [addFacts]: the pool with its facts set; [None] is a panic. *)
Definition addFacts (lists : FunFactLists) (lib : Library) (pool : PlayerPool)
    (cardStrengthByDeck : gmap string (gmap string Qc)) : option PlayerPool :=
  t ← addFacts_loop lists lib Tally_zero (cards pool);
  strength ← calculateStrength pool cardStrengthByDeck;
  Some {| player := player pool; record := record pool; uri := uri pool;
          isAlive := isAlive pool; team := team pool; cards := cards pool;
          facts := setFacts t strength (isAlive pool) (facts pool) |}.

(** The loop of [processFunFacts] that adds the facts to every pool. *)
Fixpoint addFacts_all (lists : FunFactLists) (lib : Library) (pools : list PlayerPool)
    (cardStrengthByDeck : gmap string (gmap string Qc)) : option (list PlayerPool) :=
  match pools with
  | [] => Some []
  | pool :: rest =>
      pool' ← addFacts lists lib pool cardStrengthByDeck;
      rest' ← addFacts_all lists lib rest cardStrengthByDeck;
      Some (pool' :: rest')
  end.

(** The slots that the loop of [addFacts] counts: those of a card that is
    not a basic land. *)
Definition counted (cs : list DeckSlot) : list DeckSlot :=
  filter (λ c, isBasicLand c = Some false) cs.

(** A pool with other cards. *)
Definition withCards (pool : PlayerPool) (cs : list DeckSlot) : PlayerPool :=
  {| player := player pool; record := record pool; uri := uri pool;
     isAlive := isAlive pool; team := team pool; cards := cs; facts := facts pool |}.

(** What the body of the loop of [addFacts] makes of the variables for a
    slot that it counts. *)
Definition stepOf (lists : FunFactLists) (lib : Library) (t : Tally) (c : DeckSlot)
    : Tally :=
  {| uniqueCards := int_add (uniqueCards t) 1;
     bombs := add_if (isInCuratedSet (cardName c) (bombList lists)) (bombs t) (amount c);
     duds := add_if (isInCuratedSet (cardName c) (dudList lists)) (duds t) (amount c);
     topCommons := add_if (isInCuratedSet (cardName c) (topCommonList lists))
                     (topCommons t) (amount c);
     whiteCard := add_if (default false (isColour c "W" true)) (whiteCard t) (amount c);
     blueCard := add_if (default false (isColour c "U" true)) (blueCard t) (amount c);
     blackCard := add_if (default false (isColour c "B" true)) (blackCard t) (amount c);
     redCard := add_if (default false (isColour c "R" true)) (redCard t) (amount c);
     greenCard := add_if (default false (isColour c "G" true)) (greenCard t) (amount c);
     goldCard := add_if (default false (isMultiColour c)) (goldCard t) (amount c);
     colourless :=
       add_if (default false (and_then (isColourless c) (negb <$> isCardType c "Land")))
              (colourless t) (amount c);
     nonBasicLand :=
       add_if (default false (and_then (isCardType c "Land") (negb <$> isBasicLand c)))
              (nonBasicLand t) (amount c);
     playsets := add_if (bool_decide (amount c >= 4)) (playsets t) 1;
     costUSD := (costUSD t + Qc_of_Z (amount c)
                             * strconv_ParseFloat lib (default ""%string (PricesUsd <$> card c)))%Qc;
     cmc := (cmc t + Qc_of_Z (amount c) * default 0%Qc (Cmc <$> card c))%Qc;
     commanders := add_if (default false (isCardType c "Legendary Creature"))
                     (commanders t) 1 |}.

(** The keys that [addFacts] sets. *)
Definition factKeys : list string :=
  ["bombs"; "duds"; "topcommons"; "white"; "blue"; "black"; "red"; "green"; "gold";
   "colourless"; "cmc"; "nonbasicland"; "commanders"; "playsets"; "uniqueCards";
   "costUSD"; "strength"]%string.

(** The total of the amounts of the slots that satisfy [cond], and the number
    of those slots. *)
Definition sumWhere (cond : DeckSlot → bool) (cs : list DeckSlot) : Z :=
  sumZ (amount <$> filter (λ c, cond c = true) cs).
Definition countWhere (cond : DeckSlot → bool) (cs : list DeckSlot) : Z :=
  Z.of_nat (length (filter (λ c, cond c = true) cs)).

(** The facts that total amounts, each with the test that a counted slot has
    to pass. *)
Definition amountFacts (lists : FunFactLists) : list (string * (DeckSlot → bool)) :=
  [ ("bombs"%string, λ c, isInCuratedSet (cardName c) (bombList lists));
    ("duds"%string, λ c, isInCuratedSet (cardName c) (dudList lists));
    ("topcommons"%string, λ c, isInCuratedSet (cardName c) (topCommonList lists));
    ("white"%string, λ c, default false (isColour c "W" true));
    ("blue"%string, λ c, default false (isColour c "U" true));
    ("black"%string, λ c, default false (isColour c "B" true));
    ("red"%string, λ c, default false (isColour c "R" true));
    ("green"%string, λ c, default false (isColour c "G" true));
    ("gold"%string, λ c, default false (isMultiColour c));
    ("colourless"%string,
     λ c, default false (isColourless c) && negb (default false (isCardType c "Land")));
    ("nonbasicland"%string, λ c, default false (isCardType c "Land")) ].

(** The facts about colour. *)
Definition colourFacts : list string :=
  ["white"; "blue"; "black"; "red"; "green"; "gold"; "colourless"]%string.

(** A slot of a card with a type line, a colour identity and a name. *)
Definition ex_slot (n : Z) (name typeLine : string) (identity : list string) : DeckSlot :=
  {| amount := n; cardName := name;
     card := Some {| Name := name; ManaCost := ""; Cmc := 0%Qc; TypeLine := typeLine;
                     ColorIdentity := identity; Set_ := "DOM"; Rarity := "common";
                     PricesUsd := "" |} |}.

Definition ex_lists : FunFactLists :=
  {| bombList := {[ "Shock"%string := slot 1 "Shock" ]}; dudList := ∅;
     topCommonList := ∅ |}.

Definition ex_pool_facts : PlayerPool :=
  mkPool [ex_slot 4 "Shock" "Instant" ["R"%string];
          ex_slot 7 "Plains" "Basic Land - Plains" ["W"%string];
          ex_slot 1 "Izzet Guildgate" "Land - Gate" ["U"; "R"]%string;
          ex_slot 2 "Niv-Mizzet" "Legendary Creature - Dragon" ["U"; "R"]%string].

(** * Proofs *)

(** ** Sorting in descending order *)

Global Instance flip_Qcle_antisymm : AntiSymm (=) (flip Qcle).
Proof. intros x y Hxy Hyx. by apply Qcle_antisym. Qed.

Lemma descending_unique (l1 l2 : list Qc) :
  descending l1 → descending l2 → l1 ≡ₚ l2 → l1 = l2.
Proof. apply StronglySorted_unique, _. Qed.

Lemma not_less_float (a b : Qc) : ¬ less_float b a ↔ (b ≤ a)%Qc.
Proof. unfold less_float. by rewrite Qcle_ngt. Qed.

Lemma not_less_cardStrength (a b : CardStrength) :
  ¬ less_cardStrength b a ↔ (strength b ≤ strength a)%Qc.
Proof. unfold less_cardStrength. by rewrite Qcle_ngt. Qed.

Global Instance not_less_float_total : Total (λ a b, ¬ less_float b a).
Proof.
  intros a b. rewrite !not_less_float. destruct (total Qcle a b); auto.
Qed.
Global Instance not_less_float_trans : Transitive (λ a b, ¬ less_float b a).
Proof.
  intros a b c. rewrite !not_less_float. intros ??. by trans b.
Qed.
Global Instance not_less_cardStrength_total : Total (λ a b, ¬ less_cardStrength b a).
Proof.
  intros a b. rewrite !not_less_cardStrength.
  destruct (total Qcle (strength a) (strength b)); auto.
Qed.
Global Instance not_less_cardStrength_trans :
  Transitive (λ a b, ¬ less_cardStrength b a).
Proof.
  intros a b c. rewrite !not_less_cardStrength. intros ??. by trans (strength b).
Qed.

Lemma StronglySorted_mono {A} (R1 R2 : relation A) (l : list A) :
  (∀ x y, R1 x y → R2 x y) → StronglySorted R1 l → StronglySorted R2 l.
Proof. induction 2; constructor; eauto using Forall_impl. Qed.

Lemma sort_Slice_Permutation {A} (less : A → A → Prop) `{!RelDecision less} s :
  sort_Slice less s ≡ₚ s.
Proof. apply merge_sort_Permutation. Qed.

Lemma sort_Slice_float_descending (s : list Qc) :
  descending (sort_Slice less_float s).
Proof.
  unfold sort_Slice.
  eapply StronglySorted_mono; [|apply StronglySorted_merge_sort; apply _].
  intros a b. by rewrite not_less_float.
Qed.

Lemma sort_Slice_cardStrength_descending (s : list CardStrength) :
  descending (strength <$> sort_Slice less_cardStrength s).
Proof.
  unfold sort_Slice.
  eapply StronglySorted_fmap; [|apply StronglySorted_merge_sort; apply _].
  intros a b. by rewrite not_less_cardStrength.
Qed.

Lemma insertDescending_Permutation x l : insertDescending x l ≡ₚ x :: l.
Proof.
  induction l as [|y l IH]; simpl; [done|].
  case_decide; [done|]. rewrite IH. apply Permutation_swap.
Qed.

Lemma insertDescending_descending x l :
  descending l → descending (insertDescending x l).
Proof.
  induction 1 as [|y l Hl IH Hy]; simpl.
  { repeat constructor. }
  case_decide as Hyx.
  - constructor; [by constructor|].
    constructor; [done|].
    eapply Forall_impl; [exact Hy|]. intros z Hz. unfold flip in *. by trans y.
  - constructor; [done|].
    rewrite insertDescending_Permutation. constructor; [|done].
    unfold flip. apply Qclt_le_weak. by apply Qclt_nge.
Qed.

Lemma sortDescending_Permutation l : sortDescending l ≡ₚ l.
Proof.
  induction l as [|x l IH]; simpl; [done|].
  by rewrite insertDescending_Permutation, IH.
Qed.

Lemma sortDescending_descending l : descending (sortDescending l).
Proof.
  induction l; simpl; [constructor|]. by apply insertDescending_descending.
Qed.

Lemma sortDescending_unique (l sorted : list Qc) :
  descending sorted → sorted ≡ₚ l → sorted = sortDescending l.
Proof.
  intros Hs Hp. apply descending_unique; [done|apply sortDescending_descending|].
  by rewrite sortDescending_Permutation.
Qed.

(** Whatever algorithm [sort.Slice] runs, the sort keys of its result are the
    descending arrangement of the keys of its argument. *)
Lemma sort_Slice_strengths_unique (s sorted : list CardStrength) :
  sorted ≡ₚ s → descending (strength <$> sorted) →
  strength <$> sorted = strength <$> sort_Slice less_cardStrength s.
Proof.
  intros Hp Hs. apply descending_unique;
    [done|apply sort_Slice_cardStrength_descending|].
  by rewrite Hp, sort_Slice_Permutation.
Qed.

Lemma sort_Slice_cardStrength_sortDescending (s : list CardStrength) :
  strength <$> sort_Slice less_cardStrength s = sortDescending (strength <$> s).
Proof.
  apply sortDescending_unique; [apply sort_Slice_cardStrength_descending|].
  by rewrite sort_Slice_Permutation.
Qed.

Lemma sort_Slice_float_sortDescending (s : list Qc) :
  sort_Slice less_float s = sortDescending s.
Proof.
  apply sortDescending_unique;
    [apply sort_Slice_float_descending|apply sort_Slice_Permutation].
Qed.

Lemma sortDescending_perm (l1 l2 : list Qc) :
  l1 ≡ₚ l2 → sortDescending l1 = sortDescending l2.
Proof.
  intros Hp. apply sortDescending_unique; [apply sortDescending_descending|].
  by rewrite sortDescending_Permutation.
Qed.

(** ** The raw strength of one deck *)

Lemma appendCopies_strengths n name hit acc :
  strength <$> appendCopies n name hit acc
  = (strength <$> acc) ++ replicate n (default 0%Qc hit).
Proof.
  revert acc. induction n as [|n IH]; intros acc; simpl.
  { by rewrite app_nil_r. }
  rewrite IH, fmap_app, <-app_assoc. by destruct hit.
Qed.

Lemma foldl_addSlotStrengths m cs acc :
  strength <$> foldl (addSlotStrengths m) acc cs
  = (strength <$> acc) ++ unitEntries (mkPool cs) m.
Proof.
  unfold unitEntries. simpl. revert acc.
  induction cs as [|c cs IH]; intros acc; simpl.
  { by rewrite app_nil_r. }
  rewrite IH. unfold addSlotStrengths.
  by rewrite appendCopies_strengths, <-app_assoc.
Qed.

Lemma cardStrengths_unitEntries pool m :
  strength <$> foldl (addSlotStrengths m) [] (cards pool) = unitEntries pool m.
Proof. by rewrite foldl_addSlotStrengths. Qed.

Lemma foldl_sum_strengths (l : list CardStrength) (a : Qc) :
  foldl (λ acc cs, (acc + strength cs)%Qc) a l = (a + sumList (strength <$> l))%Qc.
Proof.
  revert a. induction l as [|x l IH]; intros a; simpl.
  { by rewrite Qcplus_0_r. }
  rewrite IH. unfold sumList. simpl. by rewrite Qcplus_assoc.
Qed.

Lemma maxIndex_min (n : nat) :
  (if decide (n < deckStrengthCardsToConsider)%nat then n
   else deckStrengthCardsToConsider) = (60 `min` n)%nat.
Proof. unfold deckStrengthCardsToConsider. case_decide; lia. Qed.

(** The loop body of [calculateStrength] computes what steps 1 to 3 of the
    specification describe. *)
Lemma deckStrength_rawStrength pool m : deckStrength pool m = rawStrength pool m.
Proof.
  unfold deckStrength, rawStrength.
  rewrite foldl_sum_strengths, Qcplus_0_l, fmap_take, maxIndex_min.
  rewrite <-(length_fmap strength), sort_Slice_cardStrength_sortDescending.
  by rewrite cardStrengths_unitEntries.
Qed.

(** ** The map of deck strengths *)

Lemma foldl_insert_lookup {V} (f : string → V) (l : list string)
    (m : gmap string V) (k : string) :
  foldl (λ acc d, <[d := f d]> acc) m l !! k
  = if decide (k ∈ l) then Some (f k) else m !! k.
Proof.
  revert m. induction l as [|d l IH]; intros m.
  { simpl. destruct (decide (k ∈ [])) as [Hk|Hk]; [|done]. by apply elem_of_nil in Hk. }
  cbn [foldl]. rewrite IH.
  destruct (decide (k ∈ l)) as [Hk|Hk].
  { by rewrite decide_True by set_solver. }
  destruct (decide (k = d)) as [->|Hne].
  - rewrite lookup_insert_eq. by rewrite decide_True by set_solver.
  - rewrite lookup_insert_ne by done.
    destruct (decide (k ∈ d :: l)) as [Hin|Hin]; [|done].
    apply elem_of_cons in Hin as [?|?]; done.
Qed.

Lemma deckStrengths_lookup setCode pool byDeck deckId :
  deckStrengths setCode pool byDeck !! deckId
  = if decide (deckId ∈ getDecks setCode)
    then Some (deckStrength pool (winRatesOf byDeck deckId)) else None.
Proof.
  unfold deckStrengths.
  rewrite (foldl_insert_lookup (λ d, deckStrength pool (winRatesOf byDeck d))).
  by rewrite lookup_empty.
Qed.



(** ** Monotonicity of the raw strength *)

Lemma take_min_length {A} (n : nat) (l : list A) :
  take (n `min` length l) l = take n l.
Proof.
  destruct (decide (n ≤ length l)%nat).
  - by rewrite Nat.min_l by lia.
  - rewrite Nat.min_r by lia. by rewrite !take_ge by lia.
Qed.

Lemma rawStrength_take pool m :
  rawStrength pool m = sumList (take 60 (sortDescending (unitEntries pool m))).
Proof. unfold rawStrength. by rewrite take_min_length. Qed.

Lemma sumList_cons x l : sumList (x :: l) = (x + sumList l)%Qc.
Proof. done. Qed.

(** Prefix sums grow by at most [x] per element when nothing exceeds [x]. *)
Lemma sumList_take_S_bound (x : Qc) (l : list Qc) (k : nat) :
  (0 ≤ x)%Qc → Forall (λ z, (z ≤ x)%Qc) l →
  (sumList (take (S k) l) ≤ x + sumList (take k l))%Qc.
Proof.
  intros Hx Hl. revert k. induction Hl as [|z l Hz Hl IH]; intros k.
  { rewrite !take_nil. change (sumList []) with 0%Qc. by rewrite Qcplus_0_r. }
  destruct k as [|k].
  - rewrite take_0. change (take 1 (z :: l)) with (z :: take 0 l).
    rewrite take_0, sumList_cons. change (sumList []) with 0%Qc.
    by rewrite !Qcplus_0_r.
  - change (take (S (S k)) (z :: l)) with (z :: take (S k) l).
    change (take (S k) (z :: l)) with (z :: take k l).
    rewrite !sumList_cons.
    replace (x + (z + sumList (take k l)))%Qc
      with (z + (x + sumList (take k l)))%Qc by ring.
    apply Qcplus_le_mono_l, IH.
Qed.

Lemma sumList_take_insert (x : Qc) (s : list Qc) (k : nat) :
  (0 ≤ x)%Qc → descending s →
  (sumList (take k s) ≤ sumList (take k (insertDescending x s)))%Qc.
Proof.
  intros Hx Hs. revert k. induction Hs as [|y s Hs IH Hy]; intros k.
  { rewrite take_nil. change (sumList []) with 0%Qc.
    destruct k as [|k]; [done|].
    change (take (S k) (insertDescending x [])) with (x :: take k []).
    rewrite take_nil, sumList_cons. change (sumList []) with 0%Qc.
    by rewrite Qcplus_0_r. }
  destruct k as [|k]; [by rewrite !take_0|].
  cbn [insertDescending]. destruct (decide (y ≤ x)%Qc) as [Hyx|Hyx].
  - change (take (S k) (x :: y :: s)) with (x :: take k (y :: s)).
    rewrite sumList_cons. apply sumList_take_S_bound; [done|].
    constructor; [done|].
    eapply Forall_impl; [exact Hy|]. intros z Hz. unfold flip in Hz. by trans y.
  - change (take (S k) (y :: s)) with (y :: take k s).
    change (take (S k) (y :: insertDescending x s))
      with (y :: take k (insertDescending x s)).
    rewrite !sumList_cons. apply Qcplus_le_mono_l, IH.
Qed.

Lemma unitEntries_app l1 l2 m :
  unitEntries (mkPool (l1 ++ l2)) m
  = unitEntries (mkPool l1) m ++ unitEntries (mkPool l2) m.
Proof. unfold unitEntries. cbn [cards mkPool]. by rewrite bind_app. Qed.

Lemma unitEntries_cons c l m :
  unitEntries (mkPool (c :: l)) m
  = replicate (Z.to_nat (amount c)) (default 0%Qc (m !! cardName c))
    ++ unitEntries (mkPool l) m.
Proof. unfold unitEntries. cbn [cards mkPool]. by rewrite bind_cons. Qed.

Lemma unitEntries_cards pool m : unitEntries pool m = unitEntries (mkPool (cards pool)) m.
Proof. done. Qed.

(** A further copy adds one entry with the card's win rate, or none at all
    when the slot that gains it had a negative amount. *)
Lemma AddsCopy_unitEntries name x m cs cs' :
  m !! name = Some x → AddsCopy name cs cs' →
  unitEntries (mkPool cs') m ≡ₚ x :: unitEntries (mkPool cs) m
  ∨ unitEntries (mkPool cs') m = unitEntries (mkPool cs) m.
Proof.
  intros Hx [l1 l2 c c' Hc Hc' Ham|l1 l2 c Hc Ham].
  - rewrite !unitEntries_app, !unitEntries_cons, Hc, Hc', Hx, Ham. simpl.
    destruct (decide (0 ≤ amount c)) as [Hpos|Hneg].
    + left. rewrite Z2Nat.inj_add by lia.
      replace (Z.to_nat (amount c) + Z.to_nat 1)%nat with (S (Z.to_nat (amount c)))
        by lia.
      simpl. by rewrite <-Permutation_middle.
    + right. by rewrite !Z2Nat.nonpos by lia.
  - left. rewrite !unitEntries_app, !unitEntries_cons, Hc, Hx, Ham. simpl.
    by rewrite <-Permutation_middle.
Qed.

(** C9. Adding one more copy of a card whose win rate in an archetype's map
    is strictly positive never decreases that archetype's raw strength. *)
Theorem deckStrength_monotone (pool pool' : PlayerPool) (winRates : gmap string Qc)
    (name : string) (x : Qc) :
  winRates !! name = Some x → (0 < x)%Qc →
  AddsCopy name (cards pool) (cards pool') →
  (deckStrength pool winRates ≤ deckStrength pool' winRates)%Qc.
Proof.
  intros Hx Hpos Hadd.
  rewrite !deckStrength_rawStrength, !rawStrength_take.
  rewrite (unitEntries_cards pool), (unitEntries_cards pool').
  destruct (AddsCopy_unitEntries name x winRates _ _ Hx Hadd) as [Hp| ->]; [|done].
  rewrite (sortDescending_perm _ _ Hp). simpl sortDescending.
  apply sumList_take_insert; [by apply Qclt_le_weak|apply sortDescending_descending].
Qed.

Lemma deckStrength_monotone_witness :
  ex_winRates !! "Lightning Bolt"%string = Some (Qc_frac 11 16) ∧
  (0 < Qc_frac 11 16)%Qc ∧
  AddsCopy "Lightning Bolt" (cards ex_pool) (cards ex_pool_more) ∧
  (deckStrength ex_pool ex_winRates ≤ deckStrength ex_pool_more ex_winRates)%Qc.
Proof.
  assert (ex_winRates !! "Lightning Bolt"%string = Some (Qc_frac 11 16)) as H1
    by reflexivity.
  assert (0 < Qc_frac 11 16)%Qc as H2 by reflexivity.
  assert (AddsCopy "Lightning Bolt" (cards ex_pool) (cards ex_pool_more)) as H3
    by (apply (AddsCopy_more "Lightning Bolt" [] [slot 4 "Plains"]
                 (slot 1 "Lightning Bolt") (slot 2 "Lightning Bolt")); reflexivity).
  split; [exact H1|]. split; [exact H2|]. split; [exact H3|].
  exact (deckStrength_monotone ex_pool ex_pool_more ex_winRates _ _ H1 H2 H3).
Defined.

(** ** The archetypes and the values of [deckStrengths] *)

Lemma getDecks_NoDup setCode : NoDup (getDecks setCode).
Proof. unfold getDecks. case_decide; compute_done. Qed.

Lemma getDecks_length setCode : (10 ≤ length (getDecks setCode))%nat.
Proof. unfold getDecks. case_decide; simpl; lia. Qed.

Lemma getDecks_2C setCode d : d ∈ mtg2CDecks → d ∈ getDecks setCode.
Proof.
  intros Hd. unfold getDecks. case_decide; [|done].
  apply elem_of_app. by left.
Qed.

Lemma fmap_graph_fst {V} (g : string → V) (l : list string) :
  ((λ d, (d, g d)) <$> l).*1 = l.
Proof. induction l as [|d l IH]; [done|]. csimpl. by rewrite IH. Qed.

Lemma fmap_graph_snd {V} (g : string → V) (l : list string) :
  ((λ d, (d, g d)) <$> l).*2 = g <$> l.
Proof. induction l as [|d l IH]; [done|]. csimpl. by rewrite IH. Qed.

Lemma deckStrengths_list_to_map setCode pool byDeck :
  deckStrengths setCode pool byDeck
  = list_to_map ((λ d, (d, rawStrength pool (winRatesOf byDeck d))) <$> getDecks setCode).
Proof.
  apply map_eq. intros k. rewrite deckStrengths_lookup. symmetry.
  destruct (decide (k ∈ getDecks setCode)) as [Hk|Hk].
  - apply elem_of_list_to_map_1.
    + rewrite fmap_graph_fst. apply getDecks_NoDup.
    + rewrite deckStrength_rawStrength. apply list_elem_of_fmap. eauto.
  - apply not_elem_of_list_to_map_1. by rewrite fmap_graph_fst.
Qed.

(** The values that the range loop over [deckStrengths] visits are, in some
    order, the raw strengths of the archetypes. *)
Lemma deckStrengths_values setCode pool byDeck :
  (map_to_list (deckStrengths setCode pool byDeck)).*2
  ≡ₚ rawStrengths setCode pool byDeck.
Proof.
  rewrite deckStrengths_list_to_map, map_to_list_to_map.
  - rewrite fmap_graph_snd. by unfold rawStrengths.
  - rewrite fmap_graph_fst. apply getDecks_NoDup.
Qed.

Lemma rawStrengths_length setCode pool byDeck :
  length (rawStrengths setCode pool byDeck) = length (getDecks setCode).
Proof. unfold rawStrengths. by rewrite length_fmap. Qed.

Lemma deckStrengths_size setCode pool byDeck :
  size (deckStrengths setCode pool byDeck) = length (getDecks setCode).
Proof.
  rewrite <-length_map_to_list, <-(length_fmap snd), deckStrengths_values.
  apply rawStrengths_length.
Qed.

(** ** Zero padding and the top three *)

Lemma descending_lookup_le (s : list Qc) (j i : nat) (a b : Qc) :
  descending s → s !! j = Some a → s !! i = Some b → (j ≤ i)%nat → (b ≤ a)%Qc.
Proof.
  intros Hs. revert j i. induction Hs as [|y s Hs IH Hy]; intros j i Hj Hi Hle.
  { done. }
  destruct j as [|j], i as [|i]; simplify_eq/=; try lia.
  - apply Qcle_refl.
  - rewrite Forall_forall in Hy. apply (Hy b). by eapply list_elem_of_lookup_2.
  - eapply IH; eauto with lia.
Qed.

Lemma insertDescending_keeps (z : Qc) (s : list Qc) (i : nat) (x : Qc) :
  descending s → s !! i = Some x → (z ≤ x)%Qc →
  insertDescending z s !! i = Some x.
Proof.
  intros Hs. revert i. induction Hs as [|y s Hs IH Hy]; intros i Hi Hz; [done|].
  cbn [insertDescending]. destruct (decide (y ≤ z)%Qc) as [Hyz|Hyz].
  - assert (descending (y :: s)) as Hys by by constructor.
    assert (x ≤ y)%Qc as Hxy.
    { eapply (descending_lookup_le (y :: s) 0 i); eauto with lia. }
    assert (x = z) as -> by (apply Qcle_antisym; [by trans y|done]).
    assert (y = z) as -> by by apply Qcle_antisym.
    destruct i as [|i]; [done|]. simpl in Hi. simpl.
    destruct ((z :: s) !! i) as [e|] eqn:He.
    + f_equal. apply Qcle_antisym.
      * eapply (descending_lookup_le (z :: s) 0 i); eauto with lia.
      * eapply (descending_lookup_le (z :: s) i (S i)); eauto with lia.
    + apply lookup_ge_None in He. apply lookup_lt_Some in Hi. simpl in He. lia.
  - destruct i as [|i]; [done|]. simpl in *. by apply IH.
Qed.

(** The zeros with which [v] starts cannot displace a non-negative strength:
    what is [i]-th largest among the strengths is [i]-th largest in [v]. *)
Lemma zero_padding_keeps (n : nat) (l : list Qc) (i : nat) (x : Qc) :
  sortDescending l !! i = Some x → (0 ≤ x)%Qc →
  sortDescending (replicate n 0%Qc ++ l) !! i = Some x.
Proof.
  intros Hi Hx. induction n as [|n IH]; [done|].
  cbn [replicate app sortDescending foldr]. fold (sortDescending (replicate n 0%Qc ++ l)).
  apply insertDescending_keeps; [apply sortDescending_descending|done..].
Qed.

Lemma sortDescending_length l : length (sortDescending l) = length l.
Proof. apply Permutation_length, sortDescending_Permutation. Qed.

Lemma topThreeStrength_sorted (n : nat) (visited : list Qc) :
  topThreeStrength n visited
  = let v := sortDescending (replicate n 0%Qc ++ visited) in
    v0 ← v !! 0%nat; v1 ← v !! 1%nat; v2 ← v !! 2%nat;
    Some (float_to_int ((v0 + v1 * Qc_frac 4 5 + v2 * Qc_frac 2 5) * Qc_of_Z 100)%Qc).
Proof. unfold topThreeStrength. by rewrite sort_Slice_float_sortDescending. Qed.

(** The order in which the range loop visits the map does not matter. *)
Lemma topThreeStrength_perm (n : nat) (visited visited' : list Qc) :
  visited ≡ₚ visited' → topThreeStrength n visited = topThreeStrength n visited'.
Proof.
  intros Hp. rewrite !topThreeStrength_sorted.
  by rewrite (sortDescending_perm (replicate n 0%Qc ++ visited)
                (replicate n 0%Qc ++ visited')) by by rewrite Hp.
Qed.

Lemma sumList_nonneg (l : list Qc) :
  Forall (λ x, (0 ≤ x)%Qc) l → (0 ≤ sumList l)%Qc.
Proof.
  induction 1 as [|x l Hx Hl IH]; [done|].
  rewrite sumList_cons. by apply Qcplus_nonneg_nonneg.
Qed.

Lemma unitEntries_nonneg pool (m : gmap string Qc) :
  (∀ name x, m !! name = Some x → (0 ≤ x)%Qc) →
  Forall (λ x, (0 ≤ x)%Qc) (unitEntries pool m).
Proof.
  intros Hm. rewrite unitEntries_cards.
  induction (cards pool) as [|c cs IH]; [constructor|].
  rewrite unitEntries_cons. apply Forall_app. split; [|done].
  apply Forall_replicate. destruct (m !! cardName c) as [x|] eqn:Hx; simpl; eauto.
Qed.

(** Win rates that are not negative give raw strengths that are not. *)
Lemma rawStrength_nonneg pool (m : gmap string Qc) :
  (∀ name x, m !! name = Some x → (0 ≤ x)%Qc) → (0 ≤ rawStrength pool m)%Qc.
Proof.
  intros Hm. rewrite rawStrength_take. apply sumList_nonneg, Forall_take.
  rewrite sortDescending_Permutation. by apply unitEntries_nonneg.
Qed.

Lemma rawStrengths_nonneg setCode pool (byDeck : gmap string (gmap string Qc)) :
  (∀ deckId m name x,
     byDeck !! deckId = Some m → m !! name = Some x → (0 ≤ x)%Qc) →
  ∀ x, x ∈ rawStrengths setCode pool byDeck → (0 ≤ x)%Qc.
Proof.
  intros Hpos x (d & -> & _)%list_elem_of_fmap. apply rawStrength_nonneg.
  intros name y. unfold winRatesOf.
  destruct (byDeck !! d) as [m|] eqn:Hd; simpl; [by eapply Hpos|done].
Qed.

Lemma ex_maps_nonneg deckId (m : gmap string Qc) name x :
  ex_maps !! deckId = Some m → m !! name = Some x → (0 ≤ x)%Qc.
Proof.
  unfold ex_maps, ex_winRates.
  intros [_ <-]%lookup_singleton_Some [_ <-]%lookup_singleton_Some. done.
Qed.

(** ** The final strength in [float64] arithmetic *)

(** Among the [float64]s that are not negative, [>] is a strict total
    order. *)
Lemma f64_gt_key (x y : float64) :
  f64_nonneg x = true → f64_nonneg y = true →
  f64_gt x y = true ↔ key_lt (f64_key y) (f64_key x).
Proof.
  unfold f64_gt, SpecFloat.SFltb, key_lt.
  destruct x as [[|]|[|]| |[|] m1 e1], y as [[|]|[|]| |[|] m2 e2]; try done; simpl;
    intros _ _; try (split; [done|lia]); try (split; [lia|done]); try (split; [intros _; lia|done]).
  destruct (Z.compare_spec e2 e1) as [->|?|?].
  - change (Pos.compare_cont Eq m2 m1) with (Pos.compare m2 m1).
    destruct (Pos.compare_spec m2 m1) as [->|?|?]; split; try done; try lia.
  - split; [lia|done].
  - split; [done|lia].
Qed.

Lemma f64_key_inj (x y : float64) :
  f64_nonneg x = true → f64_nonneg y = true → f64_key x = f64_key y → x = y.
Proof.
  destruct x as [[|]|[|]| |[|] m1 e1], y as [[|]|[|]| |[|] m2 e2]; try done; simpl.
  intros _ _ [= -> ->]. done.
Qed.

Lemma f64_gt_irrefl x : f64_nonneg x = true → f64_gt x x = false.
Proof.
  intros Hx. destruct (f64_gt x x) eqn:H; [|done].
  apply f64_gt_key in H; [|done..]. unfold key_lt in H. lia.
Qed.

Lemma f64_gt_trans x y z :
  f64_nonneg x = true → f64_nonneg y = true → f64_nonneg z = true →
  f64_gt x y = true → f64_gt y z = true → f64_gt x z = true.
Proof.
  intros Hx Hy Hz. rewrite !f64_gt_key by done. unfold key_lt. lia.
Qed.

Lemma f64_trichotomy x y :
  f64_nonneg x = true → f64_nonneg y = true →
  x = y ∨ f64_gt x y = true ∨ f64_gt y x = true.
Proof.
  intros Hx Hy. rewrite !f64_gt_key by done.
  destruct (decide (f64_key x = f64_key y)) as [Heq|Hne].
  - left. by apply f64_key_inj.
  - right. unfold key_lt.
    destruct (f64_key x) as [[a1 b1] c1], (f64_key y) as [[a2 b2] c2]. simpl.
    assert (a1 ≠ a2 ∨ b1 ≠ b2 ∨ c1 ≠ c2) by
      (destruct (decide (a1 = a2)), (decide (b1 = b2)), (decide (c1 = c2)); try tauto;
       subst; done).
    lia.
Qed.

Lemma f64_zero_least x : f64_nonneg x = true → f64_gt f64_zero x = false.
Proof.
  intros Hx. destruct (f64_gt f64_zero x) eqn:H; [|done].
  apply f64_gt_key in H; [|done..]. unfold key_lt in H.
  destruct x as [[|]|[|]| |[|] m1 e1]; simpl in *; try done; lia.
Qed.

Lemma insertDescending64_Permutation x l : insertDescending64 x l ≡ₚ x :: l.
Proof.
  induction l as [|y l IH]; simpl; [done|].
  destruct (f64_gt y x); [|done]. by rewrite IH, Permutation_swap.
Qed.

Lemma sortDescending64_Permutation l : sortDescending64 l ≡ₚ l.
Proof.
  induction l as [|x l IH]; simpl; [done|].
  by rewrite insertDescending64_Permutation, IH.
Qed.

(** Among floats that are not negative, what is not greater than a float
    that is not greater than [x] is not greater than [x]. *)
Lemma f64_not_gt_trans x y z :
  f64_nonneg x = true → f64_nonneg y = true → f64_nonneg z = true →
  f64_gt y x = false → f64_gt z y = false → f64_gt z x = false.
Proof.
  intros Hx Hy Hz Hyx Hzy. destruct (f64_gt z x) eqn:Hzx; [|done].
  destruct (f64_trichotomy x y Hx Hy) as [->|[Hxy|Hyx']]; [congruence| |congruence].
  by rewrite (f64_gt_trans z x y) in Hzy.
Qed.

Lemma insertDescending64_descending x l :
  f64_nonneg x = true → nonnegs l → descending64 l →
  descending64 (insertDescending64 x l).
Proof.
  intros Hx Hl Hs. induction Hs as [|y l Hs IH Hy]; simpl.
  { repeat constructor. }
  apply Forall_cons in Hl as [Hy0 Hl].
  destruct (f64_gt y x) eqn:Hyx.
  - constructor; [by apply IH|].
    rewrite insertDescending64_Permutation. constructor; [|done].
    destruct (f64_gt x y) eqn:Hxy; [|done].
    pose proof (f64_gt_trans x y x Hx Hy0 Hx Hxy Hyx) as Hxx.
    by rewrite f64_gt_irrefl in Hxx.
  - constructor; [by constructor|]. constructor; [done|].
    rewrite Forall_forall in Hy, Hl. apply Forall_forall. intros z Hz.
    apply (f64_not_gt_trans x y z); auto.
Qed.

Lemma sortDescending64_nonnegs l : nonnegs l → nonnegs (sortDescending64 l).
Proof. intros Hl. by rewrite sortDescending64_Permutation. Qed.

Lemma sortDescending64_descending l : nonnegs l → descending64 (sortDescending64 l).
Proof.
  induction 1 as [|x l Hx Hl IH]; simpl; [constructor|].
  apply insertDescending64_descending; [done|by apply sortDescending64_nonnegs|done].
Qed.

Lemma sortDescending64_sorted l : nonnegs l → sorted_as f64_gt l (sortDescending64 l).
Proof.
  intros Hl. split; [apply sortDescending64_Permutation|by apply sortDescending64_descending].
Qed.

(** A list of floats that are not negative has one descending arrangement. *)
Lemma descending64_unique l1 l2 :
  nonnegs l1 → descending64 l1 → descending64 l2 → l1 ≡ₚ l2 → l1 = l2.
Proof.
  intros Hn H1. revert l2. induction H1 as [|x l1 H1 IH Hx]; intros l2 H2 Hp.
  { by apply Permutation_nil_l in Hp. }
  destruct H2 as [|y l2 H2 Hy].
  { by apply Permutation_nil_r in Hp. }
  apply Forall_cons in Hn as [Hx0 Hn].
  assert (nonnegs (y :: l2)) as Hn2 by (rewrite <-Hp; by constructor).
  apply Forall_cons in Hn2 as [Hy0 Hn2].
  assert (x = y) as ->.
  { destruct (f64_trichotomy x y Hx0 Hy0) as [?|[Hxy|Hyx]]; [done|..].
    - assert (x ∈ y :: l2) as [->|Hin]%elem_of_cons by (rewrite <-Hp; left); [done|].
      rewrite Forall_forall in Hy. by rewrite (Hy x Hin) in Hxy.
    - assert (y ∈ x :: l1) as [->|Hin]%elem_of_cons by (rewrite Hp; left); [done|].
      rewrite Forall_forall in Hx. by rewrite (Hx y Hin) in Hyx. }
  f_equal. apply IH; [done..|]. by apply Permutation_cons_inv in Hp.
Qed.

Lemma sorted_as_unique l s1 s2 :
  nonnegs l → sorted_as f64_gt l s1 → sorted_as f64_gt l s2 → s1 = s2.
Proof.
  intros Hl [Hp1 Hs1] [Hp2 Hs2].
  apply descending64_unique; [by rewrite Hp1|done..|by rewrite Hp1, Hp2].
Qed.

(** The zeros that [v] starts with end up behind the strengths. *)
Lemma sorted_with_zeros (n : nat) (visited raws s : list float64) :
  nonnegs raws → visited ≡ₚ raws →
  sorted_as f64_gt (replicate n f64_zero ++ visited) s →
  s = sortDescending64 raws ++ replicate n f64_zero.
Proof.
  intros Hraws Hv Hs.
  assert (nonnegs (replicate n f64_zero ++ visited)) as Hall.
  { apply Forall_app. split; [by apply Forall_replicate|by rewrite Hv]. }
  apply (sorted_as_unique _ _ _ Hall Hs). split.
  { by rewrite sortDescending64_Permutation, Hv, Permutation_app_comm. }
  apply StronglySorted_app_2; [|by apply sortDescending64_descending|].
  - intros x y Hx ->%elem_of_replicate_inv. apply f64_zero_least.
    rewrite sortDescending64_Permutation in Hx. rewrite Forall_forall in Hraws. auto.
  - clear. induction n as [|n IH]; cbn [replicate]; [constructor|].
    constructor; [exact IH|]. by apply Forall_replicate.
Qed.

Lemma sortDescending64_length l : length (sortDescending64 l) = length l.
Proof. apply Permutation_length, sortDescending64_Permutation. Qed.

Lemma deckStrengths64_lookup rt setCode pool byDeck deckId :
  deckStrengths64 rt setCode pool byDeck !! deckId
  = if decide (deckId ∈ getDecks setCode)
    then Some (deckStrength64 rt pool (default ∅ (byDeck !! deckId))) else None.
Proof.
  unfold deckStrengths64.
  rewrite (foldl_insert_lookup (λ d, deckStrength64 rt pool (default ∅ (byDeck !! d)))).
  by rewrite lookup_empty.
Qed.

(** The values of the map [deckStrengths] are, in some order, the raw
    strengths of the archetypes. *)
Lemma deckStrengths64_values rt setCode pool byDeck :
  (map_to_list (deckStrengths64 rt setCode pool byDeck)).*2
  ≡ₚ rawStrengths64 rt setCode pool byDeck.
Proof.
  assert (deckStrengths64 rt setCode pool byDeck
          = list_to_map ((λ d, (d, deckStrength64 rt pool (default ∅ (byDeck !! d))))
                           <$> getDecks setCode)) as ->.
  { apply map_eq. intros k. rewrite deckStrengths64_lookup. symmetry.
    destruct (decide (k ∈ getDecks setCode)) as [Hk|Hk].
    - apply elem_of_list_to_map_1.
      + rewrite fmap_graph_fst. apply getDecks_NoDup.
      + apply list_elem_of_fmap. eauto.
    - apply not_elem_of_list_to_map_1. by rewrite fmap_graph_fst. }
  rewrite map_to_list_to_map.
  - rewrite fmap_graph_snd. by unfold rawStrengths64.
  - rewrite fmap_graph_fst. apply getDecks_NoDup.
Qed.

Lemma deckStrengths64_size rt setCode pool byDeck :
  size (deckStrengths64 rt setCode pool byDeck) = length (getDecks setCode).
Proof.
  rewrite <-length_map_to_list, <-(length_fmap snd), deckStrengths64_values.
  unfold rawStrengths64. by rewrite length_fmap.
Qed.

(** What [calculateStrength] returns, from the raw strengths. *)
Lemma calculateStrength64_top_three rt pool byDeck :
  let ds := deckStrengths64 rt currentSet pool byDeck in
  let raws := rawStrengths64 rt currentSet pool byDeck in
  let v := replicate (size ds) f64_zero ++ range_values rt ds in
  nonnegs raws →
  range_values rt ds ≡ₚ (map_to_list ds).*2 →
  sorted_as less_float64 v (sort_Slice_floats rt v) →
  ∃ best second third rest,
    sortDescending64 raws = best :: second :: third :: rest
    ∧ calculateStrength64 rt pool byDeck
      = Some (int_of_float64 (weighted64 best second third)).
Proof.
  intros ds raws v Hraws Hvisit Hsort.
  assert (range_values rt ds ≡ₚ raws) as Hperm.
  { rewrite Hvisit. apply deckStrengths64_values. }
  pose proof (sorted_with_zeros _ _ _ _ Hraws Hperm Hsort) as Hv.
  assert (3 ≤ length (sortDescending64 raws))%nat as Hlen.
  { rewrite sortDescending64_length. unfold raws, rawStrengths64.
    rewrite length_fmap. pose proof (getDecks_length currentSet). lia. }
  destruct (sortDescending64 raws) as [|best [|second [|third rest]]] eqn:Hsorted;
    simpl in Hlen; try lia.
  exists best, second, third, rest. split; [done|].
  unfold calculateStrength64, topThreeStrength64. fold ds. fold v. by rewrite Hv.
Qed.

(** C1 (as amended). For every pool whose raw archetype strengths are
    [float64]s that are neither NaN nor negative, whatever arrangement
    [sort.Slice] makes among equal elements and in whatever order the map of
    strengths is visited, the final strength is [int(s)], where
    [s = (best + second * 0.8 + third * 0.4) * 100.0] is computed in
    [float64] arithmetic, every operation rounded on its own, from the three
    largest raw strengths in descending order.  [int] truncates toward zero
    what the arithmetic has rounded: the score is not the weighted sum
    rounded to the nearest integer, and it is left to the implementation
    when [s] is outside the range of [int]. *)
Theorem calculateStrength_weighted_top_three (rt : Runtime) (pool : PlayerPool)
    (byDeck : gmap string (gmap string float64)) :
  let ds := deckStrengths64 rt currentSet pool byDeck in
  let raws := rawStrengths64 rt currentSet pool byDeck in
  let v := replicate (size ds) f64_zero ++ range_values rt ds in
  nonnegs raws →
  range_values rt ds ≡ₚ (map_to_list ds).*2 →
  sorted_as less_float64 v (sort_Slice_floats rt v) →
  ∃ best second third rest,
    sortDescending64 raws = best :: second :: third :: rest
    ∧ sorted_as less_float64 raws (sortDescending64 raws)
    ∧ calculateStrength64 rt pool byDeck
      = Some (int_of_float64
                (f64_mul (f64_add (f64_add best (f64_mul second f64_0_8))
                                  (f64_mul third f64_0_4))
                         f64_100))
    ∧ (∀ s m e, weighted64 best second third = SpecFloat.S754_finite s m e →
         int_min ≤ f64_truncate s m e ≤ int_max →
         calculateStrength64 rt pool byDeck = Some (IntValue (f64_truncate s m e))).
Proof.
  intros ds raws v Hraws Hvisit Hsort.
  destruct (calculateStrength64_top_three rt pool byDeck Hraws Hvisit Hsort)
    as (best & second & third & rest & Hsorted & Hrun).
  exists best, second, third, rest. split; [done|].
  split; [by apply sortDescending64_sorted|]. split; [done|].
  intros s m e Hs Hint. rewrite Hrun, Hs. simpl. by rewrite bool_decide_eq_true_2.
Qed.

(** The example run-time keeps to the contract of [sort.Slice]. *)
Lemma ex_runtime_sorted (v : list float64) :
  nonnegs v → sorted_as less_float64 v (sort_Slice_floats ex_runtime v).
Proof. apply sortDescending64_sorted. Qed.

(** The constants and the example rates, bit for bit. *)
Lemma f64_constants :
  f64_0_8 = SpecFloat.S754_finite false 0x1999999999999a (-53)
  ∧ f64_0_4 = SpecFloat.S754_finite false 0x1999999999999a (-54)
  ∧ f64_100 = SpecFloat.S754_finite false 0x19000000000000 (-46)
  ∧ ex_rate_57 = SpecFloat.S754_finite false 0x123d70a3d70a3d (-53)
  ∧ ex_rate_6875 = SpecFloat.S754_finite false 0x16000000000000 (-53).
Proof. repeat split; by vm_compute. Qed.

Lemma calculateStrength_weighted_top_three_witness :
  calculateStrength64 ex_runtime ex_pool (ex_maps64 ex_rate_57) = Some (IntValue 56).
Proof.
  destruct (calculateStrength_weighted_top_three ex_runtime ex_pool (ex_maps64 ex_rate_57))
    as (best & second & third & rest & Hsorted & _ & Hrun & _).
  - vm_compute. repeat constructor.
  - reflexivity.
  - apply ex_runtime_sorted. vm_compute. repeat constructor.
  - rewrite Hrun. vm_compute in Hsorted. injection Hsorted as <- <- <- _.
    by vm_compute.
Defined.

(** C1 (as stated) fails.  With a single card of win rate 0.6875 in one
    archetype the weighted sum is 68.75: the code returns 68, the nearest
    integer is 69.  With the win rate 0.57 the [float64] product is
    56.99999999999999: the code returns 56, the nearest integer is 57. *)
Lemma calculateStrength_not_rounded :
  calculateStrength64 ex_runtime ex_pool (ex_maps64 ex_rate_6875) = Some (IntValue 68)
  ∧ strength_as_specified
      (rawStrengths64 ex_runtime currentSet ex_pool (ex_maps64 ex_rate_6875)) = Some 69
  ∧ calculateStrength64 ex_runtime ex_pool (ex_maps64 ex_rate_57) = Some (IntValue 56)
  ∧ strength_as_specified
      (rawStrengths64 ex_runtime currentSet ex_pool (ex_maps64 ex_rate_57)) = Some 57.
Proof. repeat split; by vm_compute. Qed.

(** C10. For every set code, pool and map of card strengths, the accesses
    [v[0]], [v[1]], [v[2]] are in bounds: [getDecks] contains the ten
    2-colour archetypes, [deckStrengths] has at least ten entries, the
    sorted vector [v] has at least twenty elements in whatever order the
    map is visited, so [calculateStrength] returns a value; and a
    non-negative strength keeps its rank in [v] in spite of the zeros that
    [v] starts with. *)
Theorem calculateStrength_in_bounds setCode pool byDeck :
  let ds := deckStrengths setCode pool byDeck in
  (∀ d, d ∈ mtg2CDecks → d ∈ getDecks setCode)
  ∧ (10 ≤ size ds)%nat
  ∧ (∀ visited, visited ≡ₚ (map_to_list ds).*2 →
       (20 ≤ length (sort_Slice less_float (replicate (size ds) 0%Qc ++ visited)))%nat
       ∧ is_Some (topThreeStrength (size ds) visited))
  ∧ is_Some (calculateStrengthFor setCode pool byDeck)
  ∧ is_Some (calculateStrength pool byDeck)
  ∧ (∀ visited i x, visited ≡ₚ (map_to_list ds).*2 →
       sortDescending ((map_to_list ds).*2) !! i = Some x → (0 ≤ x)%Qc →
       sort_Slice less_float (replicate (size ds) 0%Qc ++ visited) !! i = Some x).
Proof.
  intros ds.
  assert (∀ sc, 10 ≤ size (deckStrengths sc pool byDeck))%nat as Hsize.
  { intros sc. rewrite deckStrengths_size. apply getDecks_length. }
  assert (∀ sc visited,
            visited ≡ₚ (map_to_list (deckStrengths sc pool byDeck)).*2 →
            (20 ≤ length (sort_Slice less_float
                           (replicate (size (deckStrengths sc pool byDeck)) 0%Qc
                              ++ visited)))%nat
            ∧ is_Some (topThreeStrength (size (deckStrengths sc pool byDeck)) visited))
    as Hv.
  { intros sc visited Hp. specialize (Hsize sc).
    assert (length visited = size (deckStrengths sc pool byDeck)) as Hlen.
    { by rewrite Hp, length_fmap, length_map_to_list. }
    assert (20 ≤ length (sort_Slice less_float
                           (replicate (size (deckStrengths sc pool byDeck)) 0%Qc
                              ++ visited)))%nat as H20.
    { rewrite sort_Slice_Permutation, length_app, length_replicate. lia. }
    split; [done|]. unfold topThreeStrength. cbn zeta.
    destruct (sort_Slice less_float _) as [|v0 [|v1 [|v2 rest]]];
      simpl in H20; try lia.
    by eexists. }
  split; [apply getDecks_2C|]. split; [apply Hsize|]. split; [apply Hv|].
  split; [by apply Hv|]. split; [by apply Hv|].
  intros visited i x Hp Hi Hx. rewrite sort_Slice_float_sortDescending.
  rewrite (sortDescending_perm _ (replicate (size ds) 0%Qc ++ (map_to_list ds).*2))
    by by rewrite Hp.
  by apply zero_padding_keeps.
Qed.

Lemma calculateStrength_in_bounds_witness :
  is_Some (calculateStrength (mkPool []) ∅)
  ∧ sort_Slice less_float
      (replicate (size (deckStrengths currentSet ex_pool ex_maps)) 0%Qc
         ++ (map_to_list (deckStrengths currentSet ex_pool ex_maps)).*2) !! 0%nat
    = Some (Qc_frac 11 16).
Proof.
  split.
  - exact (proj1 (proj2 (proj2 (proj2 (proj2
             (calculateStrength_in_bounds currentSet (mkPool []) ∅)))))).
  - apply (proj2 (proj2 (proj2 (proj2 (proj2
             (calculateStrength_in_bounds currentSet ex_pool ex_maps)))))).
    + reflexivity.
    + by vm_compute.
    + by vm_compute.
Defined.

(** ** Flattening *)

Lemma wrap_int_id z : is_int z → wrap_int z = z.
Proof.
  unfold is_int, int_min, int_max, wrap_int. intros Hz.
  rewrite Z.mod_small by lia. lia.
Qed.

Lemma int_add_wrap a b : int_add (wrap_int a) b = wrap_int (a + b).
Proof.
  unfold int_add, wrap_int.
  replace ((a + 2 ^ 63) `mod` 2 ^ 64 - 2 ^ 63 + b + 2 ^ 63)
    with ((a + 2 ^ 63) `mod` 2 ^ 64 + b) by lia.
  rewrite Zplus_mod_idemp_l. do 2 f_equal. lia.
Qed.

Lemma sumZ_app l1 l2 : sumZ (l1 ++ l2) = sumZ l1 + sumZ l2.
Proof. induction l1 as [|x l1 IH]; simpl; [done|]. rewrite IH. lia. Qed.

Lemma sumZ_perm l1 l2 : l1 ≡ₚ l2 → sumZ l1 = sumZ l2.
Proof. induction 1; simpl; lia. Qed.

Lemma mergedAmount_snoc cs c :
  mergedAmount (cs ++ [c])
  = Some (match mergedAmount cs with Some a => int_add a c | None => c end).
Proof. destruct cs as [|c0 cs]; simpl; [done|]. by rewrite foldl_snoc. Qed.

Lemma mergedAmount_wrap cs :
  Forall is_int cs → cs ≠ [] → mergedAmount cs = Some (wrap_int (sumZ cs)).
Proof.
  induction cs as [|c cs IH] using rev_ind; intros Hwf Hne; [done|].
  apply Forall_app in Hwf as [Hcs Hc]. rewrite Forall_singleton in Hc.
  rewrite mergedAmount_snoc, sumZ_app. simpl. rewrite Z.add_0_r.
  destruct (decide (cs = [])) as [->|Hcs'].
  - simpl. by rewrite Z.add_0_l, wrap_int_id.
  - rewrite (IH Hcs Hcs'). by rewrite int_add_wrap.
Qed.

Lemma countsOf_snoc name entries e :
  countsOf name (entries ++ [e])
  = countsOf name entries ++ (if decide (entry_Name e = name) then [entry_Count e] else []).
Proof.
  unfold countsOf. rewrite filter_app, fmap_app. f_equal.
  rewrite filter_cons, filter_nil. by case_decide.
Qed.

Lemma countsOf_perm name l1 l2 : l1 ≡ₚ l2 → countsOf name l1 ≡ₚ countsOf name l2.
Proof. intros Hp. unfold countsOf. by rewrite Hp. Qed.

Lemma countsOf_is_int name entries :
  wf_entries entries → Forall is_int (countsOf name entries).
Proof.
  unfold wf_entries, countsOf. intros Hwf. apply Forall_fmap, Forall_forall.
  intros e [_ He]%list_elem_of_filter. rewrite Forall_forall in Hwf. by apply Hwf.
Qed.

Lemma flatten_step_lookup m e name :
  flatten_step m e !! name
  = if decide (entry_Name e = name)
    then Some {| amount := match m !! name with
                           | Some value => int_add (amount value) (entry_Count e)
                           | None => entry_Count e
                           end;
                 cardName := name; card := None |}
    else m !! name.
Proof.
  unfold flatten_step. destruct (decide (entry_Name e = name)) as [<-|Hne].
  - destruct (m !! entry_Name e); by rewrite lookup_insert_eq.
  - destruct (m !! entry_Name e); by rewrite lookup_insert_ne.
Qed.

(** What the fold of [flatten] holds for a name after a run of entries. *)
Lemma flatten_fold_lookup entries name :
  foldl flatten_step ∅ entries !! name = slotOf name (countsOf name entries).
Proof.
  induction entries as [|e entries IH] using rev_ind; [done|].
  rewrite foldl_snoc, countsOf_snoc, flatten_step_lookup, IH.
  destruct (decide (entry_Name e = name)) as [Heq|Hne].
  - unfold slotOf. rewrite mergedAmount_snoc.
    by destruct (mergedAmount (countsOf name entries)).
  - by rewrite app_nil_r.
Qed.

Lemma flatten_lookup deck name :
  flatten deck !! name = slotOf name (countsOf name (Deck deck ++ Sideboard deck)).
Proof. apply flatten_fold_lookup. Qed.

(** C8 (as amended). For every deck payload whose counts are [int]s,
    [flatten] has an entry for exactly the names that occur, one per name;
    its amount is the sum of the counts of all occurrences of the name in
    deck and sideboard, reduced to a 64-bit two's-complement [int], hence the
    exact sum whenever that sum is an [int]; and the resulting map does not
    change under any reordering of the entries. *)
Theorem flatten_sums_by_name (deck : SealedDeck) :
  let entries := Deck deck ++ Sideboard deck in
  wf_entries entries →
  (∀ name,
     flatten deck !! name
     = if decide (countsOf name entries = []) then None
       else Some {| amount := wrap_int (sumZ (countsOf name entries));
                    cardName := name; card := None |})
  ∧ (∀ name, countsOf name entries ≠ [] → is_int (sumZ (countsOf name entries)) →
       amount <$> flatten deck !! name = Some (sumZ (countsOf name entries)))
  ∧ (∀ deck', Deck deck' ++ Sideboard deck' ≡ₚ entries → flatten deck' = flatten deck).
Proof.
  intros entries Hwf.
  assert (∀ name,
     flatten deck !! name
     = if decide (countsOf name entries = []) then None
       else Some {| amount := wrap_int (sumZ (countsOf name entries));
                    cardName := name; card := None |}) as Hlookup.
  { intros name. rewrite flatten_lookup. fold entries. unfold slotOf.
    destruct (decide (countsOf name entries = [])) as [->|Hne]; [done|].
    rewrite mergedAmount_wrap; [done| |done]. by apply countsOf_is_int. }
  split; [exact Hlookup|]. split.
  - intros name Hne Hint. rewrite Hlookup, decide_False by done. simpl.
    by rewrite wrap_int_id.
  - intros deck' Hp. apply map_eq. intros name.
    rewrite Hlookup, flatten_lookup. unfold slotOf.
    pose proof (countsOf_perm name _ _ Hp) as Hc.
    destruct (decide (countsOf name entries = [])) as [Hnil|Hne].
    + rewrite Hnil in Hc. apply Permutation_nil_r in Hc. by rewrite Hc.
    + rewrite mergedAmount_wrap.
      * simpl. by rewrite (sumZ_perm _ _ Hc).
      * rewrite Hc. by apply countsOf_is_int.
      * intros Hnil. rewrite Hnil in Hc. by apply Permutation_nil in Hc.
Qed.

Lemma ex_deck_wf : wf_entries (Deck ex_deck ++ Sideboard ex_deck).
Proof. repeat constructor; by vm_compute. Qed.

(** Flattening [{A,2},{B,1},{A,3}] yields exactly [{A:5, B:1}], in whatever
    order the entries come. *)
Lemma flatten_sums_by_name_witness :
  wf_entries (Deck ex_deck ++ Sideboard ex_deck)
  ∧ amount <$> flatten ex_deck = {[ "A"%string := 5; "B"%string := 1 ]}
  ∧ flatten ex_deck_reordered = flatten ex_deck.
Proof.
  split; [exact ex_deck_wf|]. split; [by vm_compute|].
  apply (proj2 (proj2 (flatten_sums_by_name ex_deck ex_deck_wf))).
  simpl. etrans; [apply Permutation_swap|].
  etrans; [apply perm_skip, Permutation_swap|]. apply Permutation_swap.
Defined.

(** C8 (as stated) fails when the counts of a name add up past the range of
    [int]: the amount wraps around. *)
Lemma flatten_amount_overflows :
  amount <$> flatten ex_deck_overflow !! "A"%string = Some (-9223372036854775808)
  ∧ sumZ (countsOf "A" (Deck ex_deck_overflow ++ Sideboard ex_deck_overflow))
    = 9223372036854775808
  ∧ amount <$> flatten ex_deck_overflow !! "A"%string
    ≠ Some (sumZ (countsOf "A" (Deck ex_deck_overflow ++ Sideboard ex_deck_overflow))).
Proof. split; [|split]; by vm_compute. Qed.

(** ** The prevalence filter *)

Lemma gihByCard_step_lookup m cardData :
  gihByCard_step m cardData !! perf_Name cardData = Some (filteredWinRate cardData).
Proof.
  unfold gihByCard_step, filteredWinRate. case_decide; by rewrite lookup_insert_eq.
Qed.

Lemma gihByCard_step_lookup_ne m cardData name :
  perf_Name cardData ≠ name → gihByCard_step m cardData !! name = m !! name.
Proof.
  intros Hne. unfold gihByCard_step. case_decide; by rewrite lookup_insert_ne.
Qed.

Lemma gihByCard_snoc cp cardData :
  gihByCard (cp ++ [cardData]) = gihByCard_step (gihByCard cp) cardData.
Proof. unfold gihByCard. by rewrite foldl_snoc. Qed.

(** With one record per card name, the map holds the filtered rate of each. *)
Lemma gihByCard_lookup cp cardData :
  NoDup (perf_Name <$> cp) → cardData ∈ cp →
  gihByCard cp !! perf_Name cardData = Some (filteredWinRate cardData).
Proof.
  induction cp as [|c cp IH] using rev_ind; intros Hnd Hin.
  { by apply elem_of_nil in Hin. }
  rewrite gihByCard_snoc. rewrite fmap_app in Hnd.
  apply NoDup_app in Hnd as (Hnd & Hfresh & _).
  apply elem_of_app in Hin as [Hin|Hin].
  - rewrite gihByCard_step_lookup_ne; [by apply IH|].
    intros Heq. apply (Hfresh (perf_Name cardData)).
    + apply list_elem_of_fmap. eauto.
    + rewrite <-Heq. simpl. apply list_elem_of_singleton. done.
  - apply list_elem_of_singleton in Hin as ->. apply gihByCard_step_lookup.
Qed.

(** C7 (as amended). For every performance record the recorded win rate is
    the observed ever-drawn win rate when the ever-drawn game count is
    strictly greater than the rarity threshold and 0 otherwise, so that for
    an observed rate other than 0 it equals the observed rate if and only if
    the count is strictly greater; the thresholds against the base count [B]
    are common = [B], uncommon = [B/2], rare = [B/4], mythic = [B/6] with
    integer division; a count exactly equal to the threshold records 0. *)
Theorem prevalence_filter (m : gmap string Qc) (cardData : CardPerformanceEntry) :
  let B := seventeenLandsDrawnThreshold in
  let threshold := getCardPrevalenceThreshold (perf_Rarity cardData) in
  let recorded := gihByCard_step m cardData !! perf_Name cardData in
  (getCardPrevalenceThreshold "common" = B
   ∧ getCardPrevalenceThreshold "uncommon" = B `quot` 2
   ∧ getCardPrevalenceThreshold "rare" = B `quot` 4
   ∧ getCardPrevalenceThreshold "mythic" = B `quot` 6)
  ∧ (EverDrawnGameCount cardData > threshold →
       recorded = Some (EverDrawnWinRate cardData))
  ∧ (EverDrawnGameCount cardData ≤ threshold → recorded = Some 0%Qc)
  ∧ (EverDrawnGameCount cardData = threshold → recorded = Some 0%Qc)
  ∧ (EverDrawnWinRate cardData ≠ 0%Qc →
       recorded = Some (EverDrawnWinRate cardData)
       ↔ EverDrawnGameCount cardData > threshold).
Proof.
  intros B threshold recorded. subst recorded.
  rewrite gihByCard_step_lookup. unfold filteredWinRate. fold threshold.
  split; [done|].
  destruct (decide (EverDrawnGameCount cardData > threshold)) as [Hgt|Hle].
  - repeat split; intros; (done || lia).
  - repeat split; intros; try (done || lia). congruence.
Qed.

Lemma prevalence_filter_witness :
  EverDrawnGameCount ex_at_threshold
  = getCardPrevalenceThreshold (perf_Rarity ex_at_threshold)
  ∧ gihByCard_step ∅ ex_at_threshold !! perf_Name ex_at_threshold = Some 0%Qc
  ∧ EverDrawnGameCount ex_above_threshold
    > getCardPrevalenceThreshold (perf_Rarity ex_above_threshold)
  ∧ gihByCard_step ∅ ex_above_threshold !! perf_Name ex_above_threshold
    = Some (EverDrawnWinRate ex_above_threshold).
Proof.
  assert (EverDrawnGameCount ex_at_threshold
          = getCardPrevalenceThreshold (perf_Rarity ex_at_threshold)) as H1
    by reflexivity.
  assert (EverDrawnGameCount ex_above_threshold
          > getCardPrevalenceThreshold (perf_Rarity ex_above_threshold)) as H2
    by reflexivity.
  split; [exact H1|]. split.
  { exact (proj1 (proj2 (proj2 (proj2 (prevalence_filter ∅ ex_at_threshold)))) H1). }
  split; [exact H2|].
  exact (proj1 (proj2 (prevalence_filter ∅ ex_above_threshold)) H2).
Defined.

(** C7 (as stated) fails for a card that was never drawn: its observed rate
    is 0, the recorded rate is 0 as well, yet its count is not above the
    threshold. *)
Lemma prevalence_filter_not_iff :
  gihByCard_step ∅ ex_never_drawn !! perf_Name ex_never_drawn
  = Some (EverDrawnWinRate ex_never_drawn)
  ∧ ¬ (EverDrawnGameCount ex_never_drawn
       > getCardPrevalenceThreshold (perf_Rarity ex_never_drawn))
  ∧ ¬ (gihByCard_step ∅ ex_never_drawn !! perf_Name ex_never_drawn
       = Some (EverDrawnWinRate ex_never_drawn)
       ↔ EverDrawnGameCount ex_never_drawn
         > getCardPrevalenceThreshold (perf_Rarity ex_never_drawn)).
Proof.
  assert (gihByCard_step ∅ ex_never_drawn !! perf_Name ex_never_drawn
          = Some (EverDrawnWinRate ex_never_drawn)) as H1 by by vm_compute.
  assert (¬ (EverDrawnGameCount ex_never_drawn
             > getCardPrevalenceThreshold (perf_Rarity ex_never_drawn))) as H2
    by by vm_compute.
  split; [exact H1|]. split; [exact H2|]. intros [Hiff _]. exact (H2 (Hiff H1)).
Qed.

(** ** The cache key of the performance resolver *)

Lemma string_app_nil_r (s : string) : s +:+ "" = s.
Proof.
  induction s as [|c s IH]; [done|].
  change (String c s +:+ "") with (String c (s +:+ "")). by rewrite IH.
Qed.

Lemma string_app_assoc (s1 s2 s3 : string) : (s1 +:+ s2) +:+ s3 = s1 +:+ s2 +:+ s3.
Proof.
  induction s1 as [|c s1 IH]; [done|].
  change ((String c s1 +:+ s2) +:+ s3) with (String c ((s1 +:+ s2) +:+ s3)).
  by rewrite IH.
Qed.

Lemma dbKey_base setCode deckId now1 now2 now3 :
  dbKey setCode deckId now1 now2 now3 = "17lands_" +:+ setCode +:+ "_" +:+ deckId
  ↔ dateKey setCode now1 now2 now3 = "".
Proof.
  unfold dbKey. split.
  - intros H.
    assert ("17lands_" +:+ setCode +:+ "_" +:+ deckId
            = "17lands_" +:+ setCode +:+ "_" +:+ deckId +:+ "") as E
      by by rewrite string_app_nil_r.
    rewrite E in H. by repeat apply (inj (String.app _)) in H.
  - intros ->. by rewrite string_app_nil_r.
Qed.

(** C3 (as amended). The cache key is ["17lands_" + set + "_" + archetype]
    (the prefix is not ["perf_"]), with ["_" + year + "_" + month + "_" + day]
    of today's date appended if and only if the set is the current set;
    calls for the current set on the same calendar day and for the same
    archetype produce the same key, and the key of any other set has no date
    component, whatever the day. *)
Theorem dbKey_rotation (setCode deckId : string) (now1 now2 now3 : Time) :
  let base := "17lands_" +:+ setCode +:+ "_" +:+ deckId in
  (setCode = currentSet →
     dbKey setCode deckId now1 now2 now3
     = base +:+ "_" +:+ pretty (Year now1) +:+ "_" +:+ pretty (Month now2)
            +:+ "_" +:+ pretty (Day now3))
  ∧ (setCode ≠ currentSet → dbKey setCode deckId now1 now2 now3 = base)
  ∧ (dbKey setCode deckId now1 now2 now3 ≠ base ↔ setCode = currentSet)
  ∧ (∀ now1' now2' now3',
       Year now1' = Year now1 → Month now2' = Month now2 → Day now3' = Day now3 →
       dbKey setCode deckId now1' now2' now3' = dbKey setCode deckId now1 now2 now3)
  ∧ (setCode ≠ currentSet →
       ∀ now1' now2' now3',
         dbKey setCode deckId now1' now2' now3' = dbKey setCode deckId now1 now2 now3).
Proof.
  intros base. split; [|split; [|split; [|split]]].
  - intros Heq. unfold dbKey, dateKey, base. rewrite decide_True by done.
    by rewrite !string_app_assoc.
  - intros Hne. apply dbKey_base. unfold dateKey. by rewrite decide_False.
  - unfold base. rewrite dbKey_base. unfold dateKey. case_decide; by split.
  - intros now1' now2' now3' Hy Hm Hd. unfold dbKey, dateKey.
    by rewrite Hy, Hm, Hd.
  - intros Hne now1' now2' now3'. unfold dbKey, dateKey. by case_decide.
Qed.

Lemma dbKey_rotation_witness :
  currentSet = currentSet
  ∧ dbKey currentSet "WU" ex_day ex_day ex_day = "17lands_HBG_WU_2022_7_9"
  ∧ "DOM"%string ≠ currentSet
  ∧ dbKey "DOM" "WU" ex_day ex_day ex_day = "17lands_DOM_WU".
Proof.
  assert ("DOM"%string ≠ currentSet) as Hne by done.
  split; [reflexivity|]. split.
  { exact (proj1 (dbKey_rotation currentSet "WU" ex_day ex_day ex_day) eq_refl). }
  split; [exact Hne|].
  exact (proj1 (proj2 (dbKey_rotation "DOM" "WU" ex_day ex_day ex_day)) Hne).
Defined.

(** C3 (as stated) fails: the key does not start with ["perf_"]. *)
Lemma dbKey_prefix_is_not_perf :
  dbKey "DOM" "WU" ex_day ex_day ex_day = "17lands_DOM_WU"
  ∧ perfKey_as_specified "DOM" "WU" ex_day = "perf_DOM_WU"
  ∧ dbKey "DOM" "WU" ex_day ex_day ex_day ≠ perfKey_as_specified "DOM" "WU" ex_day.
Proof. split; [|split]; by vm_compute. Qed.

(** ** The name under which a card is cached *)

(** C5 fails on the code: [strings.Trim] removes every leading and trailing
    ['A'] and ['-'], not the prefix ["A-"], so the rebalanced
    ["A-Alrund's Epiphany"] is looked up as ["lrund's Epiphany"] and not under
    the key of ["Alrund's Epiphany"]. *)
Theorem getCard_cardName_trims_cutset :
  getCard_cardName "A-Alrund's Epiphany" = "lrund's Epiphany"
  ∧ getCard_cardName "Alrund's Epiphany" = "Alrund's Epiphany"
  ∧ getCard_cardName ("A-" +:+ "Alrund's Epiphany") ≠ getCard_cardName "Alrund's Epiphany".
Proof. split; [|split]; by vm_compute. Qed.

(** ** The resilient fetcher *)

Lemma bind_run {A B} (m : M A) (k : A → M B) (w : World) :
  (m ≫= k) w
  = match m w with
    | Done a w' => k a w'
    | Panicked msg w' => Panicked msg w'
    end.
Proof. done. Qed.

Lemma afterAttempts_0 uri w : afterAttempts uri w 0 0 = w.
Proof. destruct w. unfold afterAttempts. simpl. by rewrite !app_nil_r. Qed.

Lemma requested_afterAttempts uri w : requested uri w = afterAttempts uri w 1 0.
Proof. unfold requested, afterAttempts. simpl. by rewrite app_nil_r. Qed.

Lemma slept_requested uri w :
  slept webRetryMs (requested uri w) = afterAttempts uri w 1 1.
Proof. done. Qed.

Lemma afterAttempts_shift uri w n s :
  afterAttempts uri (afterAttempts uri w 1 1) n s = afterAttempts uri w (S n) (S s).
Proof. unfold afterAttempts. simpl. by rewrite <-!app_assoc. Qed.

Lemma attemptReply_0 env uri w : attemptReply env uri w 0 = http_Get env (requests w) uri.
Proof. unfold attemptReply. simpl. by rewrite app_nil_r. Qed.

Lemma attemptReply_shift env uri w i :
  attemptReply env uri (afterAttempts uri w 1 1) i = attemptReply env uri w (S i).
Proof. unfold attemptReply. simpl. by rewrite <-app_assoc. Qed.

Lemma statusFailures_0 env uri w : statusFailures env uri w 0.
Proof. intros i Hi. lia. Qed.

Lemma statusFailures_S env uri w k err :
  statusFailure uri (attemptReply env uri w 0) err →
  statusFailures env uri (afterAttempts uri w 1 1) k →
  statusFailures env uri w (S k).
Proof.
  intros H0 Hk [|i] Hi; [eauto|].
  rewrite <-attemptReply_shift. apply Hk. lia.
Qed.

Lemma innerGetWebResponseString_run env uri w :
  innerGetWebResponseString env uri w
  = match attemptReply env uri w 0 with
    | TransportFailure err => Panicked err (requested uri w)
    | Reply StatusCode body readErr =>
        if decide (StatusCode ≠ 200)
        then Done (""%string, Some (statusError StatusCode uri)) (requested uri w)
        else match readErr with
             | Some err => Panicked err (requested uri w)
             | None => Done (body, None) (requested uri w)
             end
    end.
Proof.
  rewrite attemptReply_0. unfold innerGetWebResponseString. rewrite bind_run.
  unfold net_http_Get. destruct (http_Get env (requests w) uri) as [e|code body rerr];
    [done|].
  case_decide; [done|]. by destruct rerr.
Qed.

(** The retry loop, whatever the number of attempts allowed. *)
Lemma getWebResponseString_loop_result env n uri err0 w :
  LookupResult env uri w n err0 (getWebResponseString_loop env n uri err0 w).
Proof.
  revert err0 w. induction n as [|n IH]; intros err0 w.
  { simpl. unfold mret, M_ret, ret. rewrite <-(afterAttempts_0 uri w) at 2.
    apply lookup_exhausted; [apply statusFailures_0|done|]. intros m Hm. lia. }
  cbn [getWebResponseString_loop]. rewrite bind_run, innerGetWebResponseString_run.
  destruct (attemptReply env uri w 0) as [e|code body rerr] eqn:Hreply.
  { rewrite requested_afterAttempts.
    apply lookup_panic; [lia|apply statusFailures_0|]. left. by rewrite Hreply. }
  destruct (decide (code ≠ 200)) as [Hcode|Hcode].
  - assert (statusFailure uri (attemptReply env uri w 0) (statusError code uri)) as Hfail.
    { rewrite Hreply. by exists code, body, rerr. }
    rewrite bind_run. unfold time_Sleep. rewrite slept_requested.
    destruct (IH (Some (statusError code uri)) (afterAttempts uri w 1 1))
      as [k body' Hk Hfails Hok|err Hfails Hzero Hlast|k msg Hk Hfails Hfatal];
      rewrite afterAttempts_shift.
    + apply lookup_success; [lia|by eapply statusFailures_S|].
      by rewrite <-attemptReply_shift.
    + apply lookup_exhausted; [by eapply statusFailures_S|done|].
      intros m Hm. simplify_eq. destruct m as [|m].
      * exists (statusError code uri). by rewrite Hzero.
      * destruct (Hlast m eq_refl) as (e & -> & He). exists e. split; [done|].
        by rewrite <-attemptReply_shift.
    + apply lookup_panic; [lia|by eapply statusFailures_S|].
      by rewrite <-attemptReply_shift.
  - assert (code = 200) as -> by (by destruct (decide (code = 200)); [|done]).
    rewrite requested_afterAttempts. destruct rerr as [e|].
    + apply lookup_panic; [lia|apply statusFailures_0|]. right. by exists body.
    + unfold mret, M_ret, ret. by apply lookup_success; [lia|apply statusFailures_0|].
Qed.

Lemma getWebResponseString_result env uri w :
  LookupResult env uri w webRetires None (getWebResponseString env uri w).
Proof. apply getWebResponseString_loop_result. Qed.

(** C6 (as amended). For every URI, [getWebResponseString] makes at most 3
    attempts, pausing [webRetryMs] after each failed one (the same delay
    every time); it returns the body of the first response with status 200;
    a status other than 200 is an error that is retried and, after the third
    such attempt, returned to the caller (the error of the last attempt);
    a transport failure, or a failure to read the body, is not returned to
    the caller: the run panics at that attempt, without retry. *)
Theorem getWebResponseString_retries env uri w :
  let reply := attemptReply env uri w in
  (∃ k body,
     (k < 3)%nat ∧ statusFailures env uri w k ∧ reply k = Reply 200 body None
     ∧ getWebResponseString env uri w
       = Done (body, None) (afterAttempts uri w (S k) k))
  ∨ (∃ err,
       statusFailures env uri w 3 ∧ statusFailure uri (reply 2%nat) err
       ∧ getWebResponseString env uri w
         = Done (""%string, Some err) (afterAttempts uri w 3 3))
  ∨ (∃ k msg,
       (k < 3)%nat ∧ statusFailures env uri w k ∧ fatalReply (reply k) msg
       ∧ getWebResponseString env uri w = Panicked msg (afterAttempts uri w (S k) k)).
Proof.
  intros reply.
  destruct (getWebResponseString_result env uri w)
    as [k body Hk Hfails Hok|err Hfails _ Hlast|k msg Hk Hfails Hfatal].
  - left. by exists k, body.
  - right; left. destruct (Hlast 2%nat eq_refl) as (e & -> & He). by exists e.
  - right; right. by exists k, msg.
Qed.

(** C6 (as stated) fails: on a transport failure no error comes back to the
    caller; the first attempt panics. *)
Lemma getWebResponseString_transport_failure_panics :
  attemptReply ex_env_down "u" ex_world 0 = TransportFailure "dial tcp: i/o timeout"
  ∧ getWebResponseString ex_env_down "u" ex_world
    = Panicked "dial tcp: i/o timeout" (afterAttempts "u" ex_world 1 0)
  ∧ ¬ ∃ r w', getWebResponseString ex_env_down "u" ex_world = Done r w'.
Proof.
  split; [done|]. split; [done|]. intros (r & w' & H). by vm_compute in H.
Qed.

(** ** The key of a card *)

Lemma prefix_cons (a b : ascii) (s1 s2 : string) :
  String.prefix (String a s1) (String b s2)
  = if ascii_dec a b then String.prefix s1 s2 else false.
Proof. done. Qed.

Lemma prefix_nil_r (a : ascii) (s1 : string) : String.prefix (String a s1) "" = false.
Proof. done. Qed.

Lemma prefix_nil_l (s : string) : String.prefix "" s = true.
Proof. by destruct s. Qed.

Lemma prefix_A_dash_cons (s : string) :
  String.prefix "A-" s = true → ∃ s', s = String "A" (String "-" s').
Proof.
  destruct s as [|a [|b s']]; [done|..]; rewrite prefix_cons;
    destruct (ascii_dec "A" a) as [<-|]; try done.
  rewrite prefix_cons. destruct (ascii_dec "-" b) as [<-|]; [|done]. eauto.
Qed.

Lemma trimLeft_head (l : list ascii) (cutset : string) (c : ascii) :
  head (trimLeft l cutset) = Some c → in_cutset c cutset = false.
Proof.
  induction l as [|a l IH]; simpl; [done|].
  destruct (in_cutset a cutset) eqn:Ha; [done|]. simpl. by intros [= <-].
Qed.

Lemma trimLeft_id (l : list ascii) (cutset : string) :
  (∀ c, head l = Some c → in_cutset c cutset = false) → trimLeft l cutset = l.
Proof. destruct l as [|a l]; simpl; [done|]. intros H. by rewrite (H a). Qed.

Lemma strings_Trim_no_prefix (s : string) :
  strings_HasPrefix (strings_Trim s "A-") "A-" = false.
Proof.
  unfold strings_HasPrefix, strings_Trim.
  destruct (String.prefix _ _) eqn:Hp; [|done].
  apply prefix_A_dash_cons in Hp as [s' Hs'].
  apply (f_equal list_ascii_of_string) in Hs'.
  rewrite list_ascii_of_string_of_list_ascii in Hs'. simpl in Hs'.
  pose proof (trimLeft_head (trimRight (list_ascii_of_string s) "A-") "A-" "A") as H.
  rewrite Hs' in H. by specialize (H eq_refl).
Qed.

Lemma list_ascii_of_string_app (s1 s2 : string) :
  list_ascii_of_string (s1 +:+ s2) = list_ascii_of_string s1 ++ list_ascii_of_string s2.
Proof.
  induction s1 as [|c s1 IH]; [done|].
  change (String c s1 +:+ s2) with (String c (s1 +:+ s2)). simpl. by rewrite IH.
Qed.

Lemma head_reverse {A} (l : list A) : head (reverse l) = last l.
Proof.
  induction l as [|x l IH] using rev_ind; [done|].
  by rewrite reverse_snoc, last_snoc.
Qed.

(** The key of a name with the marker in front, when the rest of the name
    neither starts nor ends with a character of the cutset. *)
Lemma getCard_cardName_marker (n : string) :
  (∀ c, head (list_ascii_of_string n) = Some c → in_cutset c "A-" = false) →
  (∀ c, last (list_ascii_of_string n) = Some c → in_cutset c "A-" = false) →
  getCard_cardName ("A-" +:+ n) = n ∧ getCard_cardName n = n.
Proof.
  intros Hhead Hlast. split.
  - unfold getCard_cardName, strings_HasPrefix.
    change ("A-" +:+ n) with (String "A" (String "-" n)).
    replace (String.prefix "A-" (String "A" (String "-" n))) with true
      by (rewrite !prefix_cons, prefix_nil_l;
          destruct (ascii_dec "A" "A"); [|done]; by destruct (ascii_dec "-" "-")).
    unfold strings_Trim. simpl list_ascii_of_string.
    rewrite <-(string_of_list_ascii_of_string n) at 2.
    generalize dependent (list_ascii_of_string n). intros l Hhead Hlast.
    destruct (decide (l = [])) as [->|Hne]; [by vm_compute|].
    assert (trimRight ("A"%char :: "-"%char :: l) "A-" = "A"%char :: "-"%char :: l) as ->.
    { unfold trimRight. rewrite trimLeft_id, reverse_involutive; [done|].
      intros c. rewrite head_reverse.
      destruct l as [|a l' _] using rev_ind; [done|].
      rewrite !app_comm_cons, last_snoc. intros [= <-]. apply Hlast.
      by rewrite last_snoc. }
    change (trimLeft ("A"%char :: "-"%char :: l) "A-") with (trimLeft l "A-").
    by rewrite trimLeft_id.
  - unfold getCard_cardName, strings_HasPrefix.
    destruct (String.prefix "A-" n) eqn:Hp; [|done].
    apply prefix_A_dash_cons in Hp as [s' ->]. by specialize (Hhead "A"%char eq_refl).
Qed.

(** ** The card resolver *)

Lemma scryfallGet_run env cardName w :
  scryfallGet env cardName w
  = match getWebResponseString env (setUri env cardName) w with
    | Panicked msg w1 => Panicked msg w1
    | Done (body, None) w1 => Done (body, None) (slept scryfallPauseMs w1)
    | Done (_, Some _) w1 =>
        match getWebResponseString env (baseUri env cardName) w1 with
        | Panicked msg w2 => Panicked msg w2
        | Done r w2 => Done r (slept scryfallPauseMs w2)
        end
    end.
Proof.
  unfold scryfallGet. rewrite bind_run.
  destruct (getWebResponseString env (setUri env cardName) w)
    as [[body [e|]] w1|msg w1]; [|done..].
  rewrite bind_run.
  by destruct (getWebResponseString env (baseUri env cardName) w1)
    as [[body2 err2] w2|msg w2].
Qed.

Lemma getCard_hit env name w payload :
  store w !! getCard_cardName name = Some payload →
  getCard env name w = Done (json_Unmarshal_card env payload, None) w.
Proof.
  intros Hhit. unfold getCard. rewrite bind_run. unfold dbGet. by rewrite Hhit.
Qed.

Lemma getCard_miss env name w :
  let key := getCard_cardName name in
  store w !! key = None →
  getCard env name w
  = match getWebResponseString env (setUri env key) w with
    | Panicked msg w1 => Panicked msg w1
    | Done (body, None) w1 => afterFetch env key body w1
    | Done (_, Some _) w1 =>
        match getWebResponseString env (baseUri env key) w1 with
        | Panicked msg w2 => Panicked msg w2
        | Done (body, None) w2 => afterFetch env key body w2
        | Done (_, Some _) w2 =>
            Done (new_ScryfallCard,
                  Some ("Could not find card in db or in scryfall: " +:+ key))
                 (slept scryfallPauseMs w2)
        end
    end.
Proof.
  intros key Hmiss. unfold getCard. fold key. rewrite bind_run. unfold dbGet.
  rewrite Hmiss, bind_run, scryfallGet_run.
  assert (∀ body w1,
    (err ← dbSet env key body;
     checkError err;; mret (json_Unmarshal_card env body, None))
      (slept scryfallPauseMs w1)
    = afterFetch env key body w1) as Hfetch.
  { intros body w1. rewrite bind_run. unfold dbSet, afterFetch.
    by destruct (txn_Set env key body). }
  destruct (getWebResponseString env (setUri env key) w)
    as [[body [e|]] w1|msg w1]; [|by rewrite <-Hfetch|done].
  destruct (getWebResponseString env (baseUri env key) w1)
    as [[body2 [e2|]] w2|msg w2]; [done|by rewrite <-Hfetch|done].
Qed.

(** A first resolution that succeeds on a miss: the payload is the body of
    the first 200 reply, which comes from the set-scoped lookup or, after
    three failed set-scoped attempts, from the unscoped one; it is written
    once, under the normalized name. *)
Lemma getCard_miss_success env name w c w' :
  let key := getCard_cardName name in
  let w1 := afterAttempts (setUri env key) w 3 3 in
  store w !! key = None → getCard env name w = Done (c, None) w' →
  ∃ body,
    c = json_Unmarshal_card env body
    ∧ writes w' = writes w ++ [(key, body)]
    ∧ store w' = <[key := body]> (store w)
    ∧ ((∃ k, (k < 3)%nat
          ∧ statusFailures env (setUri env key) w k
          ∧ attemptReply env (setUri env key) w k = Reply 200 body None
          ∧ requests w' = requests w ++ replicate (S k) (setUri env key))
       ∨ (∃ k, (k < 3)%nat
            ∧ statusFailures env (setUri env key) w 3
            ∧ statusFailures env (baseUri env key) w1 k
            ∧ attemptReply env (baseUri env key) w1 k = Reply 200 body None
            ∧ requests w'
              = requests w ++ replicate 3 (setUri env key)
                  ++ replicate (S k) (baseUri env key))).
Proof.
  intros key w1 Hmiss. rewrite getCard_miss by done. fold key.
  destruct (getWebResponseString_result env (setUri env key) w)
    as [k body Hk Hfails Hok|err Hfails _ Hlast|k msg Hk Hfails Hfatal]; [| |done].
  - unfold afterFetch. destruct (txn_Set env key body); [done|].
    intros [= <- <-]. exists body. do 3 (split; [done|]). left. exists k.
    unfold webRetires in Hk. by do 3 (split; [done|]).
  - destruct (Hlast 2%nat eq_refl) as (e & -> & He).
    change (afterAttempts (setUri env key) w webRetires webRetires) with w1.
    destruct (getWebResponseString_result env (baseUri env key) w1)
      as [k body Hk Hfails' Hok|err' _ _ Hlast'|k msg _ _ _]; [| |done].
    + unfold afterFetch. destruct (txn_Set env key body); [done|].
      intros [= <- <-]. exists body. do 3 (split; [done|]). right. exists k.
      do 4 (split; [done|]). simpl. by rewrite <-app_assoc.
    + by destruct (Hlast' 2%nat eq_refl) as (e' & -> & _).
Qed.





(** * Further properties *)

(** ** Normalization of card names *)

(** X1. The name under which [getCard] looks a card up is stable: applying
    the normalization to an already normalized name changes nothing, so a
    card is always found again under the key it was stored with. *)
Theorem getCard_cardName_idempotent (cardName : string) :
  getCard_cardName (getCard_cardName cardName) = getCard_cardName cardName.
Proof.
  unfold getCard_cardName.
  destruct (strings_HasPrefix cardName "A-") eqn:Hp.
  - by rewrite strings_Trim_no_prefix.
  - by rewrite Hp.
Qed.

(** X2. The Alchemy marker is removed as intended whenever the rest of the
    name neither starts nor ends with an ['A'] or a ['-']: the prefixed form
    then has the key of the unprefixed form. *)
Theorem getCard_cardName_strips_marker (n : string) :
  (∀ c, head (list_ascii_of_string n) = Some c → in_cutset c "A-" = false) →
  (∀ c, last (list_ascii_of_string n) = Some c → in_cutset c "A-" = false) →
  getCard_cardName ("A-" +:+ n) = n ∧ getCard_cardName n = n.
Proof. apply getCard_cardName_marker. Qed.

Lemma getCard_cardName_strips_marker_witness :
  getCard_cardName ("A-" +:+ "Lier, Disciple of the Drowned")
  = "Lier, Disciple of the Drowned".
Proof.
  apply (getCard_cardName_strips_marker "Lier, Disciple of the Drowned").
  - intros c [= <-]. reflexivity.
  - intros c [= <-]. reflexivity.
Defined.

(** ** What a resolution does to the world *)

Lemma LookupResult_store env uri w n err0 r :
  LookupResult env uri w n err0 r →
  store (worldOf r) = store w ∧ writes (worldOf r) = writes w.
Proof. by destruct 1. Qed.

Lemma statusFailure_not_ok uri body rerr err : ¬ statusFailure uri (Reply 200 body rerr) err.
Proof. intros (code & b & r & [= <- _ _] & Hne & _). done. Qed.

Lemma statusFailure_not_fatal uri r err msg : statusFailure uri r err → ¬ fatalReply r msg.
Proof.
  intros (code & b & rerr & -> & Hne & _) [H|[body H]]; [done|].
  by injection H as -> _ _.
Qed.

(** Three replies with a status other than 200 exhaust a lookup. *)
Lemma getWebResponseString_exhausted env uri w :
  statusFailures env uri w 3 →
  ∃ err, statusFailure uri (attemptReply env uri w 2) err
         ∧ getWebResponseString env uri w
           = Done (""%string, Some err) (afterAttempts uri w 3 3).
Proof.
  intros Hfails.
  destruct (getWebResponseString_result env uri w)
    as [k body Hk _ Hok|err _ _ Hlast|k msg Hk _ Hfatal].
  - destruct (Hfails k Hk) as [e He]. rewrite Hok in He.
    by apply statusFailure_not_ok in He.
  - destruct (Hlast 2%nat eq_refl) as (e & -> & He). by exists e.
  - destruct (Hfails k Hk) as [e He]. by apply statusFailure_not_fatal with (msg := msg) in He.
Qed.

Lemma getCard_store_writes env name w :
  let w' := worldOf (getCard env name w) in
  store w ⊆ store w'
  ∧ ∃ new, writes w' = writes w ++ new ∧ (length new ≤ 1)%nat.
Proof.
  intros w'. subst w'. set (key := getCard_cardName name).
  assert (∀ w0 : World, store w0 = store w → writes w0 = writes w →
            store w ⊆ store w0
            ∧ ∃ new, writes w0 = writes w ++ new ∧ (length new ≤ 1)%nat) as Hsame.
  { intros w0 -> ->. split; [done|]. exists [].
    split; [by rewrite app_nil_r|simpl; lia]. }
  destruct (store w !! key) as [payload|] eqn:Hstore.
  { rewrite (getCard_hit env name w payload Hstore). by apply Hsame. }
  assert (∀ body w0, store w0 = store w → writes w0 = writes w →
            let r := afterFetch env key body w0 in
            store w ⊆ store (worldOf r)
            ∧ ∃ new, writes (worldOf r) = writes w ++ new ∧ (length new ≤ 1)%nat)
    as Hfetch.
  { intros body w0 Hs Hw. unfold afterFetch.
    destruct (txn_Set env key body); simpl; [by apply Hsame|].
    rewrite Hs, Hw. split; [by apply insert_subseteq|]. exists [(key, body)].
    split; [done|simpl; lia]. }
  rewrite getCard_miss by done. fold key.
  pose proof (getWebResponseString_result env (setUri env key) w) as H1.
  apply LookupResult_store in H1 as [Hs1 Hw1].
  destruct (getWebResponseString env (setUri env key) w)
    as [[body [e|]] w1|msg w1]; simpl in Hs1, Hw1;
    [|by apply Hfetch|by apply Hsame].
  pose proof (getWebResponseString_result env (baseUri env key) w1) as H2.
  apply LookupResult_store in H2 as [Hs2 Hw2].
  destruct (getWebResponseString env (baseUri env key) w1)
    as [[body2 [e2|]] w2|msg w2]; simpl in Hs2, Hw2.
  - apply Hsame; simpl; [by rewrite Hs2|by rewrite Hw2].
  - apply Hfetch; [by rewrite Hs2|by rewrite Hw2].
  - apply Hsame; simpl; [by rewrite Hs2|by rewrite Hw2].
Qed.

(** X3. The card cache only grows: however a resolution ends (a card, an
    error or a panic), every entry that was in the store is still there with
    the same payload, and at most one write was made. *)
Theorem getCard_store_grows env name w :
  let w' := worldOf (getCard env name w) in
  store w ⊆ store w'
  ∧ ∃ new, writes w' = writes w ++ new ∧ (length new ≤ 1)%nat.
Proof. apply getCard_store_writes. Qed.

(** X4. A card that neither lookup finds: when the store has no entry and
    both the set-scoped and the unscoped lookup are answered three times
    with a status other than 200, [getCard] returns the not-found error
    naming the normalized card name, after six requests, six retry pauses
    and the courtesy pause, and writes nothing. *)
Theorem getCard_not_found env name w :
  let key := getCard_cardName name in
  let w1 := afterAttempts (setUri env key) w 3 3 in
  store w !! key = None →
  statusFailures env (setUri env key) w 3 →
  statusFailures env (baseUri env key) w1 3 →
  getCard env name w
  = Done (new_ScryfallCard,
          Some ("Could not find card in db or in scryfall: " +:+ key))
         {| requests := requests w ++ replicate 3 (setUri env key)
                          ++ replicate 3 (baseUri env key);
            sleeps := sleeps w ++ replicate 6 webRetryMs ++ [scryfallPauseMs];
            store := store w;
            writes := writes w |}.
Proof.
  intros key w1 Hmiss Hset Hbase. rewrite getCard_miss by done. fold key.
  destruct (getWebResponseString_exhausted env _ w Hset) as (e1 & _ & ->).
  fold w1. destruct (getWebResponseString_exhausted env _ w1 Hbase) as (e2 & _ & ->).
  f_equal. unfold slept, afterAttempts, w1. simpl. f_equal; by rewrite <-!app_assoc.
Qed.

Lemma getCard_not_found_witness :
  getCard ex_env_404 "Shock" ex_world
  = Done (new_ScryfallCard,
          Some "Could not find card in db or in scryfall: Shock"%string)
         {| requests := replicate 3 "https://api.scryfall.com/cards/named?exact=Shock&set=HBG"%string
                          ++ replicate 3 "https://api.scryfall.com/cards/named?exact=Shock"%string;
            sleeps := replicate 6 webRetryMs ++ [scryfallPauseMs];
            store := ∅; writes := [] |}.
Proof.
  apply (getCard_not_found ex_env_404 "Shock" ex_world).
  - reflexivity.
  - intros i Hi. exists (statusError 404 (setUri ex_env_404 "Shock")).
    by exists 404, ""%string, None.
  - intros i Hi. exists (statusError 404 (baseUri ex_env_404 "Shock")).
    by exists 404, ""%string, None.
Defined.

(** ** Pools from roster rows *)

Lemma string_length_app (s1 s2 : string) :
  String.length (s1 +:+ s2) = (String.length s1 + String.length s2)%nat.
Proof.
  induction s1 as [|c s1 IH]; [done|].
  change (String c s1 +:+ s2) with (String c (s1 +:+ s2)). simpl. by rewrite IH.
Qed.

Lemma prefix_slash (c : ascii) (s : string) :
  String.prefix "/" (String c s) = bool_decide (c = "/"%char).
Proof.
  rewrite prefix_cons, prefix_nil_l.
  destruct (ascii_dec "/" c) as [<-|Hne]; [done|].
  by rewrite bool_decide_eq_false_2.
Qed.

Lemma lastIndex_scan_no_slash (s : string) (i found : Z) :
  "/"%char ∉ list_ascii_of_string s → lastIndex_scan i found s "/" = found.
Proof.
  revert i found. induction s as [|c s IH]; intros i found Hno; [done|].
  simpl in Hno. apply not_elem_of_cons in Hno as [Hc Hs].
  cbn [lastIndex_scan]. rewrite prefix_slash, bool_decide_eq_false_2 by done.
  by apply IH.
Qed.

Lemma lastIndex_scan_segment (pre id : string) (i found : Z) :
  "/"%char ∉ list_ascii_of_string id →
  lastIndex_scan i found (pre +:+ "/" +:+ id) "/" = i + Z.of_nat (String.length pre).
Proof.
  intros Hno. revert i found. induction pre as [|c pre IH]; intros i found.
  - change ("" +:+ "/" +:+ id) with (String "/" id). cbn [lastIndex_scan].
    rewrite prefix_slash, bool_decide_eq_true_2 by done.
    rewrite lastIndex_scan_no_slash by done. simpl. lia.
  - change (String c pre +:+ "/" +:+ id) with (String c (pre +:+ "/" +:+ id)).
    cbn [lastIndex_scan]. rewrite IH. cbn [String.length]. lia.
Qed.

Lemma string_drop_segment (pre id : string) :
  string_drop (S (String.length pre)) (pre +:+ "/" +:+ id) = id.
Proof.
  induction pre as [|c pre IH]; [done|].
  change (String c pre +:+ "/" +:+ id) with (String c (pre +:+ "/" +:+ id)).
  exact IH.
Qed.

(** Every link is free of slashes or ends in a slash-free segment. *)
Lemma link_segments (s : string) :
  "/"%char ∉ list_ascii_of_string s
  ∨ ∃ pre id, s = pre +:+ "/" +:+ id ∧ "/"%char ∉ list_ascii_of_string id.
Proof.
  induction s as [|c s [Hno|(pre & id & -> & Hno)]].
  - left. simpl. apply not_elem_of_nil.
  - destruct (decide (c = "/"%char)) as [->|Hc].
    + right. by exists ""%string, s.
    + left. simpl. by apply not_elem_of_cons.
  - right. by exists (String c pre), id.
Qed.

Lemma poolId_no_slash (link : string) :
  "/"%char ∉ list_ascii_of_string link →
  slice_from link (strings_LastIndex link "/" + 1) = Some link.
Proof.
  intros Hno. unfold strings_LastIndex. rewrite lastIndex_scan_no_slash by done.
  unfold slice_from. rewrite decide_True by lia. done.
Qed.

Lemma poolId_segment (pre id : string) :
  "/"%char ∉ list_ascii_of_string id →
  slice_from (pre +:+ "/" +:+ id) (strings_LastIndex (pre +:+ "/" +:+ id) "/" + 1)
  = Some id.
Proof.
  intros Hno. unfold strings_LastIndex. rewrite lastIndex_scan_segment by done.
  unfold slice_from. rewrite !string_length_app. cbn [String.length].
  rewrite decide_True by lia.
  replace (Z.to_nat (0 + Z.of_nat (String.length pre) + 1))
    with (S (String.length pre)) by lia.
  by rewrite string_drop_segment.
Qed.

(** X5. [makePool] never panics; the pool is alive exactly when the losses
    are below the elimination threshold of 11; it starts without cards and
    facts; and its URI is the API template applied to the last path segment
    of the link (to the whole link when it has no slash). *)
Theorem makePool_last_segment (player0 team0 link : string) (wins losses : Z) :
  ∃ pool poolId,
    makePool player0 team0 link wins losses = Some pool
    ∧ (isAlive pool = true ↔ losses < 11)
    ∧ player pool = player0 ∧ team pool = team0
    ∧ cards pool = [] ∧ facts pool = ∅
    ∧ uri pool = sealedDeckApiUriTemplate poolId
    ∧ ("/"%char ∉ list_ascii_of_string poolId)
    ∧ (link = poolId ∨ ∃ pre, link = pre +:+ "/" +:+ poolId).
Proof.
  assert (∀ poolId,
    slice_from link (strings_LastIndex link "/" + 1) = Some poolId →
    (∃ pool, makePool player0 team0 link wins losses = Some pool
      ∧ (isAlive pool = true ↔ losses < 11)
      ∧ player pool = player0 ∧ team pool = team0
      ∧ cards pool = [] ∧ facts pool = ∅
      ∧ uri pool = sealedDeckApiUriTemplate poolId)) as Hmake.
  { intros poolId Hid. unfold makePool. rewrite Hid. simpl. eexists.
    split; [done|]. simpl. split; [|done].
    unfold leagueEliminationLosses. apply bool_decide_eq_true. }
  destruct (link_segments link) as [Hno|(pre & id & -> & Hno)].
  - destruct (Hmake link (poolId_no_slash link Hno))
      as (pool & Hm & Ha & Hp & Ht & Hc & Hf & Hu).
    exists pool, link. do 8 (split; [done|]). by left.
  - destruct (Hmake id (poolId_segment pre id Hno))
      as (pool & Hm & Ha & Hp & Ht & Hc & Hf & Hu).
    exists pool, id. do 8 (split; [done|]). right. by exists pre.
Qed.

(** ** Mana cost, type line and colours *)

Lemma string_length_pos (s : string) : (0 < String.length s)%nat ↔ s ≠ ""%string.
Proof. destruct s; simpl; split; (done || lia). Qed.

Lemma decide_length_pos {A} (s : string) (x y : A) :
  (if decide (0 < String.length s)%nat then x else y)
  = if decide (s = ""%string) then y else x.
Proof.
  destruct (decide (0 < String.length s)%nat) as [H|H]; rewrite string_length_pos in H.
  - by rewrite decide_False.
  - rewrite decide_True; [done|]. by destruct (decide (s = ""%string)).
Qed.

Lemma getManaCost_cases (c : ScryfallCard) (faces : list CardFace) :
  getManaCost c faces
  = if decide (ManaCost c = ""%string) then
      match faces with
      | [] => Some ""%string
      | [f0] => if decide (face_ManaCost f0 = ""%string) then None
                else Some (face_ManaCost f0)
      | f0 :: f1 :: _ =>
          Some (if decide (face_ManaCost f0 = ""%string) then face_ManaCost f1
                else face_ManaCost f0)
      end
    else Some (ManaCost c).
Proof.
  unfold getManaCost. rewrite decide_length_pos.
  destruct (decide (ManaCost c = ""%string)); [|done].
  destruct faces as [|f0 [|f1 rest]]; simpl; [done|..]; rewrite decide_length_pos;
    destruct (decide (face_ManaCost f0 = ""%string)); try done.
  rewrite decide_length_pos. by destruct (decide (face_ManaCost f1 = ""%string)) as [->|].
Qed.

(** X6. [getManaCost] returns the card's own cost if it has one, else the
    cost of face 0 if it has one, else the cost of face 1, and the empty
    string for a card without cost and without faces; it panics (index out
    of range) exactly for a card without cost that has a single face, itself
    without cost. *)
Theorem getManaCost_faces (c : ScryfallCard) (faces : list CardFace) :
  (getManaCost c faces = None
   ↔ ManaCost c = ""%string ∧ ∃ f, faces = [f] ∧ face_ManaCost f = ""%string)
  ∧ (ManaCost c ≠ ""%string → getManaCost c faces = Some (ManaCost c))
  ∧ (ManaCost c = ""%string → faces = [] → getManaCost c faces = Some ""%string)
  ∧ (∀ f0 f1 rest, ManaCost c = ""%string → faces = f0 :: f1 :: rest →
       getManaCost c faces
       = Some (if decide (face_ManaCost f0 = ""%string) then face_ManaCost f1
               else face_ManaCost f0))
  ∧ (∀ f0, ManaCost c = ""%string → faces = [f0] → face_ManaCost f0 ≠ ""%string →
       getManaCost c faces = Some (face_ManaCost f0)).
Proof.
  rewrite getManaCost_cases. split; [|split; [|split; [|split]]].
  - destruct (decide (ManaCost c = ""%string)) as [Hc|Hc].
    + destruct faces as [|f0 [|f1 rest]].
      * split; [done|]. by intros (_ & f & ? & _).
      * destruct (decide (face_ManaCost f0 = ""%string)) as [H0|H0].
        -- split; [|done]. intros _. split; [done|]. by exists f0.
        -- split; [done|]. by intros (_ & f & [= <-] & ?).
      * split; [done|]. by intros (_ & f & ? & _).
    + split; [done|]. by intros [? _].
  - intros Hc. by rewrite decide_False.
  - intros Hc ->. by rewrite decide_True.
  - intros f0 f1 rest Hc ->. by rewrite decide_True.
  - intros f0 Hc -> H0. by rewrite decide_True, decide_False.
Qed.

Lemma getManaCost_faces_witness :
  getManaCost (ex_card "{Shock}") [ex_face ""] = None
  ∧ getManaCost (ex_card "{Shock}") [ex_face ""; ex_face "{1}{R}"] = Some "{1}{R}"%string.
Proof.
  split.
  - apply (proj1 (getManaCost_faces (ex_card "{Shock}") [ex_face ""])).
    split; [reflexivity|]. exists (ex_face ""). by split.
  - exact (proj1 (proj2 (proj2 (proj2
             (getManaCost_faces (ex_card "{Shock}") [ex_face ""; ex_face "{1}{R}"]))))
             (ex_face "") (ex_face "{1}{R}") [] eq_refl eq_refl).
Defined.

Lemma Contains_cons (c : ascii) (s substr : string) :
  strings_Contains (String c s) substr
  = String.prefix substr (String c s) || strings_Contains s substr.
Proof. done. Qed.

Lemma replace_scan_0_cons (c : ascii) (s old new : string) :
  replace_scan 0 (String c s) old new
  = if String.prefix old (String c s)
    then new +:+ replace_scan (String.length old - 1) s old new
    else String c (replace_scan 0 s old new).
Proof. done. Qed.

(** A string without an instance of [old] is left as it is. *)
Lemma replace_scan_absent (s old new : string) :
  strings_Contains s old = false → replace_scan 0 s old new = s.
Proof.
  induction s as [|c s IH]; [done|].
  rewrite Contains_cons, replace_scan_0_cons.
  intros [-> Hs]%orb_false_elim. by rewrite IH.
Qed.

(** What starts the result of a replacement by a dash, and has no dash,
    starts the argument. *)
Lemma prefix_replace_scan (t s old : string) :
  "-"%char ∉ list_ascii_of_string t →
  String.prefix t (replace_scan 0 s old "-") = true → String.prefix t s = true.
Proof.
  revert s. induction t as [|a t IH]; intros s Hno Hp; [apply prefix_nil_l|].
  simpl in Hno. apply not_elem_of_cons in Hno as [Ha Ht].
  destruct s as [|c s]; [done|]. rewrite replace_scan_0_cons in Hp.
  destruct (String.prefix old (String c s)).
  - change ("-" +:+ ?r) with (String "-" r) in Hp. rewrite prefix_cons in Hp.
    by destruct (ascii_dec a "-").
  - rewrite prefix_cons in Hp |- *. destruct (ascii_dec a c); [|done]. by apply IH.
Qed.

Lemma Contains_replace_scan (s old : string) (k : nat) :
  old ≠ ""%string → "-"%char ∉ list_ascii_of_string old →
  strings_Contains (replace_scan k s old "-") old = false.
Proof.
  intros Hne Hno. revert k. induction s as [|c s IH]; intros k.
  { simpl. by destruct old. }
  destruct k as [|k]; [|apply IH].
  destruct (String.prefix old (String c s)) eqn:Hp.
  - rewrite replace_scan_0_cons, Hp.
    change ("-" +:+ ?r) with (String "-" r). rewrite Contains_cons, IH, orb_false_r.
    destruct old as [|a old]; [done|]. simpl in Hno.
    apply not_elem_of_cons in Hno as [Ha _]. rewrite prefix_cons.
    by destruct (ascii_dec a "-").
  - destruct (String.prefix old (replace_scan 0 (String c s) old "-")) eqn:Hp'.
    { apply prefix_replace_scan in Hp'; [congruence|done]. }
    rewrite replace_scan_0_cons, Hp in Hp' |- *.
    by rewrite Contains_cons, Hp', IH.
Qed.

Lemma funkyDash_no_dash : "-"%char ∉ list_ascii_of_string funkyDash.
Proof. compute_done. Qed.

(** X7. [getTypeLineClean] leaves a type line without the mis-encoded dash
    as it is; its result never contains the mis-encoded dash; and cleaning
    twice is the same as cleaning once. *)
Theorem getTypeLineClean_cleans (c : ScryfallCard) :
  (strings_Contains (TypeLine c) funkyDash = false → getTypeLineClean c = TypeLine c)
  ∧ strings_Contains (getTypeLineClean c) funkyDash = false
  ∧ strings_Replace_all (getTypeLineClean c) funkyDash "-" = getTypeLineClean c.
Proof.
  assert (strings_Contains (getTypeLineClean c) funkyDash = false) as Hclean.
  { apply Contains_replace_scan; [done|apply funkyDash_no_dash]. }
  split; [apply replace_scan_absent|]. split; [done|].
  by apply replace_scan_absent.
Qed.

Lemma getTypeLineClean_cleans_witness :
  getTypeLineClean (ex_card_typed "Legendary Creature - Elf" [])
  = "Legendary Creature - Elf"%string
  ∧ getTypeLineClean (ex_card_typed ("Creature " +:+ funkyDash +:+ " Elf") [])
    = "Creature - Elf"%string.
Proof.
  split; [|by vm_compute].
  apply (proj1 (getTypeLineClean_cleans (ex_card_typed "Legendary Creature - Elf" []))).
  by vm_compute.
Defined.

Lemma rangeHasColour_elem (identity : list string) (colour : string) :
  rangeHasColour identity colour = true ↔ colour ∈ identity.
Proof.
  induction identity as [|c rest IH]; simpl.
  - split; [done|]. by intros ?%elem_of_nil.
  - rewrite elem_of_cons. destruct (decide (c = colour)) as [->|Hne].
    + split; auto.
    + rewrite IH. split; [auto|]. by intros [?|?].
Qed.

Lemma isColour_mono_singleton (ds : DeckSlot) (c : ScryfallCard) (colour : string) :
  card ds = Some c →
  isColour ds colour true = Some true ↔ ColorIdentity c = [colour].
Proof.
  intros Hc. unfold isColour. rewrite Hc. simpl.
  destruct (ColorIdentity c) as [|x [|y rest]]; simpl.
  - split; [done|done].
  - destruct (decide (x = colour)) as [->|Hne]; [done|].
    split; [done|]. by intros [= ?].
  - split; [done|]. by intros [= ? ?].
Qed.

(** X8. The colour tests do not overlap: a card counts as mono-coloured of a
    colour exactly when that colour is its whole colour identity, so it is
    mono-coloured of at most one colour, and then it is neither multi-coloured
    nor colourless; a multi-coloured card is not colourless. *)
Theorem colour_tests_exclusive (ds : DeckSlot) (c : ScryfallCard) :
  card ds = Some c →
  (∀ colour, isColour ds colour true = Some true ↔ ColorIdentity c = [colour])
  ∧ (∀ colour, isColour ds colour false = Some true ↔ colour ∈ ColorIdentity c)
  ∧ (∀ c1 c2, isColour ds c1 true = Some true → isColour ds c2 true = Some true →
       c1 = c2)
  ∧ (∀ colour, isColour ds colour true = Some true →
       isMultiColour ds = Some false ∧ isColourless ds = Some false)
  ∧ (isMultiColour ds = Some true → isColourless ds = Some false).
Proof.
  intros Hc. split; [intros colour; by apply isColour_mono_singleton|].
  split; [|split; [|split]].
  - intros colour. unfold isColour. rewrite Hc. simpl.
    rewrite <-rangeHasColour_elem. split; [by intros [= ->]|by intros ->].
  - intros c1 c2 H1 H2. rewrite (isColour_mono_singleton ds c) in H1, H2 by done.
    congruence.
  - intros colour H. rewrite (isColour_mono_singleton ds c) in H by done.
    unfold isMultiColour, isColourless. rewrite Hc. simpl. by rewrite H.
  - unfold isMultiColour, isColourless. rewrite Hc. simpl.
    destruct (ColorIdentity c) as [|x [|y rest]]; simpl; try done.
Qed.

Lemma colour_tests_exclusive_witness :
  isColour ex_slot_red "R" true = Some true
  ∧ isMultiColour ex_slot_red = Some false ∧ isColourless ex_slot_red = Some false.
Proof.
  assert (isColour ex_slot_red "R" true = Some true) as H by reflexivity.
  split; [exact H|].
  exact (proj1 (proj2 (proj2 (proj2
           (colour_tests_exclusive ex_slot_red _ eq_refl)))) "R"%string H).
Defined.

(** ** The master list of cards *)

Lemma flattenDeckSlots_step_lookup m c name :
  flattenDeckSlots_step m c !! name
  = if decide (cardName c = name)
    then Some {| amount := match m !! name with
                           | Some value => int_add (amount value) (amount c)
                           | None => amount c
                           end;
                 cardName := name; card := card c |}
    else m !! name.
Proof.
  unfold flattenDeckSlots_step. destruct (decide (cardName c = name)) as [<-|Hne].
  - destruct (m !! cardName c); by rewrite lookup_insert_eq.
  - destruct (m !! cardName c); by rewrite lookup_insert_ne.
Qed.

Lemma slotsNamed_snoc name cs c :
  slotsNamed name (cs ++ [c])
  = slotsNamed name cs ++ (if decide (cardName c = name) then [c] else []).
Proof.
  unfold slotsNamed. by rewrite filter_app.
Qed.

(** What [flattenDeckSlots] holds for a name, starting from the empty map. *)
Lemma flattenDeckSlots_lookup cs name :
  flattenDeckSlots ∅ cs !! name
  = (λ a, {| amount := a; cardName := name;
             card := last (slotsNamed name cs) ≫= card |})
    <$> mergedAmount (amount <$> slotsNamed name cs).
Proof.
  unfold flattenDeckSlots.
  induction cs as [|c cs IH] using rev_ind; [done|].
  rewrite foldl_snoc, slotsNamed_snoc, flattenDeckSlots_step_lookup, IH.
  destruct (decide (cardName c = name)) as [Heq|Hne]; [|by rewrite app_nil_r].
  rewrite fmap_app, last_snoc. simpl. rewrite mergedAmount_snoc.
  by destruct (mergedAmount (amount <$> slotsNamed name cs)).
Qed.

Lemma masterList_flattenDeckSlots (pools : list PlayerPool) :
  masterList pools = flattenDeckSlots ∅ (pools ≫= cards).
Proof.
  unfold masterList, flattenDeckSlots. generalize (∅ : gmap string DeckSlot).
  induction pools as [|p pools IH]; intros m; [done|].
  rewrite bind_cons, foldl_app. apply IH.
Qed.

(** X9. The master list that [processPools] builds has one entry for every
    card name that occurs in some pool of the batch and none for any other
    name; its amount is the total of the amounts of all slots of that name in
    all the pools, in [int] arithmetic (the exact total when that is an
    [int]), and its card is the one of the last such slot. *)
Theorem masterList_totals (pools : list PlayerPool) (name : string) :
  let named := slotsNamed name (pools ≫= cards) in
  Forall (λ c, is_int (amount c)) (pools ≫= cards) →
  masterList pools !! name
  = (if decide (named = []) then None
     else Some {| amount := wrap_int (sumZ (amount <$> named));
                  cardName := name; card := last named ≫= card |})
  ∧ (named ≠ [] → is_int (sumZ (amount <$> named)) →
     amount <$> masterList pools !! name = Some (sumZ (amount <$> named))).
Proof.
  intros named Hwf.
  assert (masterList pools !! name
          = (if decide (named = []) then None
             else Some {| amount := wrap_int (sumZ (amount <$> named));
                          cardName := name; card := last named ≫= card |})) as Hl.
  { rewrite masterList_flattenDeckSlots, flattenDeckSlots_lookup. fold named.
    destruct (decide (named = [])) as [->|Hne]; [done|].
    rewrite mergedAmount_wrap; [done| |by destruct named].
    apply Forall_fmap, Forall_forall. intros c [_ Hc]%list_elem_of_filter.
    rewrite Forall_forall in Hwf. by apply Hwf. }
  split; [done|]. intros Hne Hint. rewrite Hl, decide_False by done. simpl.
  by rewrite wrap_int_id.
Qed.

Lemma masterList_totals_witness :
  amount <$> masterList [ex_pool_bolt 2; ex_pool; ex_pool_bolt 1] !! "Lightning Bolt"%string
  = Some 4.
Proof.
  assert (Forall (λ c, is_int (amount c))
            ([ex_pool_bolt 2; ex_pool; ex_pool_bolt 1] ≫= cards)) as Hwf
    by (repeat constructor; by vm_compute).
  apply (proj2 (masterList_totals [ex_pool_bolt 2; ex_pool; ex_pool_bolt 1]
                  "Lightning Bolt" Hwf)); by vm_compute.
Defined.


Lemma DeckSlot_eta (c : DeckSlot) :
  {| amount := amount c; cardName := cardName c; card := card c |} = c.
Proof. by destruct c. Qed.

Lemma slotsNamed_absent (name : string) (cs : list DeckSlot) :
  name ∉ cardName <$> cs → slotsNamed name cs = [].
Proof.
  unfold slotsNamed. induction cs as [|d cs IH]; [done|].
  rewrite fmap_cons, not_elem_of_cons. intros [Hd Hcs].
  rewrite filter_cons, decide_False by done. by apply IH.
Qed.

Lemma slotsNamed_NoDup (cs : list DeckSlot) (c : DeckSlot) :
  NoDup (cardName <$> cs) → c ∈ cs → slotsNamed (cardName c) cs = [c].
Proof.
  induction cs as [|d cs IH]; intros Hnd Hin.
  { by apply elem_of_nil in Hin. }
  rewrite fmap_cons in Hnd. apply NoDup_cons in Hnd as [Hd Hnd].
  unfold slotsNamed. rewrite filter_cons. apply elem_of_cons in Hin as [->|Hin].
  - rewrite decide_True by done. f_equal. by apply slotsNamed_absent.
  - rewrite decide_False; [by apply IH|].
    intros Heq. apply Hd. rewrite Heq. apply list_elem_of_fmap. eauto.
Qed.

(** X10. Feeding a list of slots with pairwise distinct names (a flattened
    pool) to [flattenDeckSlots] on an empty map gives every slot back
    unchanged, amount, name and card, and nothing else. *)
Theorem flattenDeckSlots_distinct_names (cs : list DeckSlot) :
  NoDup (cardName <$> cs) →
  (∀ c, c ∈ cs → flattenDeckSlots ∅ cs !! cardName c = Some c)
  ∧ (∀ name, name ∉ cardName <$> cs → flattenDeckSlots ∅ cs !! name = None)
  ∧ size (flattenDeckSlots ∅ cs) = length cs.
Proof.
  intros Hnd.
  assert (∀ c, c ∈ cs → flattenDeckSlots ∅ cs !! cardName c = Some c) as Hin.
  { intros c Hc. rewrite flattenDeckSlots_lookup, slotsNamed_NoDup by done.
    simpl. by rewrite DeckSlot_eta. }
  assert (∀ name, name ∉ cardName <$> cs → flattenDeckSlots ∅ cs !! name = None)
    as Hout.
  { intros name Hname. by rewrite flattenDeckSlots_lookup, slotsNamed_absent. }
  split; [done|]. split; [done|].
  assert (flattenDeckSlots ∅ cs = list_to_map ((λ c, (cardName c, c)) <$> cs)) as ->.
  { apply map_eq. intros name. symmetry.
    destruct (decide (name ∈ cardName <$> cs)) as [Hn|Hn].
    - apply list_elem_of_fmap in Hn as (c & -> & Hc). rewrite Hin by done.
      apply elem_of_list_to_map_1.
      + by rewrite <-list_fmap_compose.
      + apply list_elem_of_fmap. eauto.
    - rewrite Hout by done. apply not_elem_of_list_to_map_1.
      by rewrite <-list_fmap_compose. }
  rewrite <-length_map_to_list, map_to_list_to_map.
  - by rewrite length_fmap.
  - by rewrite <-list_fmap_compose.
Qed.

Lemma flattenDeckSlots_distinct_names_witness :
  flattenDeckSlots ∅ (cards ex_pool) !! "Plains"%string = Some (slot 4 "Plains").
Proof.
  assert (NoDup (cardName <$> cards ex_pool)) as Hnd by compute_done.
  apply (proj1 (flattenDeckSlots_distinct_names (cards ex_pool) Hnd) (slot 4 "Plains")).
  apply list_elem_of_further, list_elem_of_here.
Defined.

(** ** Further properties of the scorer *)

Lemma unitEntries_perm (cs cs' : list DeckSlot) (m : gmap string Qc) :
  cs ≡ₚ cs' → unitEntries (mkPool cs) m ≡ₚ unitEntries (mkPool cs') m.
Proof.
  induction 1 as [|c cs cs' _ IH|c d cs|cs1 cs2 cs3 _ IH1 _ IH2].
  - done.
  - by rewrite !unitEntries_cons, IH.
  - rewrite !unitEntries_cons, !app_assoc. f_equiv. apply Permutation_app_comm.
  - by rewrite IH1.
Qed.

Lemma deckStrength_perm (pool pool' : PlayerPool) (m : gmap string Qc) :
  cards pool ≡ₚ cards pool' → deckStrength pool m = deckStrength pool' m.
Proof.
  intros Hp. rewrite !deckStrength_rawStrength, !rawStrength_take.
  rewrite (unitEntries_cards pool), (unitEntries_cards pool').
  by rewrite (sortDescending_perm _ _ (unitEntries_perm _ _ m Hp)).
Qed.

(** X11. The score does not depend on the order of the slots of a pool
    (which [fetchCardData] takes from the iteration order of a map): pools
    with the same slots in different orders have the same raw strength for
    every archetype and the same final strength. *)
Theorem calculateStrength_order_independent (pool pool' : PlayerPool)
    (byDeck : gmap string (gmap string Qc)) :
  cards pool ≡ₚ cards pool' →
  (∀ m, deckStrength pool m = deckStrength pool' m)
  ∧ calculateStrength pool byDeck = calculateStrength pool' byDeck.
Proof.
  intros Hp. split; [intros m; by apply deckStrength_perm|].
  unfold calculateStrength, calculateStrengthFor.
  assert (deckStrengths currentSet pool byDeck = deckStrengths currentSet pool' byDeck)
    as ->; [|done].
  apply map_eq. intros d. rewrite !deckStrengths_lookup.
  case_decide; [|done]. by rewrite (deckStrength_perm pool pool').
Qed.

Lemma calculateStrength_order_independent_witness :
  calculateStrength ex_pool ex_maps = calculateStrength ex_pool_reordered ex_maps.
Proof.
  apply (calculateStrength_order_independent ex_pool ex_pool_reordered ex_maps).
  apply Permutation_swap.
Defined.

Lemma sumList_le_length (l : list Qc) :
  Forall (λ x, (x ≤ 1)%Qc) l → (sumList l ≤ Qc_of_Z (Z.of_nat (length l)))%Qc.
Proof.
  induction 1 as [|x l Hx Hl IH]; [done|].
  rewrite sumList_cons. cbn [length].
  replace (Z.of_nat (S (length l))) with (1 + Z.of_nat (length l)) by lia.
  rewrite Z2Qc_inj_add, Z2Qc_inj_1. by apply Qcplus_le_compat.
Qed.

Lemma unitEntries_unit pool (m : gmap string Qc) :
  unitRates m → Forall (λ x, (0 ≤ x)%Qc ∧ (x ≤ 1)%Qc) (unitEntries pool m).
Proof.
  intros Hm. rewrite unitEntries_cards.
  induction (cards pool) as [|c cs IH]; [constructor|].
  rewrite unitEntries_cons. apply Forall_app. split; [|done].
  apply Forall_replicate. destruct (m !! cardName c) as [x|] eqn:Hx; simpl; eauto.
Qed.

(** With win rates between 0 and 1, a raw strength lies between 0 and 60. *)
Lemma rawStrength_bounds pool (m : gmap string Qc) :
  unitRates m → (0 ≤ rawStrength pool m)%Qc ∧ (rawStrength pool m ≤ Qc_of_Z 60)%Qc.
Proof.
  intros Hm. split.
  { apply rawStrength_nonneg. intros name x Hx. by apply (Hm name x). }
  rewrite rawStrength_take.
  etrans; [apply sumList_le_length|].
  - apply Forall_take. rewrite sortDescending_Permutation.
    eapply Forall_impl; [by apply unitEntries_unit|]. by intros x [_ ?].
  - apply (proj1 (Z2Qc_inj_le _ 60)). rewrite length_take. lia.
Qed.

Lemma float_to_int_bounds (x : Qc) (N : Z) :
  (0 ≤ x)%Qc → (x ≤ Qc_of_Z N)%Qc → 0 ≤ float_to_int x ≤ N.
Proof.
  unfold Qcle, Qle, float_to_int. destruct x as [[n d] Hx]. simpl.
  intros H0 HN. rewrite Z.mul_1_r in H0, HN.
  rewrite Z.quot_div_nonneg by lia. split.
  - apply Z.div_pos; lia.
  - apply Z.div_le_upper_bound; lia.
Qed.


Lemma Qcmult_nonneg (a b : Qc) : (0 ≤ a)%Qc → (0 ≤ b)%Qc → (0 ≤ a * b)%Qc.
Proof. intros Ha Hb. rewrite <-(Qcmult_0_l b). by apply Qcmult_le_compat_r. Qed.

Lemma weighted_bounds (v0 v1 v2 : Qc) :
  (0 ≤ v0)%Qc ∧ (v0 ≤ Qc_of_Z 60)%Qc → (0 ≤ v1)%Qc ∧ (v1 ≤ Qc_of_Z 60)%Qc →
  (0 ≤ v2)%Qc ∧ (v2 ≤ Qc_of_Z 60)%Qc →
  0 ≤ float_to_int ((v0 + v1 * Qc_frac 4 5 + v2 * Qc_frac 2 5) * Qc_of_Z 100)%Qc
    ≤ 13200.
Proof.
  intros [H0 H0'] [H1 H1'] [H2 H2'].
  assert (0 ≤ Qc_frac 4 5)%Qc as H45 by done.
  assert (0 ≤ Qc_frac 2 5)%Qc as H25 by done.
  assert (0 ≤ Qc_of_Z 100)%Qc as H100 by done.
  apply float_to_int_bounds.
  - apply Qcmult_nonneg; [|done].
    repeat apply Qcplus_nonneg_nonneg; auto using Qcmult_nonneg.
  - assert (Qc_of_Z 13200
            = (Qc_of_Z 60 + Qc_of_Z 60 * Qc_frac 4 5 + Qc_of_Z 60 * Qc_frac 2 5)
              * Qc_of_Z 100)%Qc as -> by (by apply Qc_is_canon).
    apply Qcmult_le_compat_r; [|done].
    repeat apply Qcplus_le_compat; [done|by apply Qcmult_le_compat_r..].
Qed.

Lemma rawStrengths_bounds setCode pool (byDeck : gmap string (gmap string Qc)) :
  unitRatesByDeck byDeck →
  Forall (λ x, (0 ≤ x)%Qc ∧ (x ≤ Qc_of_Z 60)%Qc) (rawStrengths setCode pool byDeck).
Proof.
  intros Hunit. apply Forall_forall. intros x (d & -> & _)%list_elem_of_fmap.
  apply rawStrength_bounds. unfold winRatesOf.
  destruct (byDeck !! d) as [m|] eqn:Hd; simpl; [by eapply Hunit|].
  intros name y Hy. by rewrite lookup_empty in Hy.
Qed.

Lemma calculateStrength_unit_bounds (pool : PlayerPool)
    (byDeck : gmap string (gmap string Qc)) :
  unitRatesByDeck byDeck →
  (∀ deckId, (0 ≤ deckStrength pool (winRatesOf byDeck deckId))%Qc
             ∧ (deckStrength pool (winRatesOf byDeck deckId) ≤ Qc_of_Z 60)%Qc)
  ∧ ∃ s, calculateStrength pool byDeck = Some s ∧ 0 ≤ s ≤ 13200.
Proof.
  intros Hunit. split.
  { intros d. rewrite deckStrength_rawStrength. apply rawStrength_bounds.
    unfold winRatesOf. destruct (byDeck !! d) as [m|] eqn:Hd; simpl; [by eapply Hunit|].
    intros name y Hy. by rewrite lookup_empty in Hy. }
  unfold calculateStrength, calculateStrengthFor.
  rewrite (topThreeStrength_perm _ _ _ (deckStrengths_values currentSet pool byDeck)).
  rewrite topThreeStrength_sorted, deckStrengths_size. cbn zeta.
  set (n := length (getDecks currentSet)).
  set (raws := rawStrengths currentSet pool byDeck).
  assert (Forall (λ x, (0 ≤ x)%Qc ∧ (x ≤ Qc_of_Z 60)%Qc)
            (sortDescending (replicate n 0%Qc ++ raws))) as Hall.
  { rewrite sortDescending_Permutation. apply Forall_app. split.
    - by apply Forall_replicate.
    - by apply rawStrengths_bounds. }
  assert (3 ≤ length (sortDescending (replicate n 0%Qc ++ raws)))%nat as Hlen.
  { rewrite sortDescending_length, length_app, length_replicate.
    pose proof (getDecks_length currentSet). fold n in H. lia. }
  destruct (sortDescending (replicate n 0%Qc ++ raws)) as [|v0 [|v1 [|v2 rest]]];
    simpl in Hlen; try lia.
  apply Forall_cons in Hall as [H0 Hall]. apply Forall_cons in Hall as [H1 Hall].
  apply Forall_cons in Hall as [H2 _].
  eexists. split; [done|]. by apply weighted_bounds.
Qed.

(** X12. With win rates between 0 and 1, the raw strength of every archetype
    lies between 0 and 60 and the final strength between 0 and 13200. *)
Theorem calculateStrength_bounds (pool : PlayerPool)
    (byDeck : gmap string (gmap string Qc)) :
  unitRatesByDeck byDeck →
  (∀ deckId, (0 ≤ deckStrength pool (winRatesOf byDeck deckId))%Qc
             ∧ (deckStrength pool (winRatesOf byDeck deckId) ≤ Qc_of_Z 60)%Qc)
  ∧ ∃ s, calculateStrength pool byDeck = Some s ∧ 0 ≤ s ≤ 13200.
Proof. apply calculateStrength_unit_bounds. Qed.

Lemma ex_maps_unit : unitRatesByDeck ex_maps.
Proof.
  unfold unitRatesByDeck, unitRates, ex_maps, ex_winRates.
  intros d m [_ <-]%lookup_singleton_Some name x [_ <-]%lookup_singleton_Some. done.
Qed.

Lemma calculateStrength_bounds_witness :
  ∃ s, calculateStrength ex_pool ex_maps = Some s ∧ 0 ≤ s ≤ 13200.
Proof. exact (proj2 (calculateStrength_bounds ex_pool ex_maps ex_maps_unit)). Defined.

Lemma descending_replicate (n : nat) (x : Qc) : descending (replicate n x).
Proof.
  induction n as [|n IH]; simpl; constructor; [done|].
  apply Forall_replicate. apply Qcle_refl.
Qed.

Lemma sortDescending_zeros (l : list Qc) (n : nat) :
  Forall (λ x, (0 ≤ x)%Qc) l →
  sortDescending (replicate n 0%Qc ++ l) = sortDescending l ++ replicate n 0%Qc.
Proof.
  intros Hl. symmetry. apply sortDescending_unique.
  - apply StronglySorted_app_2;
      [|apply sortDescending_descending|apply descending_replicate].
    intros x1 x2 H1 ->%elem_of_replicate_inv. unfold flip.
    rewrite sortDescending_Permutation in H1. rewrite Forall_forall in Hl. by apply Hl.
  - by rewrite sortDescending_Permutation, Permutation_app_comm.
Qed.

Lemma sumList_app (l1 l2 : list Qc) : sumList (l1 ++ l2) = (sumList l1 + sumList l2)%Qc.
Proof.
  induction l1 as [|x l1 IH].
  - change (sumList []) with 0%Qc. by rewrite Qcplus_0_l.
  - rewrite <-app_comm_cons, !sumList_cons, IH. ring.
Qed.

Lemma sumList_zeros (n : nat) : sumList (replicate n 0%Qc) = 0%Qc.
Proof.
  induction n as [|n IH]; [done|].
  change (replicate (S n) 0%Qc) with (0%Qc :: replicate n 0%Qc).
  by rewrite sumList_cons, IH.
Qed.

Lemma deckStrength_zero_entries (pool pool' : PlayerPool) (m : gmap string Qc)
    (c : DeckSlot) :
  (∀ name x, m !! name = Some x → (0 ≤ x)%Qc) →
  default 0%Qc (m !! cardName c) = 0%Qc →
  cards pool' ≡ₚ c :: cards pool →
  deckStrength pool' m = deckStrength pool m.
Proof.
  intros Hpos Hzero Hp.
  rewrite (deckStrength_perm pool' (mkPool (c :: cards pool))) by done.
  rewrite !deckStrength_rawStrength, !rawStrength_take.
  rewrite unitEntries_cons, Hzero, <-unitEntries_cards.
  rewrite sortDescending_zeros by by apply unitEntries_nonneg.
  by rewrite take_app, sumList_app, take_replicate, sumList_zeros, Qcplus_0_r.
Qed.

(** X13. With win rates that are not negative, a card that an archetype's
    map does not rate (or rates 0) adds nothing to that archetype's raw
    strength, in whatever number of copies; if no archetype rates it, the
    final strength of the pool is unchanged. *)
Theorem unrated_card_adds_nothing (pool pool' : PlayerPool)
    (byDeck : gmap string (gmap string Qc)) (c : DeckSlot) :
  (∀ deckId m name x, byDeck !! deckId = Some m → m !! name = Some x → (0 ≤ x)%Qc) →
  cards pool' ≡ₚ c :: cards pool →
  (∀ deckId, default 0%Qc (winRatesOf byDeck deckId !! cardName c) = 0%Qc →
     deckStrength pool' (winRatesOf byDeck deckId)
     = deckStrength pool (winRatesOf byDeck deckId))
  ∧ ((∀ deckId, default 0%Qc (winRatesOf byDeck deckId !! cardName c) = 0%Qc) →
     calculateStrength pool' byDeck = calculateStrength pool byDeck).
Proof.
  intros Hpos Hp.
  assert (∀ deckId, default 0%Qc (winRatesOf byDeck deckId !! cardName c) = 0%Qc →
            deckStrength pool' (winRatesOf byDeck deckId)
            = deckStrength pool (winRatesOf byDeck deckId)) as Hdeck.
  { intros d Hzero. apply (deckStrength_zero_entries pool pool' _ c); [|done..].
    intros name x. unfold winRatesOf.
    destruct (byDeck !! d) as [m|] eqn:Hd; simpl; [by eapply Hpos|done]. }
  split; [done|]. intros Hzero.
  unfold calculateStrength, calculateStrengthFor.
  assert (deckStrengths currentSet pool' byDeck = deckStrengths currentSet pool byDeck)
    as ->; [|done].
  apply map_eq. intros d. rewrite !deckStrengths_lookup.
  case_decide; [|done]. by rewrite Hdeck.
Qed.

Lemma unrated_card_adds_nothing_witness :
  calculateStrength ex_pool_with_island ex_maps = calculateStrength ex_pool ex_maps.
Proof.
  apply (proj2 (unrated_card_adds_nothing ex_pool ex_pool_with_island ex_maps
                  (slot 7 "Island") ex_maps_nonneg (Permutation_swap _ _ _))).
  intros d. unfold winRatesOf, ex_maps.
  destruct (decide (d = "WR"%string)) as [->|Hne].
  - by rewrite lookup_singleton_eq.
  - by rewrite lookup_singleton_ne.
Defined.

(** ** The win-rate map of an archetype *)

Lemma gihByCard_lookup_Some cp name x :
  gihByCard cp !! name = Some x →
  ∃ r, r ∈ cp ∧ perf_Name r = name ∧ x = filteredWinRate r.
Proof.
  induction cp as [|r cp IH] using rev_ind; [done|].
  rewrite gihByCard_snoc. destruct (decide (perf_Name r = name)) as [<-|Hne].
  - rewrite gihByCard_step_lookup. intros [= <-]. exists r.
    split; [apply elem_of_app; right; apply list_elem_of_here|done].
  - rewrite gihByCard_step_lookup_ne by done. intros (r' & Hr' & ?)%IH.
    exists r'. split; [apply elem_of_app; by left|done].
Qed.

Lemma gihByCard_is_Some cp name :
  is_Some (gihByCard cp !! name) ↔ name ∈ perf_Name <$> cp.
Proof.
  induction cp as [|r cp IH] using rev_ind.
  { split; [by intros [? ?]|by intros ?%elem_of_nil]. }
  rewrite gihByCard_snoc, fmap_app, elem_of_app. simpl.
  rewrite list_elem_of_singleton.
  destruct (decide (perf_Name r = name)) as [<-|Hne].
  - rewrite gihByCard_step_lookup. split; [auto|by eexists].
  - rewrite gihByCard_step_lookup_ne, IH by done. split; [auto|]. by intros [?|?].
Qed.

(** X14. The win-rate map built from the performance records of an
    archetype has an entry for exactly the card names of the records (a
    suppressed card is present with 0, not absent); every entry is 0 or the
    observed rate of a record of that name whose count exceeds its threshold;
    so observed rates between 0 and 1 give a map with rates between 0 and 1. *)
Theorem gihByCard_entries (cp : list CardPerformanceEntry) :
  (∀ name, is_Some (gihByCard cp !! name) ↔ name ∈ perf_Name <$> cp)
  ∧ (∀ name x, gihByCard cp !! name = Some x →
       x = 0%Qc
       ∨ ∃ r, r ∈ cp ∧ perf_Name r = name ∧ x = EverDrawnWinRate r
              ∧ EverDrawnGameCount r > getCardPrevalenceThreshold (perf_Rarity r))
  ∧ ((∀ r, r ∈ cp → (0 ≤ EverDrawnWinRate r)%Qc ∧ (EverDrawnWinRate r ≤ 1)%Qc) →
     unitRates (gihByCard cp)).
Proof.
  assert (∀ name x, gihByCard cp !! name = Some x →
       x = 0%Qc
       ∨ ∃ r, r ∈ cp ∧ perf_Name r = name ∧ x = EverDrawnWinRate r
              ∧ EverDrawnGameCount r > getCardPrevalenceThreshold (perf_Rarity r))
    as Hentry.
  { intros name x (r & Hr & Hname & ->)%gihByCard_lookup_Some.
    unfold filteredWinRate. case_decide; [|by left]. right. by exists r. }
  split; [apply gihByCard_is_Some|]. split; [done|].
  intros Hrates name x [->|(r & Hr & _ & -> & _)]%Hentry; [done|by apply Hrates].
Qed.

Lemma gihByCard_entries_witness :
  unitRates (gihByCard [ex_never_drawn; ex_at_threshold; ex_above_threshold]).
Proof.
  apply (proj2 (proj2 (gihByCard_entries
                         [ex_never_drawn; ex_at_threshold; ex_above_threshold]))).
  intros r Hr. repeat (apply elem_of_cons in Hr as [->|Hr]); [done..|].
  by apply elem_of_nil in Hr.
Defined.

(** ** Populating a pool *)

Lemma getWebResponseString_first_ok env uri w body :
  attemptReply env uri w 0 = Reply 200 body None →
  getWebResponseString env uri w = Done (body, None) (afterAttempts uri w 1 0).
Proof.
  intros Hok.
  assert (∀ k, (0 < k)%nat → ¬ statusFailures env uri w k) as Hno.
  { intros k Hk Hf. destruct (Hf 0%nat Hk) as [e He]. rewrite Hok in He.
    by apply statusFailure_not_ok in He. }
  destruct (getWebResponseString_result env uri w)
    as [k body' Hk Hfails Hok'|err Hfails _ _|k msg Hk Hfails Hfatal].
  - destruct k as [|k]; [|by destruct (Hno (S k) ltac:(lia))].
    rewrite Hok in Hok'. by injection Hok' as <-.
  - by destruct (Hno 3%nat ltac:(lia)).
  - destruct k as [|k]; [|by destruct (Hno (S k) ltac:(lia))].
    rewrite Hok in Hfatal. by destruct Hfatal as [?|[? ?]].
Qed.

(** A resolution that returns a card leaves it in the store. *)
Lemma getCard_success_cached env name w c w' :
  getCard env name w = Done (c, None) w' →
  store w ⊆ store w'
  ∧ ∃ payload, store w' !! getCard_cardName name = Some payload
               ∧ c = json_Unmarshal_card env payload.
Proof.
  intros Hrun. split.
  { pose proof (getCard_store_writes env name w) as [H _]. by rewrite Hrun in H. }
  destruct (store w !! getCard_cardName name) as [payload|] eqn:Hstore.
  - rewrite (getCard_hit env name w payload Hstore) in Hrun. simplify_eq. eauto.
  - destruct (getCard_miss_success env name w c w' Hstore Hrun)
      as (body & -> & _ & Hst & _).
    exists body. by rewrite Hst, lookup_insert_eq.
Qed.

Lemma fetchCardData_step_run env lib st c w :
  fetchCardData_step env lib st c w
  = match getCard env (cardName c) w with
    | Done (resultCard, None) w' =>
        Done ({| player := player st.1; record := record st.1; uri := uri st.1;
                 isAlive := isAlive st.1; team := team st.1;
                 cards := cards st.1
                            ++ [ {| amount := amount c; cardName := cardName c;
                                    card := Some resultCard |} ];
                 facts := facts st.1 |},
              <[strings_ToUpper lib (Set_ resultCard) := 1]> st.2) w'
    | Done (_, Some err) w' => Panicked err w'
    | Panicked msg w' => Panicked msg w'
    end.
Proof.
  unfold fetchCardData_step. rewrite bind_run.
  by destruct (getCard env (cardName c) w) as [[rc [e|]] w'|msg w'].
Qed.

Lemma rangeM_cons {A B} (body : A → B → M A) (a : A) (x : B) (l : list B) (w : World) :
  rangeM body a (x :: l) w
  = match body a x w with
    | Done a' w' => rangeM body a' l w'
    | Panicked msg w' => Panicked msg w'
    end.
Proof. done. Qed.

Lemma fetchedSlot_later env lib w w' sets k c new :
  store w ⊆ store w' → fetchedSlot env lib w sets c new →
  fetchedSlot env lib w' (<[k := 1]> sets) c new.
Proof.
  intros Hsub (Ha & Hn & payload & Hst & Hc & Hsets).
  split; [done|]. split; [done|]. exists payload.
  split; [by eapply lookup_weaken|]. split; [done|].
  destruct (decide (k = strings_ToUpper lib (Set_ (json_Unmarshal_card env payload))))
    as [->|Hne]; [by rewrite lookup_insert_eq|by rewrite lookup_insert_ne].
Qed.

Lemma fetchCardData_in_success env lib visited :
  ∀ pool sets w pool' sets' w',
    fetchCardData_in env lib visited pool sets w = Done (pool', sets') w' →
    store w ⊆ store w'
    ∧ (∀ k, sets !! k = Some 1 → sets' !! k = Some 1)
    ∧ player pool' = player pool ∧ record pool' = record pool ∧ uri pool' = uri pool
    ∧ isAlive pool' = isAlive pool ∧ team pool' = team pool ∧ facts pool' = facts pool
    ∧ ∃ new, cards pool' = cards pool ++ new
             ∧ Forall2 (fetchedSlot env lib w' sets') visited new.
Proof.
  unfold fetchCardData_in.
  induction visited as [|c visited IH]; intros pool sets w pool' sets' w' Hrun.
  { injection Hrun as <- <- <-. do 8 (split; [done|]). exists [].
    split; [by rewrite app_nil_r|constructor]. }
  rewrite rangeM_cons, fetchCardData_step_run in Hrun.
  destruct (getCard env (cardName c) w) as [[rc [e|]] w1|msg w1] eqn:Hget; [done| |done].
  apply getCard_success_cached in Hget as (Hsub1 & payload & Hst & ->).
  apply IH in Hrun
    as (Hsub & Hsets & Hp & Hr & Hu & Ha & Ht & Hf & new & Hcards & Hnew).
  simpl in *. split; [by trans (store w1)|]. split.
  { intros k Hk. apply Hsets.
    destruct (decide (strings_ToUpper lib (Set_ (json_Unmarshal_card env payload)) = k))
      as [->|Hne]; [by rewrite lookup_insert_eq|by rewrite lookup_insert_ne]. }
  do 6 (split; [done|]).
  eexists (_ :: new). split; [by rewrite Hcards, <-app_assoc|].
  constructor; [|done]. split; [done|]. split; [done|]. exists payload.
  split; [by eapply lookup_weaken|]. split; [done|].
  apply Hsets. by rewrite lookup_insert_eq.
Qed.

(** X15. When [fetchCardData] returns, the pool has gained one slot per
    flattened card, in the order of the visit, with the same amount and name;
    the card of each slot is the parse of the payload that the store now
    holds under the normalized name; the set of each card is registered in
    [setsInPools]; the store has only grown and the other fields of the pool
    are unchanged. *)
Theorem fetchCardData_populates env lib visited pool sets w pool' sets' w' :
  fetchCardData_in env lib visited pool sets w = Done (pool', sets') w' →
  store w ⊆ store w'
  ∧ (∀ k, sets !! k = Some 1 → sets' !! k = Some 1)
  ∧ player pool' = player pool ∧ record pool' = record pool ∧ uri pool' = uri pool
  ∧ isAlive pool' = isAlive pool ∧ team pool' = team pool ∧ facts pool' = facts pool
  ∧ ∃ new, cards pool' = cards pool ++ new
           ∧ Forall2 (fetchedSlot env lib w' sets') visited new.
Proof. apply fetchCardData_in_success. Qed.





Lemma ex_fetch_run :
  fetchCardData_in ex_env_fallback ex_lib [slot 2 "Shock"] (mkPool []) ∅ ex_world
  = Done (mkPool [ {| amount := 2; cardName := "Shock";
                      card := Some (ex_card "{Shock}") |} ],
          {[ ""%string := 1 ]}) ex_world_after.
Proof. by vm_compute. Qed.

Lemma fetchCardData_populates_witness :
  store ex_world ⊆ store ex_world_after
  ∧ ∃ new, cards (mkPool [ {| amount := 2; cardName := "Shock";
                               card := Some (ex_card "{Shock}") |} ])
           = cards (mkPool []) ++ new
           ∧ Forall2 (fetchedSlot ex_env_fallback ex_lib ex_world_after {[ ""%string := 1 ]})
               [slot 2 "Shock"] new.
Proof.
  destruct (fetchCardData_populates _ _ _ _ _ _ _ _ _ ex_fetch_run)
    as (H1 & _ & _ & _ & _ & _ & _ & _ & H2).
  exact (conj H1 H2).
Defined.

(** X17. [getCardsFromPool] never returns an error: when the pool source
    answers with status 200 it returns the parsed deck after one pause of
    [sealedDeckPauseMs]; when it answers three times with another status the
    run panics with the error of the last attempt; the store is not touched
    either way. *)
Theorem getCardsFromPool_fail_fast env lib name uri w :
  store (worldOf (getCardsFromPool env lib name uri w)) = store w
  ∧ (∀ body, attemptReply env uri w 0 = Reply 200 body None →
       getCardsFromPool env lib name uri w
       = Done (json_Unmarshal_deck lib body)
              (slept sealedDeckPauseMs (afterAttempts uri w 1 0)))
  ∧ (statusFailures env uri w 3 →
       ∃ err, statusFailure uri (attemptReply env uri w 2) err
              ∧ getCardsFromPool env lib name uri w
                = Panicked err (afterAttempts uri w 3 3)).
Proof.
  unfold getCardsFromPool. rewrite bind_run. split; [|split].
  - pose proof (getWebResponseString_result env uri w) as H.
    apply LookupResult_store in H as [Hs _].
    by destruct (getWebResponseString env uri w) as [[body [e|]] w1|msg w1].
  - intros body Hok. by rewrite (getWebResponseString_first_ok env uri w body Hok).
  - intros Hfails.
    destruct (getWebResponseString_exhausted env uri w Hfails) as (e & He & ->).
    by exists e.
Qed.

Lemma getCardsFromPool_fail_fast_witness :
  ∃ err, statusFailure "u" (attemptReply ex_env_404 "u" ex_world 2) err
         ∧ getCardsFromPool ex_env_404 ex_lib "p" "u" ex_world
           = Panicked err (afterAttempts "u" ex_world 3 3).
Proof.
  apply (proj2 (proj2 (getCardsFromPool_fail_fast ex_env_404 ex_lib "p" "u" ex_world))).
  intros i Hi. exists (statusError 404 "u"). by exists 404, ""%string, None.
Defined.

(** ** Performance data *)

Lemma seventeenLandsGet_run env now setCode deckId w :
  seventeenLandsGet env now setCode deckId w
  = match getWebResponseString env (seventeenLandsUri now setCode deckId) w with
    | Done r w1 => Done r (slept seventeenLandsPauseMs w1)
    | Panicked msg w1 => Panicked msg w1
    end.
Proof.
  unfold seventeenLandsGet. rewrite bind_run.
  by destruct (getWebResponseString env _ w) as [[body err] w1|msg w1].
Qed.

Lemma getCardPerformanceData_hit env lib nowKey nowUri setCode deckId w payload :
  store w !! perfKey nowKey setCode deckId = Some payload →
  strings_TrimSpace lib payload ≠ ""%string →
  getCardPerformanceData env lib nowKey nowUri setCode deckId false w
  = Done (json_Unmarshal_perf lib payload, None) w.
Proof.
  intros Hst Hblank. unfold getCardPerformanceData. rewrite bind_run. unfold dbGet.
  rewrite Hst. by rewrite bool_decide_eq_false_2, bool_decide_eq_false_2 by auto.
Qed.

Lemma getCardPerformanceData_refresh env lib nowKey nowUri setCode deckId force w :
  let key := perfKey nowKey setCode deckId in
  needsRefresh lib w key force →
  getCardPerformanceData env lib nowKey nowUri setCode deckId force w
  = match getWebResponseString env (seventeenLandsUri nowUri setCode deckId) w with
    | Panicked msg w1 => Panicked msg w1
    | Done (_, Some _) w1 =>
        Done ([], Some ("Could not find card perf data in db or on 17lands.com: "
                          +:+ deckId))
             (slept seventeenLandsPauseMs w1)
    | Done (body, None) w1 =>
        match txn_Set env key body with
        | None => Done (json_Unmarshal_perf lib body, None)
                       (stored key body (slept seventeenLandsPauseMs w1))
        | Some err => Panicked err (slept seventeenLandsPauseMs w1)
        end
    end.
Proof.
  intros key Hneed. unfold getCardPerformanceData. fold key. rewrite bind_run.
  unfold dbGet.
  assert (∀ rawJson (err : error),
            (store w !! key = None → err ≠ None) →
            (∀ payload, store w !! key = Some payload → rawJson = payload) →
            bool_decide (err ≠ None)
            || bool_decide (strings_TrimSpace lib rawJson = ""%string) || force = true)
    as Hcond.
  { intros rawJson err Herr Hraw. destruct Hneed as [Hn|[(payload & Hp & Hb)|Hf]].
    - by rewrite bool_decide_eq_true_2 by auto.
    - rewrite (Hraw payload Hp), (bool_decide_eq_true_2 _ Hb). by rewrite orb_true_r.
    - by rewrite Hf, orb_true_r. }
  assert (∀ rawJson (err : error),
    (store w !! key = None → err ≠ None) →
    (∀ payload, store w !! key = Some payload → rawJson = payload) →
    (if bool_decide (err ≠ None)
        || bool_decide (strings_TrimSpace lib rawJson = ""%string) || force
     then
       '(rawJson, err) ← seventeenLandsGet env nowUri setCode deckId;
       match err with
       | Some _ =>
           mret ([], Some ("Could not find card perf data in db or on 17lands.com: "
                             +:+ deckId))
       | None =>
           err ← dbSet env key rawJson;
           checkError err;; mret (json_Unmarshal_perf lib rawJson, None)
       end
     else mret (json_Unmarshal_perf lib rawJson, None)) w
    = match getWebResponseString env (seventeenLandsUri nowUri setCode deckId) w with
      | Panicked msg w1 => Panicked msg w1
      | Done (_, Some _) w1 =>
          Done ([], Some ("Could not find card perf data in db or on 17lands.com: "
                            +:+ deckId))
               (slept seventeenLandsPauseMs w1)
      | Done (body, None) w1 =>
          match txn_Set env key body with
          | None => Done (json_Unmarshal_perf lib body, None)
                         (stored key body (slept seventeenLandsPauseMs w1))
          | Some err => Panicked err (slept seventeenLandsPauseMs w1)
          end
      end) as Hbody.
  { intros rawJson err Herr Hraw. rewrite (Hcond rawJson err Herr Hraw).
    rewrite bind_run, seventeenLandsGet_run.
    destruct (getWebResponseString env _ w) as [[body [e|]] w1|msg w1]; [done| |done].
    rewrite bind_run. unfold dbSet. by destruct (txn_Set env key body). }
  destruct (store w !! key) as [payload|] eqn:Hst.
  - apply Hbody; [done|]. by intros ? [= <-].
  - apply Hbody; [done|done].
Qed.


(** X19. When a refresh is due (no entry, a blank entry or a forced refresh)
    and the performance source answers three times with a status other than
    200, [getCardPerformanceData] returns no records and the not-found error
    naming the deck id; the store is left as it was, so an entry that was
    there is neither used nor removed. *)
Theorem getCardPerformanceData_source_down env lib nowKey nowUri setCode deckId
    force w :
  let key := perfKey nowKey setCode deckId in
  let uri := seventeenLandsUri nowUri setCode deckId in
  needsRefresh lib w key force →
  statusFailures env uri w 3 →
  getCardPerformanceData env lib nowKey nowUri setCode deckId force w
  = Done ([], Some ("Could not find card perf data in db or on 17lands.com: "
                      +:+ deckId))
         {| requests := requests w ++ replicate 3 uri;
            sleeps := sleeps w ++ replicate 3 webRetryMs ++ [seventeenLandsPauseMs];
            store := store w; writes := writes w |}.
Proof.
  intros key uri Hneed Hfails. rewrite getCardPerformanceData_refresh by done.
  fold uri. destruct (getWebResponseString_exhausted env uri w Hfails) as (e & _ & ->).
  f_equal. unfold slept, afterAttempts. simpl. f_equal. by rewrite <-app_assoc.
Qed.


Lemma getCardPerformanceData_source_down_witness :
  getCardPerformanceData ex_env_404 ex_lib ex_now ex_now "DOM" "WU" true ex_world_perf
  = Done ([], Some "Could not find card perf data in db or on 17lands.com: WU"%string)
         {| requests := replicate 3 (seventeenLandsUri ex_now "DOM" "WU");
            sleeps := replicate 3 webRetryMs ++ [seventeenLandsPauseMs];
            store := store ex_world_perf; writes := [] |}.
Proof.
  apply (getCardPerformanceData_source_down ex_env_404 ex_lib ex_now ex_now
           "DOM" "WU" true ex_world_perf).
  - right; right. reflexivity.
  - intros i Hi. exists (statusError 404 (seventeenLandsUri ex_now "DOM" "WU")).
    by exists 404, ""%string, None.
Defined.

Lemma perfKey_same (now now' : Now3) (setCode deckId : string) :
  setCode ≠ currentSet
  ∨ (Year now'.1.1 = Year now.1.1 ∧ Month now'.1.2 = Month now.1.2
     ∧ Day now'.2 = Day now.2) →
  perfKey now' setCode deckId = perfKey now setCode deckId.
Proof.
  unfold perfKey, dbKey, dateKey. intros [Hne|(-> & -> & ->)]; [|done].
  by rewrite !decide_False.
Qed.

(** A call that returns records leaves their payload in the store. *)
Lemma getCardPerformanceData_success env lib nowKey nowUri setCode deckId force w cp w' :
  getCardPerformanceData env lib nowKey nowUri setCode deckId force w
  = Done (cp, None) w' →
  ∃ payload, store w' !! perfKey nowKey setCode deckId = Some payload
             ∧ cp = json_Unmarshal_perf lib payload.
Proof.
  set (key := perfKey nowKey setCode deckId).
  assert (needsRefresh lib w key force
          ∨ ∃ payload, store w !! key = Some payload
                       ∧ strings_TrimSpace lib payload ≠ ""%string ∧ force = false)
    as [Hneed|(payload & Hst & Hb & ->)].
  { destruct (store w !! key) as [payload|] eqn:Hst; [|by left; left].
    destruct (decide (strings_TrimSpace lib payload = ""%string)) as [Hb|Hb];
      [left; right; left; eauto|].
    destruct force; [by left; right; right|]. right. by exists payload. }
  - rewrite getCardPerformanceData_refresh by done. fold key.
    destruct (getWebResponseString env _ w) as [[body [e|]] w1|msg w1]; [done| |done].
    destruct (txn_Set env key body); [done|]. intros [= <- <-].
    exists body. split; [|done]. simpl. by rewrite lookup_insert_eq.
  - rewrite (getCardPerformanceData_hit env lib nowKey nowUri setCode deckId w payload)
      by done.
    intros [= <- <-]. eauto.
Qed.

(** X20. Performance data is fetched once per key: after a call that
    returned records, a later call without forced refresh for the same set and
    deck id returns the same records from the store and leaves the world as
    it is, on any later day for a set other than the current one and on the
    same calendar day for the current set, as long as the stored payload is
    not blank. *)
Theorem getCardPerformanceData_second_call env lib nowKey nowUri nowKey' nowUri'
    setCode deckId force w cp w' :
  getCardPerformanceData env lib nowKey nowUri setCode deckId force w
  = Done (cp, None) w' →
  setCode ≠ currentSet
  ∨ (Year nowKey'.1.1 = Year nowKey.1.1 ∧ Month nowKey'.1.2 = Month nowKey.1.2
     ∧ Day nowKey'.2 = Day nowKey.2) →
  (∀ payload, store w' !! perfKey nowKey setCode deckId = Some payload →
     strings_TrimSpace lib payload ≠ ""%string) →
  getCardPerformanceData env lib nowKey' nowUri' setCode deckId false w'
  = Done (cp, None) w'.
Proof.
  intros Hrun Hsame Hblank.
  apply getCardPerformanceData_success in Hrun as (payload & Hst & ->).
  apply getCardPerformanceData_hit; [by rewrite (perfKey_same nowKey)|by apply Hblank].
Qed.

Lemma ex_perf_first_call :
  getCardPerformanceData ex_env_perf ex_lib ex_now ex_now "DOM" "WU" false ex_world
  = Done ([ex_above_threshold], None)
         {| requests := [seventeenLandsUri ex_now "DOM" "WU"];
            sleeps := [seventeenLandsPauseMs];
            store := {[ "17lands_DOM_WU"%string := "[perf]"%string ]};
            writes := [("17lands_DOM_WU", "[perf]")]%string |}.
Proof. by vm_compute. Qed.

Lemma getCardPerformanceData_second_call_witness :
  getCardPerformanceData ex_env_perf ex_lib ex_later ex_later "DOM" "WU" false
    {| requests := [seventeenLandsUri ex_now "DOM" "WU"];
       sleeps := [seventeenLandsPauseMs];
       store := {[ "17lands_DOM_WU"%string := "[perf]"%string ]};
       writes := [("17lands_DOM_WU", "[perf]")]%string |}
  = Done ([ex_above_threshold], None)
      {| requests := [seventeenLandsUri ex_now "DOM" "WU"];
         sleeps := [seventeenLandsPauseMs];
         store := {[ "17lands_DOM_WU"%string := "[perf]"%string ]};
         writes := [("17lands_DOM_WU", "[perf]")]%string |}.
Proof.
  apply (getCardPerformanceData_second_call ex_env_perf ex_lib ex_now ex_now
           ex_later ex_later "DOM" "WU" false ex_world _ _ ex_perf_first_call).
  - left. by vm_compute.
  - intros payload Hp. vm_compute in Hp. injection Hp as <-. by vm_compute.
Defined.

(** ** Loading the performance data of all sets *)












(** ** No performance data *)








(** ** Populating the pools *)

Lemma flatten_cardName deck name c : flatten deck !! name = Some c → cardName c = name.
Proof.
  rewrite flatten_lookup. unfold slotOf.
  destruct (mergedAmount _); simpl; [|done]. by intros [= <-].
Qed.

Lemma fetched_populatedFrom env lib w sets deck new :
  Forall2 (fetchedSlot env lib w sets) ((map_to_list (flatten deck)).*2) new →
  populatedFrom env lib (store w) sets deck new.
Proof.
  intros Hnew.
  assert (cardName <$> new = (map_to_list (flatten deck)).*1) as Hnames.
  { transitivity (cardName <$> (map_to_list (flatten deck)).*2).
    - symmetry. induction Hnew as [|c n l k (_ & Hn & _) _ IH]; [done|].
      rewrite !fmap_cons. by f_equal.
    - rewrite <-list_fmap_compose. apply list_fmap_ext.
      intros i [k c] Hi%list_elem_of_lookup_2%elem_of_map_to_list. simpl.
      by eapply flatten_cardName. }
  split; [|split].
  - rewrite Hnames. apply NoDup_fst_map_to_list.
  - intros name. rewrite Hnames, list_elem_of_fmap. split.
    + intros ([k c] & -> & Hin%elem_of_map_to_list). by eexists.
    + intros [c Hc]. exists (name, c). split; [done|]. by apply elem_of_map_to_list.
  - intros n (i & Hi)%list_elem_of_lookup_1.
    destruct (Forall2_lookup_r _ _ _ _ _ Hnew Hi) as (c & Hc & Ha & Hn & Hcard).
    apply list_elem_of_lookup_2, list_elem_of_fmap in Hc
      as ([k c'] & -> & Hin%elem_of_map_to_list).
    simpl in *. pose proof (flatten_cardName _ _ _ Hin) as Hk.
    rewrite Hn. split; [by rewrite Hk, Hin, Ha|done].
Qed.

Lemma populatedFrom_mono env lib st st' sets sets' deck new :
  st ⊆ st' → (∀ k, sets !! k = Some 1 → sets' !! k = Some 1) →
  populatedFrom env lib st sets deck new → populatedFrom env lib st' sets' deck new.
Proof.
  intros Hst Hsets (Hnd & Hnames & Hslots). split; [done|]. split; [done|].
  intros n (Ha & payload & Hp & Hc & Hs)%Hslots. split; [done|].
  exists payload. split; [by eapply lookup_weaken|]. split; [done|]. by apply Hsets.
Qed.

Lemma populated_mono env lib st st' sets sets' pool pool' :
  st ⊆ st' → (∀ k, sets !! k = Some 1 → sets' !! k = Some 1) →
  populated env lib st sets pool pool' → populated env lib st' sets' pool pool'.
Proof.
  intros Hst Hsets (?&?&?&?&?&?& body & new & Hcards & Hnew).
  do 6 (split; [done|]). exists body, new. split; [done|].
  by eapply populatedFrom_mono.
Qed.

Lemma getCardsFromPool_success env lib name uri w deck w1 :
  getCardsFromPool env lib name uri w = Done deck w1 →
  store w1 = store w
  ∧ ∃ body, deck = json_Unmarshal_deck lib body ∧ deckFetched env uri w body w1.
Proof.
  unfold getCardsFromPool. rewrite bind_run.
  destruct (getWebResponseString_result env uri w)
    as [k body Hk Hfails Hok|err _ _ Hlast|k msg _ _ _]; [| |done].
  - intros [= <- <-]. split; [done|]. exists body. split; [done|]. by exists k.
  - by destruct (Hlast 2%nat eq_refl) as (e & -> & _).
Qed.

Lemma populatePools_step_success env lib acc sets pool w res sets' w' :
  populatePools_step env lib (acc, sets) pool w = Done (res, sets') w' →
  store w ⊆ store w'
  ∧ (∀ k, sets !! k = Some 1 → sets' !! k = Some 1)
  ∧ ∃ pool', res = acc ++ [pool']
             ∧ populated env lib (store w') sets' pool pool'
             ∧ poolTurn env lib w sets pool pool' sets' w'.
Proof.
  unfold populatePools_step. rewrite bind_run.
  destruct (getCardsFromPool env lib (player pool) (uri pool) w) as [deck w1|msg w1]
    eqn:Hdeck; [|done].
  apply getCardsFromPool_success in Hdeck as (Hs1 & body & -> & Hbody).
  rewrite bind_run. simpl.
  destruct (fetchCardData env lib pool sets _ w1) as [[pool' sets1] w2|msg w2] eqn:Hfetch;
    [|done].
  intros [= <- <- <-].
  apply fetchCardData_in_success in Hfetch
    as (Hsub & Hsets & Hp & Hr & Hu & Ha & Ht & Hf & new & Hcards & Hnew).
  apply fetched_populatedFrom in Hnew.
  split; [by rewrite <-Hs1|]. split; [done|].
  exists pool'. split; [done|]. split.
  - do 6 (split; [done|]). by exists body, new.
  - by exists body, w1, new.
Qed.

Lemma populatePools_from env lib pools :
  ∀ acc sets w res sets' w',
    rangeM (populatePools_step env lib) (acc, sets) pools w = Done (res, sets') w' →
    store w ⊆ store w'
    ∧ (∀ k, sets !! k = Some 1 → sets' !! k = Some 1)
    ∧ ∃ pools', res = acc ++ pools'
                ∧ Forall2 (populated env lib (store w') sets') pools pools'
                ∧ PopulateRun env lib w sets pools pools' sets' w'.
Proof.
  induction pools as [|pool pools IH]; intros acc sets w res sets' w' Hrun.
  { injection Hrun as <- <- <-. split; [done|]. split; [done|].
    exists []. split; [by rewrite app_nil_r|]. split; constructor. }
  rewrite rangeM_cons in Hrun.
  destruct (populatePools_step env lib (acc, sets) pool w) as [[res1 sets1] w1|msg w1]
    eqn:Hstep; [|done].
  apply populatePools_step_success in Hstep
    as (Hsub1 & Hsets1 & pool' & -> & Hpool & Hturn).
  apply IH in Hrun as (Hsub & Hsets & pools' & -> & Hpools & Hturns).
  split; [by trans (store w1)|]. split; [by auto|].
  exists (pool' :: pools'). split; [by rewrite <-app_assoc|]. split.
  - constructor; [by eapply populated_mono|done].
  - by econstructor.
Qed.

(** X24. When [populatePools] returns, the pools of the batch have had their
    turns one after the other, in the order of the batch: at its turn a pool
    is sent the deck parsed from the first reply with status 200 to a request
    for its own URI, and gains one slot per distinct card name of that deck,
    with the amount that [flatten] gives the name and the card that the store
    then holds for it; the names of the new slots are pairwise distinct.  At
    the end every pool has its other fields unchanged and the store still
    holds the card of each of its new slots; the set of every card is
    registered in [setsInPools], from which nothing is removed; and the store
    has only grown. *)
Theorem populatePools_populates env lib pools sets w pools' sets' w' :
  populatePools env lib pools sets w = Done (pools', sets') w' →
  store w ⊆ store w'
  ∧ (∀ k, sets !! k = Some 1 → sets' !! k = Some 1)
  ∧ Forall2 (populated env lib (store w') sets') pools pools'
  ∧ PopulateRun env lib w sets pools pools' sets' w'.
Proof.
  intros Hrun.
  apply populatePools_from in Hrun as (Hsub & Hsets & l & -> & Hl & Hturns).
  by rewrite app_nil_l.
Qed.

Lemma populatePools_populates_witness :
  ∃ pools' sets' w',
    populatePools ex_env_perf ex_lib [mkPool []; mkPool []] ∅ ex_world
    = Done (pools', sets') w'
    ∧ store ex_world ⊆ store w'
    ∧ Forall2 (populated ex_env_perf ex_lib (store w') sets') [mkPool []; mkPool []] pools'.
Proof.
  assert (∃ pools' sets' w',
            populatePools ex_env_perf ex_lib [mkPool []; mkPool []] ∅ ex_world
            = Done (pools', sets') w') as (pools' & sets' & w' & Hrun).
  { vm_compute. eauto. }
  exists pools', sets', w'. split; [done|].
  destruct (populatePools_populates ex_env_perf ex_lib [mkPool []; mkPool []] ∅ ex_world
              pools' sets' w' Hrun) as (Hsub & _ & Hpools & _).
  by split.
Defined.

(** ** Fun facts *)

Lemma isBasicLand_card c b : isBasicLand c = Some b → ∃ sc, card c = Some sc.
Proof. unfold isBasicLand. destruct (card c) as [sc|]; [eauto|done]. Qed.

Lemma isColour_is_Some c sc colour mono :
  card c = Some sc → is_Some (isColour c colour mono).
Proof. intros Hc. unfold isColour. rewrite Hc. simpl. case_match; eauto. Qed.

Lemma isCardType_is_Some c sc phrase : card c = Some sc → is_Some (isCardType c phrase).
Proof. intros Hc. unfold isCardType. rewrite Hc. simpl. eauto. Qed.

Lemma isMultiColour_is_Some c sc : card c = Some sc → is_Some (isMultiColour c).
Proof.
  intros Hc. unfold isMultiColour, isCardType. rewrite Hc. simpl. case_match; eauto.
Qed.

Lemma isColourless_is_Some c sc : card c = Some sc → is_Some (isColourless c).
Proof. intros Hc. unfold isColourless. rewrite Hc. simpl. eauto. Qed.

Lemma and_then_is_Some a b : is_Some a → is_Some b → is_Some (and_then a b).
Proof. intros [[|] ->] [y ->]; simpl; eauto. Qed.

Lemma addFacts_step_run lists lib t c :
  addFacts_step lists lib t c
  = match isBasicLand c with
    | None => None
    | Some true => Some t
    | Some false => Some (stepOf lists lib t c)
    end.
Proof.
  unfold addFacts_step, stepOf.
  destruct (isBasicLand c) as [[|]|] eqn:Hb; simpl; [done| |done].
  destruct (isBasicLand_card c _ Hb) as [sc Hc].
  destruct (isColour_is_Some c sc "W" true Hc) as [w ->].
  destruct (isColour_is_Some c sc "U" true Hc) as [u ->].
  destruct (isColour_is_Some c sc "B" true Hc) as [b ->].
  destruct (isColour_is_Some c sc "R" true Hc) as [r ->].
  destruct (isColour_is_Some c sc "G" true Hc) as [g ->].
  destruct (isMultiColour_is_Some c sc Hc) as [gold ->].
  destruct (isColourless_is_Some c sc Hc) as [cl ->].
  destruct (isCardType_is_Some c sc "Land" Hc) as [land ->].
  destruct (isCardType_is_Some c sc "Legendary Creature" Hc) as [leg ->].
  rewrite Hc. simpl. by destruct cl, land.
Qed.

Lemma addFacts_loop_cons lists lib t c cs :
  addFacts_loop lists lib t (c :: cs)
  = match isBasicLand c with
    | None => None
    | Some true => addFacts_loop lists lib t cs
    | Some false => addFacts_loop lists lib (stepOf lists lib t c) cs
    end.
Proof.
  change (addFacts_loop lists lib t (c :: cs))
    with (addFacts_step lists lib t c ≫= λ t', addFacts_loop lists lib t' cs).
  rewrite addFacts_step_run. by destruct (isBasicLand c) as [[|]|].
Qed.

Lemma addFacts_loop_is_Some lists lib cs :
  ∀ t, is_Some (addFacts_loop lists lib t cs) ↔ Forall (λ c, is_Some (card c)) cs.
Proof.
  induction cs as [|c cs IH]; intros t.
  { split; [constructor|by eexists]. }
  rewrite addFacts_loop_cons, Forall_cons.
  destruct (isBasicLand c) as [[|]|] eqn:Hb.
  - rewrite IH. destruct (isBasicLand_card _ _ Hb) as [sc ->].
    split; [by split; [eexists|]|by intros [_ ?]].
  - rewrite IH. destruct (isBasicLand_card _ _ Hb) as [sc ->].
    split; [by split; [eexists|]|by intros [_ ?]].
  - split; [by intros [? ?]|]. intros [[sc Hc] _].
    unfold isBasicLand in Hb. by rewrite Hc in Hb.
Qed.

Lemma addFacts_loop_counted lists lib cs :
  ∀ t t', addFacts_loop lists lib t cs = Some t' →
          t' = foldl (stepOf lists lib) t (counted cs).
Proof.
  induction cs as [|c cs IH]; intros t t'.
  { by intros [= <-]. }
  rewrite addFacts_loop_cons. unfold counted. rewrite filter_cons.
  destruct (isBasicLand c) as [[|]|] eqn:Hb; [| |done].
  - rewrite decide_False by done. apply IH.
  - rewrite decide_True by done. apply IH.
Qed.

Lemma counted_cards cs c : c ∈ counted cs → c ∈ cs ∧ isBasicLand c = Some false.
Proof. unfold counted. rewrite list_elem_of_filter. by intros [? ?]. Qed.

Lemma counted_idemp cs : counted (counted cs) = counted cs.
Proof.
  unfold counted. induction cs as [|c cs IH]; [done|].
  rewrite filter_cons. case_decide; [|done].
  rewrite filter_cons, decide_True by done. by rewrite IH.
Qed.

Lemma calculateStrength_is_Some pool byDeck : is_Some (calculateStrength pool byDeck).
Proof.
  unfold calculateStrength, calculateStrengthFor.
  rewrite (topThreeStrength_perm _ _ _ (deckStrengths_values currentSet pool byDeck)).
  rewrite topThreeStrength_sorted, deckStrengths_size. cbn zeta.
  assert (3 ≤ length (sortDescending
                        (replicate (length (getDecks currentSet)) 0%Qc
                           ++ rawStrengths currentSet pool byDeck)))%nat as Hlen.
  { rewrite sortDescending_length, length_app, length_replicate.
    pose proof (getDecks_length currentSet). lia. }
  destruct (sortDescending _) as [|v0 [|v1 [|v2 rest]]]; simpl in Hlen; try lia.
  by eexists.
Qed.

(** What [addFacts] returns, when it returns. *)
Lemma addFacts_run lists lib pool byDeck pool' :
  addFacts lists lib pool byDeck = Some pool' →
  Forall (λ c, is_Some (card c)) (cards pool)
  ∧ ∃ s, calculateStrength pool byDeck = Some s
         ∧ pool' = {| player := player pool; record := record pool; uri := uri pool;
                      isAlive := isAlive pool; team := team pool; cards := cards pool;
                      facts := setFacts (foldl (stepOf lists lib) Tally_zero
                                           (counted (cards pool)))
                                        s (isAlive pool) (facts pool) |}.
Proof.
  unfold addFacts.
  destruct (addFacts_loop lists lib Tally_zero (cards pool)) as [t|] eqn:Hloop; [|done].
  simpl. destruct (calculateStrength pool byDeck) as [s|]; [|done]. simpl.
  intros [= <-]. split; [apply (addFacts_loop_is_Some lists lib _ Tally_zero); by eexists|].
  exists s. split; [done|]. by rewrite (addFacts_loop_counted _ _ _ _ _ Hloop).
Qed.

Lemma addFacts_returns lists lib pool byDeck :
  Forall (λ c, is_Some (card c)) (cards pool) →
  is_Some (addFacts lists lib pool byDeck).
Proof.
  intros Hall. unfold addFacts.
  apply (addFacts_loop_is_Some lists lib _ Tally_zero) in Hall as [t ->]. simpl.
  destruct (calculateStrength_is_Some pool byDeck) as [s ->]. by eexists.
Qed.

Ltac setFacts_lookup :=
  unfold setFacts; cbn zeta;
  repeat (first [rewrite lookup_insert_eq | rewrite lookup_insert_ne by done]).

Lemma setFacts_strength t s alive facts :
  setFacts t s alive facts !! "strength"%string = Some (if alive then s else 0).
Proof. destruct alive; by setFacts_lookup. Qed.

Lemma setFacts_other t s alive facts key :
  key ∉ factKeys → setFacts t s alive facts !! key = facts !! key.
Proof.
  intros Hkey.
  assert (∀ k, k ∈ factKeys → k ≠ key) as Hne by (by intros k Hk ->).
  destruct alive; unfold setFacts; cbn zeta;
    by rewrite !lookup_insert_ne
      by (apply Hne; unfold factKeys;
          repeat first [apply list_elem_of_here | apply list_elem_of_further]).
Qed.

Lemma setFacts_not_strength t s s' alive facts key :
  key ≠ "strength"%string →
  setFacts t s alive facts !! key = setFacts t s' alive facts !! key.
Proof.
  intros Hkey. unfold setFacts. cbn zeta. destruct alive; [|done].
  by rewrite !(lookup_insert_ne _ "strength"%string) by done.
Qed.

(** X25. [addFacts] returns exactly when every slot of the pool has a card
    (it panics on a slot without one); it then changes nothing but the facts,
    keeps the facts under other keys, and sets the strength fact to the
    strength of the pool when the pool is alive and to 0 when it is not. *)
Theorem addFacts_needs_cards lists lib pool byDeck :
  (is_Some (addFacts lists lib pool byDeck)
   ↔ Forall (λ c, is_Some (card c)) (cards pool))
  ∧ ∀ pool', addFacts lists lib pool byDeck = Some pool' →
      player pool' = player pool ∧ record pool' = record pool ∧ uri pool' = uri pool
      ∧ isAlive pool' = isAlive pool ∧ team pool' = team pool
      ∧ cards pool' = cards pool
      ∧ (∀ key, key ∉ factKeys → facts pool' !! key = facts pool !! key)
      ∧ ∃ s, calculateStrength pool byDeck = Some s
             ∧ facts pool' !! "strength"%string = Some (if isAlive pool then s else 0).
Proof.
  split.
  - split; [|apply addFacts_returns]. intros [pool' Hrun].
    by apply addFacts_run in Hrun as [? _].
  - intros pool' (_ & s & Hs & ->)%addFacts_run. simpl. do 6 (split; [done|]).
    split; [intros key; apply setFacts_other|].
    exists s. split; [done|apply setFacts_strength].
Qed.

Lemma addFacts_needs_cards_witness :
  is_Some (addFacts ex_lists ex_lib ex_pool_facts ex_maps)
  ∧ addFacts ex_lists ex_lib ex_pool ex_maps = None.
Proof.
  split; [|by vm_compute].
  apply (proj1 (addFacts_needs_cards ex_lists ex_lib ex_pool_facts ex_maps)).
  unfold ex_pool_facts. cbn [cards mkPool]. repeat constructor; by eexists.
Defined.

Lemma populated_cards env lib st sets pool pool' :
  populated env lib st sets pool pool' →
  Forall (λ c, is_Some (card c)) (cards pool) →
  Forall (λ c, is_Some (card c)) (cards pool').
Proof.
  intros (_&_&_&_&_&_& body & new & -> & _ & _ & Hnew) Hold.
  apply Forall_app. split; [done|]. apply Forall_forall.
  intros n (_ & payload & _ & -> & _)%Hnew. by eexists.
Qed.

Lemma addFacts_all_returns lists lib byDeck pools :
  Forall (λ p, Forall (λ c, is_Some (card c)) (cards p)) pools →
  ∃ result, addFacts_all lists lib pools byDeck = Some result
            ∧ Forall2 (λ p r, addFacts lists lib p byDeck = Some r) pools result.
Proof.
  induction 1 as [|p pools Hp _ (rest & Hrest & Hall)].
  { exists []. split; [done|constructor]. }
  destruct (addFacts_returns lists lib p byDeck Hp) as [r Hr].
  exists (r :: rest). split; [|by constructor].
  simpl. by rewrite Hr, Hrest.
Qed.

(** X26. Fun facts can be added to every pool that [populatePools] has
    populated: when the pools of the batch had no slot without a card before
    (those that [makePool] makes have no slots at all), [addFacts] panics for
    none of the populated pools. *)
Theorem populated_pools_get_facts env lib lists byDeck pools sets w pools' sets' w' :
  populatePools env lib pools sets w = Done (pools', sets') w' →
  Forall (λ p, Forall (λ c, is_Some (card c)) (cards p)) pools →
  ∃ result, addFacts_all lists lib pools' byDeck = Some result
            ∧ Forall2 (λ p r, addFacts lists lib p byDeck = Some r) pools' result.
Proof.
  intros Hrun Hpools. apply addFacts_all_returns.
  apply populatePools_from in Hrun as (_ & _ & l & -> & Hl & _). rewrite app_nil_l.
  induction Hl as [|p p' ps ps' Hp _ IH]; [constructor|].
  apply Forall_cons in Hpools as [Hcards Hpools].
  constructor; [by eapply populated_cards|by apply IH].
Qed.

Lemma populated_pools_get_facts_witness :
  ∃ pools' sets' w' result,
    populatePools ex_env_perf ex_lib [mkPool []; mkPool []] ∅ ex_world
    = Done (pools', sets') w'
    ∧ addFacts_all ex_lists ex_lib pools' ex_maps = Some result.
Proof.
  assert (∃ pools' sets' w',
            populatePools ex_env_perf ex_lib [mkPool []; mkPool []] ∅ ex_world
            = Done (pools', sets') w') as (pools' & sets' & w' & Hrun).
  { vm_compute. eauto. }
  destruct (populated_pools_get_facts ex_env_perf ex_lib ex_lists ex_maps
              [mkPool []; mkPool []] ∅ ex_world pools' sets' w' Hrun)
    as (result & Hres & _).
  { repeat constructor. }
  by exists pools', sets', w', result.
Defined.

(** X27. [addFacts] leaves basic lands (and Command Tower) out of every
    fact but the strength: removing their slots from the pool changes none of
    the other facts. *)
Theorem addFacts_ignores_basic_lands lists lib pool byDeck pool' :
  addFacts lists lib pool byDeck = Some pool' →
  ∃ pool'', addFacts lists lib (withCards pool (counted (cards pool))) byDeck = Some pool''
            ∧ ∀ key, key ≠ "strength"%string → facts pool'' !! key = facts pool' !! key.
Proof.
  intros (Hall & s & Hs & ->)%addFacts_run.
  destruct (addFacts_returns lists lib (withCards pool (counted (cards pool))) byDeck)
    as [pool'' Hrun].
  { cbn [cards withCards]. apply Forall_forall. intros c [Hc _]%counted_cards.
    rewrite Forall_forall in Hall. by apply Hall. }
  exists pool''. split; [done|].
  apply addFacts_run in Hrun as (_ & s' & _ & ->). cbn [facts cards withCards isAlive].
  intros key Hkey. rewrite counted_idemp. by apply setFacts_not_strength.
Qed.

Lemma addFacts_ignores_basic_lands_witness :
  ∃ pool' pool'',
    addFacts ex_lists ex_lib ex_pool_facts ex_maps = Some pool'
    ∧ addFacts ex_lists ex_lib (withCards ex_pool_facts (counted (cards ex_pool_facts)))
        ex_maps = Some pool''
    ∧ facts pool'' !! "uniqueCards"%string = facts pool' !! "uniqueCards"%string.
Proof.
  assert (∃ pool', addFacts ex_lists ex_lib ex_pool_facts ex_maps = Some pool')
    as [pool' Hrun] by (vm_compute; eauto).
  destruct (addFacts_ignores_basic_lands ex_lists ex_lib ex_pool_facts ex_maps pool' Hrun)
    as (pool'' & Hrun' & Hfacts).
  exists pool', pool''. split; [done|]. split; [done|]. by apply Hfacts.
Defined.

Lemma add_if_wrap (cond : bool) (a k : Z) :
  add_if cond (wrap_int a) k = wrap_int (a + if cond then k else 0).
Proof. destruct cond; simpl; [apply int_add_wrap|by rewrite Z.add_0_r]. Qed.

Lemma sumZ_cons x l : sumZ (x :: l) = x + sumZ l.
Proof. done. Qed.

(** A variable that the loop increases by [k c] for the counted slots that
    pass [cond] ends as the total of those [k c], as an [int]. *)
Lemma foldl_stepOf_field lists lib (f : Tally → Z) (cond : DeckSlot → bool)
    (k : DeckSlot → Z) :
  (∀ t c, f (stepOf lists lib t c) = add_if (cond c) (f t) (k c)) →
  ∀ cs a t, f t = wrap_int a →
    f (foldl (stepOf lists lib) t cs)
    = wrap_int (a + sumZ (k <$> filter (λ c, cond c = true) cs)).
Proof.
  intros Hf. induction cs as [|c cs IH]; intros a t Ht.
  { simpl. by rewrite Z.add_0_r. }
  simpl. rewrite (IH (a + if cond c then k c else 0)).
  - rewrite filter_cons. destruct (cond c) eqn:Hc.
    + rewrite decide_True by done. rewrite fmap_cons, sumZ_cons. f_equal. lia.
    + rewrite decide_False by done. f_equal. lia.
  - by rewrite Hf, Ht, add_if_wrap.
Qed.

Lemma sumWhere_ext (cond cond' : DeckSlot → bool) cs :
  (∀ c, c ∈ cs → cond c = cond' c) → sumWhere cond cs = sumWhere cond' cs.
Proof.
  intros Hext. unfold sumWhere. f_equal. f_equal.
  induction cs as [|c cs IH]; [done|].
  rewrite !filter_cons, IH by (intros; apply Hext; by apply list_elem_of_further).
  rewrite (Hext c) by apply list_elem_of_here. by destruct (cond' c).
Qed.

Lemma amountFact_total lists lib (f : Tally → Z) (cond : DeckSlot → bool) cs :
  (∀ t c, f (stepOf lists lib t c) = add_if (cond c) (f t) (amount c)) →
  f Tally_zero = 0 →
  f (foldl (stepOf lists lib) Tally_zero cs) = wrap_int (sumWhere cond cs).
Proof.
  intros Hf H0. by rewrite (foldl_stepOf_field lists lib f cond amount Hf cs 0).
Qed.

Lemma counted_and_then_land c :
  isBasicLand c = Some false →
  default false (and_then (isCardType c "Land") (negb <$> isBasicLand c))
  = default false (isCardType c "Land").
Proof. intros ->. by destruct (isCardType c "Land") as [[|]|]. Qed.

Lemma and_then_colourless c :
  default false (and_then (isColourless c) (negb <$> isCardType c "Land"))
  = default false (isColourless c) && negb (default false (isCardType c "Land")).
Proof.
  unfold isColourless, isCardType. destruct (card c) as [sc|]; simpl; [|done].
  by destruct (bool_decide _).
Qed.

Lemma setFacts_dead t s alive facts key :
  key ≠ "strength"%string →
  setFacts t s alive facts !! key = setFacts t s false facts !! key.
Proof.
  intros Hkey. unfold setFacts. cbn zeta. destruct alive; [|done].
  by rewrite (lookup_insert_ne _ "strength"%string) by done.
Qed.

Lemma amountFacts_lookup lists lib pool s key cond :
  (key, cond) ∈ amountFacts lists →
  setFacts (foldl (stepOf lists lib) Tally_zero (counted (cards pool))) s (isAlive pool)
    (facts pool) !! key
  = Some (wrap_int (sumWhere cond (counted (cards pool)))).
Proof.
  intros Hkey. set (cs := counted (cards pool)). unfold amountFacts in Hkey.
  repeat (apply elem_of_cons in Hkey as [[= -> ->]|Hkey];
          [rewrite setFacts_dead by done; setFacts_lookup; f_equal;
           first [ by apply (amountFact_total lists lib _ _ cs)
                 | idtac ]|]); [| |by apply elem_of_nil in Hkey].
  - rewrite (amountFact_total lists lib colourless _ cs (λ _ _, eq_refl) eq_refl).
    f_equal. apply sumWhere_ext. intros c _. apply and_then_colourless.
  - rewrite (amountFact_total lists lib nonBasicLand _ cs (λ _ _, eq_refl) eq_refl).
    f_equal. apply sumWhere_ext. intros c [_ Hc]%counted_cards.
    by apply counted_and_then_land.
Qed.

(** X28. Each fact that totals amounts is the total, as an [int], of the
    amounts of the counted slots (those of a card that is not a basic land)
    that pass its test: membership of the curated list for bombs, duds and
    top commons; a colour identity of that one colour for the five colours;
    more than one colour and no land for gold; no colour and no land for
    colourless; a land for non-basic lands.  It is the exact total whenever
    that is an [int]. *)
Theorem addFacts_totals lists lib pool byDeck pool' key cond :
  addFacts lists lib pool byDeck = Some pool' →
  (key, cond) ∈ amountFacts lists →
  facts pool' !! key = Some (wrap_int (sumWhere cond (counted (cards pool))))
  ∧ (is_int (sumWhere cond (counted (cards pool))) →
     facts pool' !! key = Some (sumWhere cond (counted (cards pool)))).
Proof.
  intros (_ & s & _ & ->)%addFacts_run Hkey. cbn [facts].
  rewrite (amountFacts_lookup lists lib pool s key cond Hkey).
  split; [done|]. intros Hint. by rewrite wrap_int_id.
Qed.

Lemma addFacts_totals_witness :
  ∃ pool', addFacts ex_lists ex_lib ex_pool_facts ex_maps = Some pool'
           ∧ facts pool' !! "gold"%string = Some 2.
Proof.
  assert (∃ pool', addFacts ex_lists ex_lib ex_pool_facts ex_maps = Some pool')
    as [pool' Hrun] by (vm_compute; eauto).
  exists pool'. split; [done|].
  destruct (addFacts_totals ex_lists ex_lib ex_pool_facts ex_maps pool' "gold"
              (λ c, default false (isMultiColour c)) Hrun) as [_ Hexact].
  { unfold amountFacts. do 8 apply list_elem_of_further. apply list_elem_of_here. }
  rewrite Hexact; [by vm_compute|]. split; by vm_compute.
Defined.

Lemma sumZ_ones {A} (l : list A) : sumZ ((λ _, 1) <$> l) = Z.of_nat (length l).
Proof. induction l as [|x l IH]; [done|]. rewrite fmap_cons, sumZ_cons, IH. simpl. lia. Qed.

Lemma countFact_total lists lib (f : Tally → Z) (cond : DeckSlot → bool) cs :
  (∀ t c, f (stepOf lists lib t c) = add_if (cond c) (f t) 1) →
  f Tally_zero = 0 →
  Z.of_nat (length cs) ≤ int_max →
  f (foldl (stepOf lists lib) Tally_zero cs) = countWhere cond cs.
Proof.
  intros Hf H0 Hlen.
  rewrite (foldl_stepOf_field lists lib f cond (λ _, 1) Hf cs 0) by done.
  rewrite Z.add_0_l, sumZ_ones. apply wrap_int_id. unfold countWhere, is_int, int_min.
  pose proof (length_filter (λ c, cond c = true) cs). unfold int_max in *. lia.
Qed.

Lemma countWhere_le cond cs : 0 ≤ countWhere cond cs ≤ Z.of_nat (length cs).
Proof.
  unfold countWhere. pose proof (length_filter (λ c, cond c = true) cs). lia.
Qed.

Lemma countWhere_all cs : countWhere (λ _, true) cs = Z.of_nat (length cs).
Proof.
  unfold countWhere. do 2 f_equal. induction cs as [|c cs IH]; [done|].
  by rewrite filter_cons, decide_True, IH.
Qed.

(** X29. For a pool of fewer than 2^63 slots, [uniqueCards] is the number of
    counted slots (those of a card that is not a basic land), [playsets] the
    number of those with an amount of 4 or more and [commanders] the number
    of those whose type line contains "Legendary Creature", each slot counted
    once whatever its amount; so neither exceeds [uniqueCards]. *)
Theorem addFacts_counts lists lib pool byDeck pool' :
  addFacts lists lib pool byDeck = Some pool' →
  Z.of_nat (length (cards pool)) ≤ int_max →
  ∃ unique sets4 legends,
    facts pool' !! "uniqueCards"%string = Some unique
    ∧ facts pool' !! "playsets"%string = Some sets4
    ∧ facts pool' !! "commanders"%string = Some legends
    ∧ unique = Z.of_nat (length (counted (cards pool)))
    ∧ sets4 = countWhere (λ c, bool_decide (amount c >= 4)) (counted (cards pool))
    ∧ legends = countWhere (λ c, default false (isCardType c "Legendary Creature"))
                  (counted (cards pool))
    ∧ 0 ≤ sets4 ≤ unique ∧ 0 ≤ legends ≤ unique.
Proof.
  intros (_ & s & _ & ->)%addFacts_run Hlen. cbn [facts].
  set (cs := counted (cards pool)).
  assert (Z.of_nat (length cs) ≤ int_max) as Hcs.
  { pose proof (length_filter (λ c, isBasicLand c = Some false) (cards pool)).
    unfold cs, counted. lia. }
  set (t := foldl (stepOf lists lib) Tally_zero cs).
  exists (uniqueCards t), (playsets t), (commanders t).
  rewrite (setFacts_dead _ _ _ _ "uniqueCards"), (setFacts_dead _ _ _ _ "playsets"),
    (setFacts_dead _ _ _ _ "commanders") by done.
  split; [by setFacts_lookup|]. split; [by setFacts_lookup|]. split; [by setFacts_lookup|].
  unfold t.
  rewrite (countFact_total lists lib uniqueCards (λ _, true) cs) by done.
  rewrite (countFact_total lists lib playsets (λ c, bool_decide (amount c >= 4)) cs)
    by done.
  rewrite (countFact_total lists lib commanders
             (λ c, default false (isCardType c "Legendary Creature")) cs) by done.
  rewrite countWhere_all. do 3 (split; [done|]). split; apply countWhere_le.
Qed.

Lemma addFacts_counts_witness :
  ∃ pool', addFacts ex_lists ex_lib ex_pool_facts ex_maps = Some pool'
           ∧ facts pool' !! "uniqueCards"%string = Some 3
           ∧ facts pool' !! "playsets"%string = Some 1
           ∧ facts pool' !! "commanders"%string = Some 1.
Proof.
  assert (∃ pool', addFacts ex_lists ex_lib ex_pool_facts ex_maps = Some pool')
    as [pool' Hrun] by (vm_compute; eauto).
  exists pool'. split; [done|].
  destruct (addFacts_counts ex_lists ex_lib ex_pool_facts ex_maps pool' Hrun)
    as (unique & sets4 & legends & -> & -> & -> & -> & -> & -> & _).
  { by vm_compute. }
  repeat split; by vm_compute.
Defined.

Lemma sumWhere_cons cond c cs :
  sumWhere cond (c :: cs) = amount c * Z.b2z (cond c) + sumWhere cond cs.
Proof.
  unfold sumWhere. rewrite filter_cons. destruct (cond c).
  - rewrite decide_True by done. rewrite fmap_cons, sumZ_cons. simpl. lia.
  - rewrite decide_False by done. simpl. lia.
Qed.

(** A card passes at most one of the seven colour tests. *)
Lemma colour_indicators c :
  Z.b2z (default false (isColour c "W" true)) + Z.b2z (default false (isColour c "U" true))
  + Z.b2z (default false (isColour c "B" true)) + Z.b2z (default false (isColour c "R" true))
  + Z.b2z (default false (isColour c "G" true)) + Z.b2z (default false (isMultiColour c))
  + Z.b2z (default false (isColourless c) && negb (default false (isCardType c "Land")))
  ≤ 1.
Proof.
  unfold isColour, isMultiColour, isColourless, isCardType.
  destruct (card c) as [sc|]; simpl; [|lia].
  destruct (ColorIdentity sc) as [|x [|y rest]]; simpl.
  - destruct (negb _); simpl; lia.
  - repeat case_decide; simplify_eq; simpl; lia.
  - destruct (negb _); simpl; lia.
Qed.

Lemma colour_sums cs :
  Forall (λ c, 0 ≤ amount c) cs →
  let total cond := sumWhere cond cs in
  let w := total (λ c, default false (isColour c "W" true)) in
  let u := total (λ c, default false (isColour c "U" true)) in
  let b := total (λ c, default false (isColour c "B" true)) in
  let r := total (λ c, default false (isColour c "R" true)) in
  let g := total (λ c, default false (isColour c "G" true)) in
  let gold := total (λ c, default false (isMultiColour c)) in
  let cl := total (λ c, default false (isColourless c)
                        && negb (default false (isCardType c "Land"))) in
  0 ≤ w ∧ 0 ≤ u ∧ 0 ≤ b ∧ 0 ≤ r ∧ 0 ≤ g ∧ 0 ≤ gold ∧ 0 ≤ cl
  ∧ w + u + b + r + g + gold + cl ≤ sumZ (amount <$> cs).
Proof.
  cbn zeta. induction 1 as [|c cs Hc _ IH].
  { unfold sumWhere. simpl. lia. }
  rewrite !sumWhere_cons, fmap_cons, sumZ_cons.
  pose proof (colour_indicators c) as Hone.
  destruct (default false (isColour c "W" true)),
    (default false (isColour c "U" true)), (default false (isColour c "B" true)),
    (default false (isColour c "R" true)), (default false (isColour c "G" true)),
    (default false (isMultiColour c)),
    (default false (isColourless c) && negb (default false (isCardType c "Land")));
    simpl in Hone; simpl Z.b2z; lia.
Qed.

(** X30. No card is counted under two colours: for a pool whose amounts are
    not negative and total at most the greatest [int], the seven colour facts
    (white, blue, black, red, green, gold, colourless) are not negative and
    add up to at most the total amount of the counted slots. *)
Theorem addFacts_colours_disjoint lists lib pool byDeck pool' :
  addFacts lists lib pool byDeck = Some pool' →
  Forall (λ c, 0 ≤ amount c) (cards pool) →
  sumZ (amount <$> counted (cards pool)) ≤ int_max →
  ∃ w u b r g gold cl,
    facts pool' !! "white"%string = Some w ∧ facts pool' !! "blue"%string = Some u
    ∧ facts pool' !! "black"%string = Some b ∧ facts pool' !! "red"%string = Some r
    ∧ facts pool' !! "green"%string = Some g ∧ facts pool' !! "gold"%string = Some gold
    ∧ facts pool' !! "colourless"%string = Some cl
    ∧ 0 ≤ w ∧ 0 ≤ u ∧ 0 ≤ b ∧ 0 ≤ r ∧ 0 ≤ g ∧ 0 ≤ gold ∧ 0 ≤ cl
    ∧ w + u + b + r + g + gold + cl ≤ sumZ (amount <$> counted (cards pool)).
Proof.
  intros (_ & s & _ & ->)%addFacts_run Hpos Hmax. cbn [facts].
  assert (Forall (λ c, 0 ≤ amount c) (counted (cards pool))) as Hpos'.
  { apply Forall_forall. intros c [Hc _]%counted_cards.
    rewrite Forall_forall in Hpos. by apply Hpos. }
  pose proof (colour_sums _ Hpos') as H. cbn zeta in H.
  destruct H as (Hw & Hu & Hb & Hr & Hg & Hgold & Hcl & Hsum).
  assert (∀ key cond, (key, cond) ∈ amountFacts lists →
            0 ≤ sumWhere cond (counted (cards pool)) ≤ int_max →
            setFacts (foldl (stepOf lists lib) Tally_zero (counted (cards pool))) s
              (isAlive pool) (facts pool) !! key
            = Some (sumWhere cond (counted (cards pool)))) as Hfact.
  { intros key cond Hkey Hrange. rewrite (amountFacts_lookup _ _ _ _ _ _ Hkey).
    rewrite wrap_int_id; [done|]. unfold is_int, int_min. unfold int_max in *. lia. }
  eexists _, _, _, _, _, _, _.
  split; [apply Hfact; [unfold amountFacts; do 3 apply list_elem_of_further;
                        apply list_elem_of_here|lia]|].
  split; [apply Hfact; [unfold amountFacts; do 4 apply list_elem_of_further;
                        apply list_elem_of_here|lia]|].
  split; [apply Hfact; [unfold amountFacts; do 5 apply list_elem_of_further;
                        apply list_elem_of_here|lia]|].
  split; [apply Hfact; [unfold amountFacts; do 6 apply list_elem_of_further;
                        apply list_elem_of_here|lia]|].
  split; [apply Hfact; [unfold amountFacts; do 7 apply list_elem_of_further;
                        apply list_elem_of_here|lia]|].
  split; [apply Hfact; [unfold amountFacts; do 8 apply list_elem_of_further;
                        apply list_elem_of_here|lia]|].
  split; [apply Hfact; [unfold amountFacts; do 9 apply list_elem_of_further;
                        apply list_elem_of_here|lia]|].
  done.
Qed.

Lemma addFacts_colours_disjoint_witness :
  ∃ pool' r gold,
    addFacts ex_lists ex_lib ex_pool_facts ex_maps = Some pool'
    ∧ facts pool' !! "red"%string = Some r ∧ facts pool' !! "gold"%string = Some gold
    ∧ r + gold ≤ 7.
Proof.
  assert (∃ pool', addFacts ex_lists ex_lib ex_pool_facts ex_maps = Some pool')
    as [pool' Hrun] by (vm_compute; eauto).
  destruct (addFacts_colours_disjoint ex_lists ex_lib ex_pool_facts ex_maps pool' Hrun)
    as (w & u & b & r & g & gold & cl & _ & _ & _ & Hr & _ & Hgold & _
        & Hw & Hu & Hb & _ & Hg & _ & Hcl & Hsum).
  { unfold ex_pool_facts. cbn [cards mkPool]. repeat constructor; by vm_compute. }
  { by vm_compute. }
  exists pool', r, gold. split; [done|]. split; [done|]. split; [done|].
  assert (sumZ (amount <$> counted (cards ex_pool_facts)) = 7) as Htotal by (by vm_compute).
  lia.
Defined.
